(** * WNS address resolver: the resolution engine of the browser extension

    A shallow embedding of [chrome/background.js] (ABI codec, name
    sanitization, cache and batch orchestration) and of
    [chrome/content.js] (address extraction and subject selection),
    followed by the properties of the specification proved about it.

    Conventions of the embedding.
    - A JavaScript string is the list of its UTF-16 code units
      ([list N]); [.length], [.slice], [padStart] and regular
      expressions without the [u] flag all work on code units.
    - A JavaScript number that can be [NaN] is an [option Z]; the
      integers the codec reads are rounded to the nearest double
      ([round53]) exactly as [parseInt] and [+] do.
    - Code that can throw returns a [Completion]; code that reads or
      writes [chrome.storage], the clock or the network threads a
      [World] explicitly. *)

From Stdlib Require Import String Ascii.
From Stdlib Require Import ZArith NArith List Lia Bool.
From stdpp Require Import base option list gmap.
Import ListNotations.

Local Open Scope Z_scope.

(** ** JavaScript strings *)

Abbreviation jsstring := (list N).

Module JS.

(** A string literal of the source, as code units. *)
Definition str (s : string) : jsstring :=
  List.map N_of_ascii (list_ascii_of_string s).

(** [s.length] as a number. *)
Definition len (s : jsstring) : Z := Z.of_nat (length s).

(** One code unit of [String.prototype.toLowerCase] on the Basic Latin
    range; code units outside [A-Z] are kept. Every string the background
    worker lowers has passed [VALID_ADDR] and is ASCII. *)
Definition lowerUnit (c : N) : N :=
  if ((65 <=? c) && (c <=? 90))%N then (c + 32)%N else c.

Definition toLowerCase (s : jsstring) : jsstring := List.map lowerUnit s.

(** Relative index of [slice]: negative counts from the end, and the
    result is clamped to [0 .. len]. *)
Definition relIndex (l x : Z) : Z :=
  if x <? 0 then Z.max (l + x) 0 else Z.min x l.

(** [s.slice(start, end)], for strings and for arrays. *)
Definition slice {A : Type} (s : list A) (start stop : Z) : list A :=
  let l := Z.of_nat (length s) in
  let from := relIndex l start in
  let to := relIndex l stop in
  take (Z.to_nat (to - from)) (drop (Z.to_nat from) s).

(** [s.slice(start)]. *)
Definition sliceFrom {A : Type} (s : list A) (start : Z) : list A :=
  slice s start (Z.of_nat (length s)).

(** [s.padStart(target, c)] and [s.padEnd(target, c)] for a one-unit
    filler [c]: a string already long enough is returned unchanged. *)
Definition padStart (s : jsstring) (target : Z) (c : N) : jsstring :=
  repeat c (Z.to_nat (target - len s)) ++ s.

Definition padEnd (s : jsstring) (target : Z) (c : N) : jsstring :=
  s ++ repeat c (Z.to_nat (target - len s)).

(** [s.startsWith(p)], [s.endsWith(p)]. *)
Fixpoint startsWith (s p : jsstring) : bool :=
  match p, s with
  | [], _ => true
  | _ :: _, [] => false
  | a :: p', b :: s' => (a =? b)%N && startsWith s' p'
  end.

Definition endsWith (s p : jsstring) : bool :=
  startsWith (rev s) (rev p).

(** [s.indexOf(p)]: the first position where [p] occurs, [None] for -1. *)
Fixpoint indexOfFrom (s p : jsstring) (i : Z) : option Z :=
  if startsWith s p then Some i
  else match s with
       | [] => None
       | _ :: s' => indexOfFrom s' p (i + 1)
       end.

Definition indexOf (s p : jsstring) : option Z := indexOfFrom s p 0.

(** [s.includes(p)]. *)
Definition includes (s p : jsstring) : bool :=
  match indexOf s p with Some _ => true | None => false end.

(** [s.replace(p, r)] with a string pattern: only the first occurrence
    is replaced. *)
Fixpoint replace (s p r : jsstring) : jsstring :=
  if startsWith s p then r ++ drop (length p) s
  else match s with
       | [] => []
       | c :: s' => c :: replace s' p r
       end.

(** String equality [===]. *)
Definition streq (a b : jsstring) : bool := bool_decide (a = b).

(** The digit of [Number.prototype.toString(16)] for a value 0..15. *)
Definition hexChar (d : Z) : N :=
  if d <? 10 then Z.to_N (48 + d) else Z.to_N (87 + d).

Fixpoint hexDigits (fuel : nat) (n : Z) (acc : jsstring) : jsstring :=
  match fuel with
  | O => acc
  | S f =>
      let acc' := hexChar (n mod 16) :: acc in
      if n / 16 =? 0 then acc' else hexDigits f (n / 16) acc'
  end.

(** [n.toString(16)] for an integer [n]. *)
Definition toString16 (n : Z) : jsstring :=
  if n <? 0
  then str "-" ++ hexDigits (S (Z.to_nat (Z.log2 (- n)))) (- n) []
  else hexDigits (S (Z.to_nat (Z.log2 n))) n [].

(** The character classes the regular expressions of the source use. *)
Definition isHexDigit (c : N) : bool :=
  ((48 <=? c) && (c <=? 57) || (65 <=? c) && (c <=? 70)
   || (97 <=? c) && (c <=? 102))%N.

(** [\w]: the word characters that decide [\b]. *)
Definition isWordChar (c : N) : bool :=
  ((48 <=? c) && (c <=? 57) || (65 <=? c) && (c <=? 90)
   || (97 <=? c) && (c <=? 122) || (c =? 95))%N.

(** ** JavaScript numbers and exceptions *)

(** A number that may be [NaN] ([None]). The numbers of the codec are
    integers: a double holds them exactly below 2^53 and rounds them to 53
    significant bits, ties to even, above. *)
Abbreviation jsnum := (option Z).

Definition round53 (z : Z) : Z :=
  let a := Z.abs z in
  if a <? 2 ^ 53 then z
  else
    let e := Z.log2 a - 52 in
    let q := a / 2 ^ e in
    let r := a mod 2 ^ e in
    let half := 2 ^ (e - 1) in
    let q' := if (half <? r) || ((r =? half) && Z.odd q) then q + 1 else q in
    Z.sgn z * (q' * 2 ^ e).

(** [a + b] and [a * b] on numbers. *)
Definition add (a b : jsnum) : jsnum :=
  match a, b with
  | Some x, Some y => Some (round53 (x + y))
  | _, _ => None
  end.

Definition mul (a b : jsnum) : jsnum :=
  match a, b with
  | Some x, Some y => Some (round53 (x * y))
  | _, _ => None
  end.

(** [!n] for a number: true for [NaN] and for zero. *)
Definition falsyNum (n : jsnum) : bool :=
  match n with
  | None => true
  | Some z => z =? 0
  end.

(** [ToIntegerOrInfinity], as [slice] applies it to its arguments. *)
Definition toInteger (n : jsnum) : Z :=
  match n with
  | None => 0
  | Some z => z
  end.

(** [s.slice(a, b)] with number arguments. *)
Definition sliceNum (s : jsstring) (a b : jsnum) : jsstring :=
  slice s (toInteger a) (toInteger b).

(** White space and line terminators, which [parseInt] skips at the
    start of its argument. *)
Definition isWhiteSpace (c : N) : bool :=
  ((c =? 0x09) || (c =? 0x0A) || (c =? 0x0B) || (c =? 0x0C) || (c =? 0x0D)
   || (c =? 0x20) || (c =? 0xA0) || (c =? 0x1680)
   || (0x2000 <=? c) && (c <=? 0x200A)
   || (c =? 0x2028) || (c =? 0x2029) || (c =? 0x202F) || (c =? 0x205F)
   || (c =? 0x3000) || (c =? 0xFEFF))%N.

Fixpoint skipWhiteSpace (s : jsstring) : jsstring :=
  match s with
  | c :: s' => if isWhiteSpace c then skipWhiteSpace s' else s
  | [] => []
  end.

(** The value of a radix-16 digit. *)
Definition hexValue (c : N) : option Z :=
  if ((48 <=? c) && (c <=? 57))%N then Some (Z.of_N c - 48)
  else if ((97 <=? c) && (c <=? 102))%N then Some (Z.of_N c - 87)
  else if ((65 <=? c) && (c <=? 70))%N then Some (Z.of_N c - 55)
  else None.

(** The longest prefix of radix-16 digits: how many there are and their
    value, most significant digit first. *)
Fixpoint hexPrefix (s : jsstring) (count acc : Z) : Z * Z :=
  match s with
  | c :: s' =>
      match hexValue c with
      | Some d => hexPrefix s' (count + 1) (acc * 16 + d)
      | None => (count, acc)
      end
  | [] => (count, acc)
  end.

(** [parseInt(s, 16)]: leading white space, an optional sign, an optional
    [0x] or [0X], then the longest run of digits; [NaN] when there is no
    digit. The result is the double nearest to the integer read. *)
Definition parseInt16 (s : jsstring) : jsnum :=
  let s := skipWhiteSpace s in
  let '(sign, s) :=
    match s with
    | c :: s' =>
        if (c =? 45)%N then (-1, s')
        else if (c =? 43)%N then (1, s')
        else (1, s)
    | [] => (1, s)
    end in
  let s :=
    match s with
    | c0 :: c1 :: s' =>
        if ((c0 =? 48) && ((c1 =? 120) || (c1 =? 88)))%N then s' else s
    | _ => s
    end in
  let '(count, v) := hexPrefix s 0 0 in
  if count =? 0 then None else Some (round53 (sign * v)).

(** [s.trim()]: white space and line terminators are removed at both
    ends. *)
Definition trim (s : jsstring) : jsstring :=
  rev (skipWhiteSpace (rev (skipWhiteSpace s))).

(** The value of a radix-10 digit. *)
Definition decValue (c : N) : option Z :=
  if ((48 <=? c) && (c <=? 57))%N then Some (Z.of_N c - 48) else None.

(** The longest prefix of radix-10 digits: how many there are and their
    value. *)
Fixpoint decPrefix (s : jsstring) (count acc : Z) : Z * Z :=
  match s with
  | c :: s' =>
      match decValue c with
      | Some d => decPrefix s' (count + 1) (acc * 10 + d)
      | None => (count, acc)
      end
  | [] => (count, acc)
  end.

(** [parseInt(s, 10)]: leading white space, an optional sign, then the
    longest run of digits; [NaN] when there is no digit. *)
Definition parseInt10 (s : jsstring) : jsnum :=
  let s := skipWhiteSpace s in
  let '(sign, s) :=
    match s with
    | c :: s' =>
        if (c =? 45)%N then (-1, s')
        else if (c =? 43)%N then (1, s')
        else (1, s)
    | [] => (1, s)
    end in
  let '(count, v) := decPrefix s 0 0 in
  if count =? 0 then None else Some (round53 (sign * v)).

Inductive Error : Type :=
  | TypeError
  | RangeError
  | SyntaxError
  | NetworkError.

(** The outcome of code that can throw. *)
Inductive Completion (A : Type) : Type :=
  | Normal (a : A)
  | Throw (e : Error).
Arguments Normal {A} a.
Arguments Throw {A} e.

(** [xs.push(x)]: an array holds at most 2^32 - 1 elements, and a push
    beyond that throws a RangeError. *)
Definition MAX_ARRAY_LENGTH : Z := 2 ^ 32 - 1.

Definition push {A : Type} (xs : list A) (x : A) : Completion (list A) :=
  if Z.of_nat (length xs) <? MAX_ARRAY_LENGTH
  then Normal (xs ++ [x])
  else Throw RangeError.

(** [ToUint8], which stores a number in a [Uint8Array]: [NaN] becomes 0
    and an integer is reduced modulo 256. *)
Definition toUint8 (n : jsnum) : Z :=
  match n with
  | None => 0
  | Some z => z mod 256
  end.

(** The UTF-8 decoder of [new TextDecoder('utf-8', { fatal: true })].
    [needed] counts the continuation bytes still expected of the code point
    [cp]; [lower] and [upper] bound the next continuation byte, which
    excludes overlong forms, surrogates and values above U+10FFFF. Any
    malformed sequence throws a TypeError. The result lists code points. *)
Fixpoint utf8Decode (bytes : list Z) (cp needed lower upper : Z)
    : Completion (list Z) :=
  match bytes with
  | [] => if needed =? 0 then Normal [] else Throw TypeError
  | b :: rest =>
      if needed =? 0 then
        if b <=? 0x7F then
          match utf8Decode rest 0 0 0x80 0xBF with
          | Normal out => Normal (b :: out)
          | Throw e => Throw e
          end
        else if (0xC2 <=? b) && (b <=? 0xDF) then
          utf8Decode rest (Z.land b 0x1F) 1 0x80 0xBF
        else if (0xE0 <=? b) && (b <=? 0xEF) then
          utf8Decode rest (Z.land b 0xF) 2
            (if b =? 0xE0 then 0xA0 else 0x80)
            (if b =? 0xED then 0x9F else 0xBF)
        else if (0xF0 <=? b) && (b <=? 0xF4) then
          utf8Decode rest (Z.land b 0x7) 3
            (if b =? 0xF0 then 0x90 else 0x80)
            (if b =? 0xF4 then 0x8F else 0xBF)
        else Throw TypeError
      else if (b <? lower) || (upper <? b) then Throw TypeError
      else
        let cp' := Z.lor (Z.shiftl cp 6) (Z.land b 0x3F) in
        if needed =? 1 then
          match utf8Decode rest 0 0 0x80 0xBF with
          | Normal out => Normal (cp' :: out)
          | Throw e => Throw e
          end
        else utf8Decode rest cp' (needed - 1) 0x80 0xBF
  end.

(** A code point as UTF-16 code units. *)
Definition utf16 (cp : Z) : jsstring :=
  if cp <? 0x10000 then [Z.to_N cp]
  else
    let v := cp - 0x10000 in
    [Z.to_N (0xD800 + Z.shiftr v 10); Z.to_N (0xDC00 + Z.land v 0x3FF)].

(** [textDecoder.decode(bytes)]: a byte order mark at the very start is
    dropped ([ignoreBOM] is false). *)
Definition textDecode (bytes : list Z) : Completion jsstring :=
  match utf8Decode bytes 0 0 0x80 0xBF with
  | Throw e => Throw e
  | Normal cps =>
      let cps :=
        match cps with
        | c :: cps' => if c =? 0xFEFF then cps' else cps
        | [] => []
        end in
      Normal (concat (List.map utf16 cps))
  end.

End JS.

(** ** chrome/background.js: ABI helpers *)

Module Background.
Import JS.

Definition WNS_CONTRACT : jsstring :=
  str "0x0000000000696760E15f265e828DB644A0c242EB".
Definition MULTICALL3 : jsstring :=
  str "0xcA11bde05977b3631167028862bE2a173976CA11".
Definition REVERSE_RESOLVE_SELECTOR : jsstring := str "0x9af8b7aa".
Definition AGGREGATE3_SELECTOR : jsstring := str "0x82ad56cb".

(** Hex chars per 32-byte ABI word. *)
Definition W : Z := 64.

(** The code unit of the character 0, the filler of both paddings. *)
Definition zeroChar : N := 48%N.

Definition pad32 (hex : jsstring) : jsstring := padStart hex W zeroChar.

Definition encodeReverseResolve (address : jsstring) : jsstring :=
  let addr := replace (toLowerCase address) (str "0x") [] in
  REVERSE_RESOLVE_SELECTOR ++ pad32 addr.

(** The six words one address contributes ([words.push] six times). *)
Definition pushElement (wnsTarget : jsstring) (words : list jsstring)
    (addr : jsstring) : list jsstring :=
  let cd := sliceFrom (encodeReverseResolve addr) 2 in
  words ++ [pad32 wnsTarget; pad32 (str "1"); pad32 (str "60");
            pad32 (str "24"); slice cd 0 W; padEnd (sliceFrom cd W) W zeroChar].

Definition encodeMulticall (addresses : list jsstring) : jsstring :=
  let n := Z.of_nat (length addresses) in
  let ELEMENT_WORDS := 6 in
  let words := [pad32 (str "20"); pad32 (toString16 n)] in
  let words :=
    fold_left
      (fun words i =>
         words ++ [pad32 (toString16 (n * 32 + i * ELEMENT_WORDS * 32))])
      (List.map Z.of_nat (seq 0 (length addresses))) words in
  let wnsTarget := replace (toLowerCase WNS_CONTRACT) (str "0x") [] in
  let words := fold_left (pushElement wnsTarget) addresses words in
  AGGREGATE3_SELECTOR ++ concat words.

Definition MAX_NAME_LENGTH : Z := 64.

(** The character class of the regular expression in [sanitizeName]. *)
Definition stripped (c : N) : bool :=
  ((c <=? 0x1F) || (0x7F <=? c) && (c <=? 0x9F)
   || (0x200B <=? c) && (c <=? 0x200F)
   || (0x202A <=? c) && (c <=? 0x202E)
   || (0x2060 <=? c) && (c <=? 0x2069)
   || (c =? 0xFEFF))%N.

(** [sanitizeName]: [None] is the source's [null]. *)
Definition sanitizeName (name : jsstring) : option jsstring :=
  let cleaned := List.filter (fun c => negb (stripped c)) name in
  match cleaned with
  | [] => None
  | _ =>
      Some (if MAX_NAME_LENGTH <? len cleaned
            then slice cleaned 0 MAX_NAME_LENGTH
            else cleaned)
  end.

(** Convert a hex string to the bytes of a [Uint8Array]: the array has
    [hex.length / 2] elements, truncated to an integer, and a pair that
    [parseInt] cannot read is stored as 0. *)
Definition hexToBytes (hex : jsstring) : list Z :=
  List.map
    (fun i => toUint8 (parseInt16 (slice hex (i * 2) (i * 2 + 2))))
    (List.map Z.of_nat (seq 0 (Z.to_nat (len hex / 2)))).

(** The closures [word] and [uint] of [decodeAggregate3]. *)
Definition word (data : jsstring) (pos : jsnum) : jsstring :=
  sliceNum data pos (add pos (Some W)).

Definition uint (data : jsstring) (pos : jsnum) : jsnum :=
  parseInt16 (word data pos).

Definition arrayBase : jsnum := mul (Some 2) (Some W).

(** One iteration of the loop of [decodeAggregate3]: the value pushed for
    slot [i]. The [try]/[catch] turns a throwing decode into [null]. *)
Definition decodeSlot (data : jsstring) (i : Z) : option jsstring :=
  let offset := mul (uint data (add arrayBase (mul (Some i) (Some W)))) (Some 2) in
  let base := add arrayBase offset in
  let success :=
    match uint data base with
    | Some 1 => true
    | _ => false
    end in
  if negb success then None
  else
    let bytesOffset := mul (uint data (add base (Some W))) (Some 2) in
    let bytesBase := add base bytesOffset in
    let bytesLen := uint data bytesBase in
    if falsyNum bytesLen then None
    else
      let rdBase := add bytesBase (Some W) in
      let strLen := uint data (add rdBase (Some W)) in
      if falsyNum strLen then None
      else
        let strHex :=
          sliceNum data (add rdBase (mul (Some 2) (Some W)))
            (add (add rdBase (mul (Some 2) (Some W))) (mul strLen (Some 2))) in
        match textDecode (hexToBytes strHex) with
        | Normal raw => sanitizeName raw
        | Throw _ => None
        end.

(** The [for] loop: [count] iterations are left, [i] is the loop variable
    and [names] the array built so far. Every path of the body pushes
    exactly one element. *)
Fixpoint decodeLoop (data : jsstring) (count : nat) (i : Z)
    (names : list (option jsstring)) : Completion (list (option jsstring)) :=
  match count with
  | O => Normal names
  | S count' =>
      match push names (decodeSlot data i) with
      | Normal names' => decodeLoop data count' (i + 1) names'
      | Throw e => Throw e
      end
  end.

(** [decodeAggregate3(hex)]; [None] is a missing ([undefined]) argument.
    The loop runs while [i < n], that is [n] times for a positive [n] and
    not at all for a negative one. *)
Definition decodeAggregate3 (hex : option jsstring)
    : Completion (list (option jsstring)) :=
  match hex with
  | None => Normal []
  | Some hex =>
      if streq hex [] || streq hex (str "0x") then Normal []
      else
        let data := if startsWith hex (str "0x") then sliceFrom hex 2 else hex in
        let n := uint data (Some W) in
        if falsyNum n then Normal []
        else decodeLoop data (Z.to_nat (toInteger n)) 0 []
  end.

(** ** chrome/background.js: providers, cache and cooldown *)

(** [VALID_ADDR], the test the message listener applies:
    [/^0x[0-9a-fA-F]{40}$/]. *)
Definition VALID_ADDR (a : jsstring) : bool :=
  match a with
  | c0 :: c1 :: body =>
      (c0 =? 48)%N && (c1 =? 120)%N && (length body =? 40)%nat
      && forallb isHexDigit body
  | _ => false
  end.

(** A value used as a condition: [null], [undefined] and the empty string
    are falsy. *)
Definition truthy (v : option jsstring) : option jsstring :=
  match v with
  | Some [] => None
  | _ => v
  end.

(** A cache entry [{ n, t }]: the name ([null] for an address without a
    name) and the time it was stored. *)
Record CacheEntry : Type := mkEntry {
  entry_n : option jsstring;
  entry_t : Z
}.

(** The configuration [getConfig] returns, defaults merged in. *)
Record Config : Type := mkConfig {
  cacheEnabled : bool;
  cacheTtlMinutes : Z;
  maxBatchSize : Z;
  rpcCooldownMs : Z
}.

Definition WNS_DEFAULTS : Config :=
  {| cacheEnabled := true; cacheTtlMinutes := 60;
     maxBatchSize := 50; rpcCooldownMs := 2000 |}.

(** What [fetch] followed by [res.json()] can yield: a rejected request,
    a body that is not JSON, or a JSON object whose [result] member is
    absent ([None]) or a string. *)
Inductive Response : Type :=
  | NetworkFailure
  | InvalidJson
  | Json (result : option jsstring).

(** One [eth_call] as the network saw it: when it started, the addresses
    of its batch and the calldata sent. *)
Record Call : Type := mkCall {
  call_time : Z;
  call_addresses : list jsstring;
  call_data : jsstring
}.

(** Everything the worker reads and writes outside its own frame: the
    cache keys of [chrome.storage.local], [Date.now()], the module
    variable [lastRpcTime], and the log of transport calls. *)
Record World : Type := mkWorld {
  storage : gmap jsstring CacheEntry;
  now : Z;
  lastRpcTime : Z;
  fetched : list Call
}.

(** Build the storage.local key for a cached address. *)
Definition cacheKey (address : jsstring) : jsstring :=
  str "wns_" ++ toLowerCase address.

Section Orchestrator.

(** The stored configuration, and the network: the response to the
    k-th transport call and the time that call takes. *)
Variable stored : Config.
Variable network : nat -> Response * Z.

(** The loop over [addresses] at the end of [resolveViaRPC]. *)
Definition collectNames (addresses : list jsstring)
    (names : list (option jsstring)) : gmap jsstring jsstring :=
  fold_left
    (fun (results : gmap jsstring jsstring) (i : nat) =>
       match addresses !! i, truthy (mjoin (names !! i)) with
       | Some a, Some name => <[toLowerCase a := name]> results
       | _, _ => results
       end)
    (seq 0 (length addresses)) ∅.

(** [resolveViaRPC]: one [eth_call] for a batch. *)
Definition resolveViaRPC (addresses : list jsstring) (w : World)
    : World * Completion (gmap jsstring jsstring) :=
  let calldata := encodeMulticall addresses in
  let '(res, latency) := network (length (fetched w)) in
  let w :=
    {| storage := storage w;
       now := now w + latency;
       lastRpcTime := lastRpcTime w;
       fetched := fetched w ++ [mkCall (now w) addresses calldata] |} in
  match res with
  | NetworkFailure => (w, Throw NetworkError)
  | InvalidJson => (w, Throw SyntaxError)
  | Json result =>
      match truthy result with
      | None => (w, Normal ∅)
      | Some hex =>
          match decodeAggregate3 (Some hex) with
          | Throw e => (w, Throw e)
          | Normal names => (w, Normal (collectNames addresses names))
          end
      end
  end.

(** The loop that cuts [uncached] into chunks. [fuel] counts the
    iterations still allowed; [uncached.length] of them are enough as soon
    as [maxBatch] is at least 1. With a smaller [maxBatch] the loop variable
    never reaches the length and the pushes go on until the array is full,
    which is the RangeError returned when the fuel is gone. *)
Fixpoint chunkLoop (fuel : nat) (uncached : list jsstring) (maxBatch i : Z)
    (chunks : list (list jsstring)) : Completion (list (list jsstring)) :=
  if i <? Z.of_nat (length uncached) then
    match fuel with
    | O => Throw RangeError
    | S fuel' =>
        chunkLoop fuel' uncached maxBatch (i + maxBatch)
          (chunks ++ [slice uncached i (i + maxBatch)])
    end
  else Normal chunks.

(** The cache read: a fresh entry is a hit, positive when it has a name;
    every other address is pushed to [uncached]. *)
Definition cacheRead (cached : gmap jsstring CacheEntry) (now cacheTtlMs : Z)
    (addresses : list jsstring)
    : gmap jsstring jsstring * list jsstring :=
  fold_left
    (fun '(results, uncached) addr =>
       match cached !! cacheKey addr with
       | Some entry =>
           if now - entry_t entry <? cacheTtlMs then
             match truthy (entry_n entry) with
             | Some name => (<[toLowerCase addr := name]> results, uncached)
             | None => (results, uncached)
             end
           else (results, uncached ++ [addr])
       | None => (results, uncached ++ [addr])
       end)
    addresses (∅, []).

(** The object [toStore] built for one chunk. *)
Definition toStore (chunk : list jsstring) (fresh : gmap jsstring jsstring)
    (now : Z) : gmap jsstring CacheEntry :=
  fold_left
    (fun (acc : gmap jsstring CacheEntry) addr =>
       let name := truthy (fresh !! toLowerCase addr) in
       <[cacheKey addr := mkEntry name now]> acc)
    chunk ∅.

(** [chrome.storage.local.set(items)]: the keys of [items] are written,
    the others are kept. *)
Definition storageSet (items : gmap jsstring CacheEntry) (w : World) : World :=
  {| storage := items ∪ storage w;
     now := now w;
     lastRpcTime := lastRpcTime w;
     fetched := fetched w |}.

(** The loop over the chunks: transport call, cache write, merge. An
    exception of [resolveViaRPC] leaves the loop and the function.
    [results.set] for every pair of [fresh] is the union that prefers
    [fresh]. *)
Fixpoint chunksLoop (cacheOn : bool) (chunks : list (list jsstring))
    (results : gmap jsstring jsstring) (w : World)
    : World * Completion (gmap jsstring jsstring) :=
  match chunks with
  | [] => (w, Normal results)
  | chunk :: rest =>
      match resolveViaRPC chunk w with
      | (w, Throw e) => (w, Throw e)
      | (w, Normal fresh) =>
          let w :=
            if cacheOn then storageSet (toStore chunk fresh (now w)) w
            else w in
          chunksLoop cacheOn rest (fresh ∪ results) w
      end
  end.

(** Main resolver: checks the cache first, then fires RPC batches only
    for misses. *)
Definition resolveAddresses (addresses : list jsstring) (w : World)
    : World * Completion (gmap jsstring jsstring) :=
  let cacheOn := cacheEnabled stored in
  let cacheTtlMs := cacheTtlMinutes stored * 60 * 1000 in
  let '(results, uncached) :=
    if cacheOn then cacheRead (storage w) (now w) cacheTtlMs addresses
    else (∅, addresses) in
  match uncached with
  | [] => (w, Normal results)
  | _ =>
      let maxBatch := maxBatchSize stored in
      match chunkLoop (length uncached) uncached maxBatch 0 [] with
      | Throw e => (w, Throw e)
      | Normal chunks => chunksLoop cacheOn chunks results w
      end
  end.

(** Wait until the cooldown period has elapsed since the last RPC call. *)
Definition waitForCooldown (w : World) : World :=
  let cooldown := rpcCooldownMs stored in
  let elapsed := now w - lastRpcTime w in
  if elapsed <? cooldown then
    {| storage := storage w;
       now := now w + (cooldown - elapsed);
       lastRpcTime := lastRpcTime w;
       fetched := fetched w |}
  else w.

(** Wrapper that enforces the cooldown around [resolveAddresses]. *)
Definition resolveWithCooldown (addresses : list jsstring) (w : World)
    : World * Completion (gmap jsstring jsstring) :=
  let w := waitForCooldown w in
  let w :=
    {| storage := storage w;
       now := now w;
       lastRpcTime := now w;
       fetched := fetched w |} in
  resolveAddresses addresses w.

(** The RESOLVE branch of the message listener: the [names] object it
    sends back. A rejected promise is answered with the empty object. *)
Definition onResolve (message_addresses : list jsstring) (w : World)
    : World * gmap jsstring jsstring :=
  let addresses := List.filter VALID_ADDR message_addresses in
  match addresses with
  | [] => (w, ∅)
  | _ =>
      match resolveWithCooldown addresses w with
      | (w, Normal nameMap) => (w, nameMap)
      | (w, Throw _) => (w, ∅)
      end
  end.

End Orchestrator.

(** The CLEAR_CACHE branch of the message listener: the keys of
    [chrome.storage.local] that start with [wns_] are removed, and their
    number is the answer. *)
Definition onClearCache (w : World) : World * Z :=
  let items := storage w in
  let wnsKeys :=
    List.filter (fun k => startsWith k (str "wns_"))
      (List.map fst (map_to_list items)) in
  ({| storage := foldr delete items wnsKeys;
      now := now w;
      lastRpcTime := lastRpcTime w;
      fetched := fetched w |},
   Z.of_nat (length wnsKeys)).

End Background.


(** ** chrome/content.js: address extraction and subject selection *)

Module Content.
Import JS.

(** [VALID_ETH_RE]: [/^0x[0-9a-fA-F]{40}$/]. *)
Definition VALID_ETH_RE (a : jsstring) : bool :=
  match a with
  | c0 :: c1 :: body =>
      (c0 =? 48)%N && (c1 =? 120)%N && (length body =? 40)%nat
      && forallb isHexDigit body
  | _ => false
  end.

(** The longest prefix of [s] whose units satisfy [p], and the rest. *)
Fixpoint span (p : N -> bool) (s : jsstring) : jsstring * jsstring :=
  match s with
  | c :: s' =>
      if p c then let '(a, b) := span p s' in (c :: a, b) else ([], s)
  | [] => ([], [])
  end.

(** Whether the unit before (or after) a position is a word character;
    [None] is the edge of the string. *)
Definition wordAt (c : option N) : bool :=
  match c with
  | Some c => isWordChar c
  | None => false
  end.

(** [DEFAULT_ETH_RE], [/\b0x[0-9a-fA-F]{40}\b/g], tried at one position:
    [prev] is the unit before it and [s] the text from it on. *)
Definition fullAddressAt (prev : option N) (s : jsstring) : bool :=
  negb (wordAt prev)
  && startsWith s (str "0x")
  && (let '(hex, rest) := span isHexDigit (drop 2 s) in
      (length hex =? 40)%nat && negb (wordAt (head rest))).

(** All matches of [DEFAULT_ETH_RE] from left to right, as the [exec] loop
    of [allAddressesInHref] finds them: after a match the search resumes
    behind it ([skip] counts the units of the match still to pass). *)
Fixpoint ethScan (prev : option N) (skip : nat) (s : jsstring)
    : list jsstring :=
  match s with
  | [] => []
  | c :: s' =>
      match skip with
      | S k => ethScan (Some c) k s'
      | O =>
          if fullAddressAt prev s
          then take 42 s :: ethScan (Some c) 41 s'
          else ethScan (Some c) 0 s'
      end
  end.

Definition DEFAULT_ETH_RE (text : jsstring) : list jsstring :=
  ethScan None 0 text.

(** The separator class of [DEFAULT_ABBR_RE]: the ellipsis U+2026 and the
    full stop. *)
Definition isAbbrSeparator (c : N) : bool := ((c =? 0x2026) || (c =? 46))%N.

(** [DEFAULT_ABBR_RE],
    [/\b0x([0-9a-fA-F]{4,})[…\.]{2,3}([0-9a-fA-F]{4,})\b/], tried at one
    position. Each quantified class is followed by a unit outside the
    class, so only the longest run of each can lead to a match. *)
Definition abbrAt (prev : option N) (s : jsstring)
    : option (jsstring * jsstring) :=
  if wordAt prev || negb (startsWith s (str "0x")) then None
  else
    let '(g1, r1) := span isHexDigit (drop 2 s) in
    let '(sep, r2) := span isAbbrSeparator r1 in
    let '(g2, r3) := span isHexDigit r2 in
    if (4 <=? length g1)%nat
       && ((length sep =? 2)%nat || (length sep =? 3)%nat)
       && (4 <=? length g2)%nat && negb (wordAt (head r3))
    then Some (g1, g2)
    else None.

(** [exec] of the pattern without the [g] flag: the leftmost match, as
    the pair of its two capture groups. *)
Fixpoint abbrScan (prev : option N) (s : jsstring)
    : option (jsstring * jsstring) :=
  match abbrAt prev s with
  | Some m => Some m
  | None =>
      match s with
      | [] => None
      | c :: s' => abbrScan (Some c) s'
      end
  end.

Definition DEFAULT_ABBR_RE (text : jsstring) : option (jsstring * jsstring) :=
  abbrScan None text.

(** A compiled href rule [{ re, group }]: [re] gives the match array of
    [exec], whose entries are the full match and the capture groups
    ([None] for a group that did not take part). *)
Record HrefRule : Type := mkRule {
  rule_re : jsstring -> option (list (option jsstring));
  rule_group : Z
}.

(** [m?.[group]]: [undefined] without a match and for an index the match
    array does not have. *)
Definition capture (m : option (list (option jsstring))) (group : Z)
    : option jsstring :=
  match m with
  | None => None
  | Some groups =>
      if group <? 0 then None else mjoin (groups !! Z.to_nat group)
  end.

(** The members of a parsed [URL] that the scoring reads. *)
Record URL : Type := mkURL {
  pathname : jsstring;
  searchParams : list (jsstring * jsstring);
  hash : jsstring
}.

(** An anchor as the scan sees it: its resolved [href] and its trimmed
    text content. *)
Record Anchor : Type := mkAnchor {
  anchor_href : jsstring;
  anchor_text : jsstring
}.

(** A value used as a condition: [null], [undefined] and the empty string
    are falsy. *)
Definition truthy (v : option jsstring) : option jsstring :=
  match v with
  | Some [] => None
  | _ => v
  end.

(** [a > b] on scores read from a [Map]: false when one is [undefined]. *)
Definition greater (a b : option Z) : bool :=
  match a, b with
  | Some x, Some y => y <? x
  | _, _ => false
  end.

Section Extraction.

(** What the platform and the configuration provide: the lowering of
    [String.prototype.toLowerCase], the configured patterns [ETH_RE] (all
    its matches, in order) and [ABBR_RE] (its two captures), the configured
    [HREF_RULES], and the [URL] constructor ([None] when it throws). *)
Variable toLowerCase : jsstring -> jsstring.
Variable ETH_RE : jsstring -> list jsstring.
Variable ABBR_RE : jsstring -> option (jsstring * jsstring).
Variable HREF_RULES : list HrefRule.
Variable newURL : jsstring -> option URL.

(** The loop of [matchHrefRules] over the rules still to try. *)
Fixpoint matchRules (rules : list HrefRule) (href : jsstring)
    : option jsstring :=
  match rules with
  | [] => None
  | rule :: rest =>
      let m := rule_re rule href in
      match truthy (capture m (rule_group rule)) with
      | Some captured =>
          if VALID_ETH_RE captured then Some (toLowerCase captured)
          else matchRules rest href
      | None => matchRules rest href
      end
  end.

(** Try each href rule in order; return first validated address or null. *)
Definition matchHrefRules (href : jsstring) : option jsstring :=
  matchRules HREF_RULES href.

(** Return all full Ethereum addresses found in a URL string. *)
Definition allAddressesInHref (href : jsstring) : list jsstring :=
  match href with
  | [] => []
  | _ => List.map toLowerCase (ETH_RE href)
  end.

(** Match abbreviated display text against a list of full addresses:
    the first address whose hex starts with the prefix and ends with the
    suffix, or null. *)
Definition matchAbbrToAddresses (displayText : jsstring)
    (addresses : list jsstring) : option jsstring :=
  match ABBR_RE displayText with
  | None => None
  | Some (m1, m2) =>
      let prefix := toLowerCase m1 in
      let suffix := toLowerCase m2 in
      List.find
        (fun addr =>
           let hex := sliceFrom addr 2 in
           startsWith hex prefix && endsWith hex suffix)
        addresses
  end.

Definition matchAbbrToHref (displayText href : jsstring) : option jsstring :=
  matchAbbrToAddresses displayText (allAddressesInHref href).

(** Path segment signals. *)
Definition pathSignals (url : URL) (addr : jsstring) (score : Z) : Z :=
  let pathLower := toLowerCase (pathname url) in
  match indexOf pathLower addr with
  | Some addrIdx =>
      let before := slice pathLower 0 addrIdx in
      let score :=
        if endsWith before (str "/address/") || endsWith before (str "/holder/")
        then score + 10 else score in
      if endsWith before (str "/token/") || endsWith before (str "/contract/")
      then score - 5 else score
  | None => score
  end.

(** Query param signals. *)
Definition querySignals (url : URL) (addr : jsstring) (score : Z) : Z :=
  fold_left
    (fun score '(key, val) =>
       if negb (streq (toLowerCase val) addr) then score
       else
         let k := toLowerCase key in
         let score :=
           if existsb (streq k) [str "a"; str "holder"; str "address"]
           then score + 10 else score in
         if existsb (streq k) [str "token"; str "contract"]
         then score - 5 else score)
    (searchParams url) score.

(** Hash signals. *)
Definition hashSignals (url : URL) (addr : jsstring) (score : Z) : Z :=
  let hashStr := toLowerCase (hash url) in
  if includes hashStr addr then
    let score :=
      if includes hashStr (str "holder=" ++ addr) then score + 10 else score in
    if includes hashStr (str "address=" ++ addr) then score + 10 else score
  else score.

(** The score one iteration of the scoring loop stores for [addr]. *)
Definition scoreOf (url : URL) (addr : jsstring) : Z :=
  hashSignals url addr (querySignals url addr (pathSignals url addr 0)).

(** The [scores] map after both loops over [addresses]. *)
Definition scoreAll (url : URL) (addresses : list jsstring)
    : gmap jsstring Z :=
  let scores :=
    fold_left (fun (scores : gmap jsstring Z) addr => <[addr := 0]> scores)
      addresses ∅ in
  fold_left
    (fun (scores : gmap jsstring Z) addr => <[addr := scoreOf url addr]> scores)
    addresses scores.

(** Pick the highest-scoring address: the loop keeps the first address
    that reaches the highest score. *)
Definition pickBest (scores : gmap jsstring Z) (first : jsstring)
    (addresses : list jsstring) : jsstring * option Z :=
  fold_left
    (fun '(best, bestScore) addr =>
       let s := scores !! addr in
       if greater s bestScore then (addr, s) else (best, bestScore))
    addresses (first, scores !! first).

(** Tier 2, URL structure scoring: the winner, when there is one. *)
Definition tier2 (href : jsstring) (first : jsstring)
    (addresses : list jsstring) : option jsstring :=
  match newURL href with
  | None => None
  | Some url =>
      let scores := scoreAll url addresses in
      let '(best, bestScore) := pickBest scores first addresses in
      if bool_decide (bestScore = Some 0) then None else Some best
  end.

(** Tier 1, second half: the display text is one of the addresses. *)
Definition exactDisplay (displayText : jsstring) (addresses : list jsstring)
    : option jsstring :=
  let displayLower := toLowerCase displayText in
  if VALID_ETH_RE displayText
  then List.find (fun addr => streq addr displayLower) addresses
  else None.

(** Pick the subject address from a list of addresses found in a URL.
    [None] is [undefined], which only an empty list yields. *)
Definition pickSubjectAddress (href : jsstring) (addresses : list jsstring)
    (displayText : jsstring) : option jsstring :=
  match addresses with
  | [] => None
  | [only] => Some only
  | first :: _ =>
      match truthy (matchAbbrToAddresses displayText addresses) with
      | Some abbrHit => Some abbrHit
      | None =>
          match exactDisplay displayText addresses with
          | Some addr => Some addr
          | None =>
              match tier2 href first addresses with
              | Some best => Some best
              | None => last addresses
              end
          end
      end
  end.

(** The body of the loop of [collectEthereumLinks] for one anchor: the
    [fullAddress] pushed for it, [None] when the anchor is passed over. *)
Definition linkAddress (anchor : Anchor) : option jsstring :=
  let href := anchor_href anchor in
  let custom :=
    match HREF_RULES with
    | [] => None
    | _ => truthy (matchHrefRules href)
    end in
  match custom with
  | Some ruleMatch => Some ruleMatch
  | None =>
      let hrefAddresses := allAddressesInHref href in
      match hrefAddresses with
      | _ :: _ => pickSubjectAddress href hrefAddresses (anchor_text anchor)
      | [] => truthy (matchAbbrToHref (anchor_text anchor) href)
      end
  end.

(** [collectEthereumLinks] over the anchors of a root, none of them
    processed before: the pairs pushed to [results] and the addresses
    added to [addressSet]. *)
Definition collectEthereumLinks (candidates : list Anchor)
    (addressSet : gset jsstring)
    : list (Anchor * jsstring) * gset jsstring :=
  fold_left
    (fun '(results, addressSet) anchor =>
       match linkAddress anchor with
       | Some fullAddress =>
           (results ++ [(anchor, fullAddress)], {[fullAddress]} ∪ addressSet)
       | None => (results, addressSet)
       end)
    candidates ([], addressSet).

End Extraction.

(** A reader for hrefs of the plain shape
    [https://host/path?name=value&...#fragment]: a host of small letters,
    and letters, digits, hyphen and underscore between the delimiters. On
    these the [URL] constructor neither escapes nor normalises anything, so
    its [pathname], [searchParams] and [hash] are the pieces cut here. The
    reader gives up on every other href; the examples, which take it for
    [newURL], use it on plain hrefs only. *)
Definition plainUnit (c : N) : bool :=
  isWordChar c || (c =? 45)%N.

Definition splitAt (d : N) (s : jsstring) : jsstring * option jsstring :=
  let '(a, b) := span (fun c => negb (c =? d)%N) s in
  match b with
  | [] => (a, None)
  | _ :: b' => (a, Some b')
  end.

(** The pieces of [s] between occurrences of [d]. *)
Fixpoint pieces (d : N) (s cur : jsstring) : list jsstring :=
  match s with
  | [] => [rev cur]
  | c :: s' =>
      if (c =? d)%N then rev cur :: pieces d s' [] else pieces d s' (c :: cur)
  end.

Definition plainParams (query : jsstring) : list (jsstring * jsstring) :=
  List.map
    (fun piece =>
       let '(name, value) := splitAt 61 piece in
       (name, default [] value))
    (List.filter (fun piece => negb (streq piece [])) (pieces 38 query [])).

Definition plainURL (href : jsstring) : option URL :=
  if negb (startsWith href (str "https://")) then None
  else
    let '(beforeHash, fragment) := splitAt 35 (drop 8 href) in
    let '(beforeQuery, query) := splitAt 63 beforeHash in
    let '(host, path) := span (fun c => negb (c =? 47)%N) beforeQuery in
    let query := default [] query in
    let fragment := default [] fragment in
    if negb (streq host []) && forallb (fun c => (97 <=? c) && (c <=? 122))%N host
       && forallb (fun c => plainUnit c || (c =? 47)%N) path
       && forallb (fun c => plainUnit c || (c =? 61)%N || (c =? 38)%N) query
       && forallb (fun c => plainUnit c || (c =? 61)%N || (c =? 38)%N) fragment
    then
      Some {| pathname := match path with [] => str "/" | _ => path end;
              searchParams := plainParams query;
              hash := match fragment with [] => [] | _ => 35%N :: fragment end |}
    else None.

(** The walk of [replaceAnchor] over the text nodes of the anchor, in
    document order: the first node whose text is not blank gets the name,
    and the walk stops there. *)
Fixpoint replaceFirstText (nodes : list jsstring) (name : jsstring)
    : list jsstring :=
  match nodes with
  | [] => []
  | node :: rest =>
      match trim node with
      | [] => node :: replaceFirstText rest name
      | _ => name :: rest
      end
  end.

(** [replaceAnchor] on an anchor given by the text of its text nodes,
    whose concatenation is its [textContent]. [None] is a return that
    leaves the anchor as it is; otherwise the text nodes are as given and
    the anchor is marked as done. *)
Definition replaceAnchor (nodes : list jsstring) (fullAddress : jsstring)
    (nameMap : gmap jsstring jsstring) (replaceEns : bool)
    (ignoreSet : gset jsstring) : option (list jsstring) :=
  match truthy (nameMap !! fullAddress) with
  | None => None
  | Some name =>
      let displayText := trim (concat nodes) in
      match displayText with
      | [] => None
      | _ =>
          if bool_decide (displayText ∈ ignoreSet) then None
          else if endsWith displayText (str ".eth") then
            if replaceEns then Some (replaceFirstText nodes name) else None
          else if startsWith displayText (str "0x") then
            Some (replaceFirstText nodes name)
          else None
      end
  end.

End Content.


(** ** The options page: what the save handler stores *)

Module Options.
Import JS.

(** The batch size the save handler stores for the text of its input:
    [Math.max(1, Math.min(500, parseInt(value, 10) || 50))]. A numeral
    beyond the range of a double is read as an infinity by the source and
    as a large integer here; the clamp makes the same of both. *)
Definition saveMaxBatchSize (value : jsstring) : Z :=
  let parsed := parseInt10 value in
  Z.max 1
    (Z.min 500
       (if falsyNum parsed
        then Background.maxBatchSize Background.WNS_DEFAULTS
        else toInteger parsed)).

(** The cooldown the save handler stores:
    [Math.max(0, Math.min(30000, isNaN(raw) ? 2000 : raw))]. *)
Definition saveRpcCooldownMs (value : jsstring) : Z :=
  let rpcCooldownRaw := parseInt10 value in
  Z.max 0
    (Z.min 30000
       (match rpcCooldownRaw with
        | None => Background.rpcCooldownMs Background.WNS_DEFAULTS
        | Some raw => raw
        end)).

End Options.

(** * The statements: what the properties are stated with

    The definitions below are not part of the program. They word the
    properties (the denylist, the text of an ABI word, the fields of a
    result slot, the misses of a cache read) and provide the concrete
    addresses, networks and hrefs of the examples. *)

Section CodecStatements.
Import JS Background.

(** The denylist in the words of the specification. *)
Definition denylisted (c : N) : Prop :=
  (c <= 0x1F \/ (0x7F <= c /\ c <= 0x9F) \/ (0x200B <= c /\ c <= 0x200F)
   \/ (0x202A <= c /\ c <= 0x202E) \/ (0x2060 <= c /\ c <= 0x2069)
   \/ c = 0xFEFF)%N.

#[local] Instance denylisted_dec (c : N) : Decision (denylisted c).
Proof. unfold denylisted. apply _. Defined.

(** What is left of a name once the denylist is removed. *)
Definition remainder (s : jsstring) : jsstring :=
  filter (fun c => ~ denylisted c) s.

(** The text of a 32-byte word as the ABI defines it: [digits] hex digits
    of [v], the most significant first. *)
Fixpoint fixedHex (digits : nat) (v : Z) : jsstring :=
  match digits with
  | O => []
  | S d => fixedHex d (v / 16) ++ [hexChar (v mod 16)]
  end.

Definition abiWord (v : Z) : jsstring := fixedHex 64 v.

(** The six words of one element, after the specification. *)
Definition elementWords (a : jsstring) : jsstring :=
  (repeat zeroChar 24 ++ str "0000000000696760e15f265e828db644a0c242eb")
  ++ abiWord 1 ++ abiWord 0x60 ++ abiWord 0x24
  ++ (str "9af8b7aa" ++ repeat zeroChar 24 ++ toLowerCase (drop 2 a))
  ++ repeat zeroChar 56.

(** The six words [pushElement] appends for one address. *)
Definition pushedWords (wnsTarget addr : jsstring) : list jsstring :=
  let cd := sliceFrom (encodeReverseResolve addr) 2 in
  [pad32 wnsTarget; pad32 (str "1"); pad32 (str "60"); pad32 (str "24");
   slice cd 0 W; padEnd (sliceFrom cd W) W zeroChar].

Definition addrA : jsstring := str "0xAbCdEf0123456789abcdef0123456789abcdef01".
Definition addrB : jsstring := str "0x00000000000000000000000000000000000000ff".

(** The payload without its marker, and the array length it declares. *)
Definition payloadData (hex : jsstring) : jsstring :=
  if startsWith hex (str "0x") then sliceFrom hex 2 else hex.

Definition declaredLength (hex : jsstring) : jsnum :=
  uint (payloadData hex) (Some W).

(** The fields of slot [i] that the decoder reads, in its order. *)
Definition slotBase (data : jsstring) (i : Z) : jsnum :=
  add arrayBase (mul (uint data (add arrayBase (mul (Some i) (Some W)))) (Some 2)).

Definition successFlag (data : jsstring) (i : Z) : jsnum :=
  uint data (slotBase data i).

Definition bytesBase (data : jsstring) (i : Z) : jsnum :=
  add (slotBase data i)
    (mul (uint data (add (slotBase data i) (Some W))) (Some 2)).

Definition returnedLength (data : jsstring) (i : Z) : jsnum :=
  uint data (bytesBase data i).

Definition stringLength (data : jsstring) (i : Z) : jsnum :=
  uint data (add (add (bytesBase data i) (Some W)) (Some W)).

Definition stringBytes (data : jsstring) (i : Z) : list Z :=
  let rdBase := add (bytesBase data i) (Some W) in
  hexToBytes
    (sliceNum data (add rdBase (mul (Some 2) (Some W)))
       (add (add rdBase (mul (Some 2) (Some W)))
          (mul (stringLength data i) (Some 2)))).

(** A payload of two words that declares 2^32 results and holds none. *)
Definition oversized : jsstring :=
  str "0x" ++ repeat zeroChar 64 ++ repeat zeroChar 55 ++ str "100000000".

End CodecStatements.

Section CacheStatements.
Import JS Background.

(** The map a loop of insertions builds: [key a] is set to [val a] for
    every [a] of the list, in order. *)
Definition insertAll {V : Type} (key : jsstring -> jsstring)
    (val : jsstring -> V) (l : list jsstring) (m : gmap jsstring V)
    : gmap jsstring V :=
  fold_left (fun (m : gmap jsstring V) a => <[key a := val a]> m) l m.

(** A fresh entry under the key of [a]: a cache hit. *)
Definition isFresh (cached : gmap jsstring CacheEntry) (now ttl : Z)
    (a : jsstring) : bool :=
  match cached !! cacheKey a with
  | Some entry => now - entry_t entry <? ttl
  | None => false
  end.

(** The misses of a cache read, in the order of the request. *)
Definition misses (cached : gmap jsstring CacheEntry) (now ttl : Z)
    (addresses : list jsstring) : list jsstring :=
  List.filter (fun a => negb (isFresh cached now ttl a)) addresses.

(** Whether [resolveViaRPC] returns for a response: it throws when the
    request is rejected, when the body is not JSON, and when decoding the
    result throws. *)
Definition answers (r : Response) : bool :=
  match r with
  | NetworkFailure => false
  | InvalidJson => false
  | Json result =>
      match truthy result with
      | None => true
      | Some hex =>
          match decodeAggregate3 (Some hex) with
          | Normal _ => true
          | Throw _ => false
          end
      end
  end.

(** The world in which [resolveWithCooldown] calls [resolveAddresses]:
    the cooldown is over and [lastRpcTime] is set. *)
Definition started (stored : Config) (w : World) : World :=
  let w := waitForCooldown stored w in
  {| storage := storage w;
     now := now w;
     lastRpcTime := now w;
     fetched := fetched w |}.

Variable stored : Config.
Variable network : nat -> Response * Z.

(** The world a transport call leaves: the call is logged with the time
    it started and the clock has moved by the time the call took. Nothing
    else changes, whatever the response. *)
Definition afterCall (chunk : list jsstring) (w : World) : World :=
  {| storage := storage w;
     now := now w + snd (network (length (fetched w)));
     lastRpcTime := lastRpcTime w;
     fetched := fetched w ++ [mkCall (now w) chunk (encodeMulticall chunk)] |}.

(** What one invocation takes from the cache: the addresses it still has
    to ask for and the names it already has. *)
Definition cacheTtlMs : Z := cacheTtlMinutes stored * 60 * 1000.

Definition uncachedOf (addresses : list jsstring) (w : World) : list jsstring :=
  if cacheEnabled stored
  then misses (storage w) (now w) cacheTtlMs addresses
  else addresses.

Definition cachedNames (addresses : list jsstring) (w : World)
    : gmap jsstring jsstring :=
  if cacheEnabled stored
  then fst (cacheRead (storage w) (now w) cacheTtlMs addresses)
  else ∅.

End CacheStatements.

Section RunStatements.
Import JS Background.

(** The i-th address of a family of distinct addresses. *)
Definition nthAddress (i : nat) : jsstring := str "0x" ++ fixedHex 40 (Z.of_nat i).

(** A worker that has not called yet; the clock shows 1000 s. *)
Definition world0 : World := mkWorld ∅ 1000000 0 [].

(** A worker whose cache holds a fresh entry without a name. *)
Definition world1 : World :=
  mkWorld {[cacheKey (nthAddress 1) := mkEntry None 999000]} 1000000 0 [].

(** The return data of [aggregate3] for one call that succeeded with the
    name alice.wei. *)
Definition aliceReply : jsstring :=
  str "0x" ++ abiWord 0x20 ++ abiWord 1 ++ abiWord 0x20
  ++ abiWord 1 ++ abiWord 0x40 ++ abiWord 0x60
  ++ abiWord 0x20 ++ abiWord 9 ++ padEnd (str "616c6963652e776569") 64 zeroChar.

(** Networks: every call answered after 10 ms, with an object that has no
    result, with a result that is no hex payload, or the first call with
    alice.wei and the later ones not at all or without a result. *)
Definition quiet : nat -> Response * Z := fun _ => (Json None, 10).

Definition garbled : nat -> Response * Z :=
  fun _ => (Json (Some (str "0xzz")), 10).

Definition flaky : nat -> Response * Z :=
  fun k =>
    match k with
    | O => (Json (Some aliceReply), 10)
    | _ => (NetworkFailure, 10)
    end.

Definition steady : nat -> Response * Z :=
  fun k =>
    match k with
    | O => (Json (Some aliceReply), 10)
    | _ => (Json None, 10)
    end.

(** The default configuration with batches of one address. *)
Definition oneByOne : Config := mkConfig true 60 1 2000.


(** A worker that called half a second ago. *)
Definition recentWorld : World := mkWorld ∅ 1000000 999500 [].

End RunStatements.

Section SelectionStatements.
Import JS Content.

(** [best] is the first of [seen] to reach the highest score of [seen]. *)
Definition firstMaximum (f : jsstring -> Z) (seen : list jsstring)
    (best : jsstring) : Prop :=
  exists i : nat,
    seen !! i = Some best
    /\ (forall b, b ∈ seen -> f b <= f best)
    /\ (forall (j : nat) b, (j < i)%nat -> seen !! j = Some b -> f b < f best).

(** The capture of a rule on an href when it is a full address. *)
Definition validCapture (rule : HrefRule) (href : jsstring) : option jsstring :=
  match truthy (capture (rule_re rule href) (rule_group rule)) with
  | Some c => if VALID_ETH_RE c then Some c else None
  | None => None
  end.

Definition subjectA : jsstring := str "0xaaaaaaaaaaaaaaaaaaaaaaaaaaaaaaaaaaaa0001".
Definition subjectB : jsstring := str "0xbbbbbbbbbbbbbbbbbbbbbbbbbbbbbbbbbbbb0002".

(** An href whose two addresses both score 10, one as [a], one as
    [holder]. *)
Definition tieHref : jsstring :=
  str "https://x/?a=" ++ subjectA ++ str "&holder=" ++ subjectB.

(** The href of the specification's example, and its display text with
    the ellipsis written as three full stops. *)
Definition tokenHref : jsstring :=
  str "https://x/address/" ++ subjectA ++ str "?token=" ++ subjectB.

Definition abbreviatedA : jsstring := str "0xaaaa...0001".

(** The rule of the README's example, [[?&]a=(0x[0-9a-fA-F]{40})] with
    group 1: the match array of its leftmost match. *)
Fixpoint queryRuleExec (s : jsstring) : option (list (option jsstring)) :=
  match s with
  | [] => None
  | c :: s' =>
      if ((c =? 63) || (c =? 38))%N && startsWith s' (str "a=0x")
         && (40 <=? length (fst (span isHexDigit (drop 4 s'))))%nat
      then Some [Some (take 45 s); Some (take 42 (drop 2 s'))]
      else queryRuleExec s'
  end.

Definition queryRule : HrefRule := mkRule queryRuleExec 1.

(** An anchor whose href carries its address as the parameter [a]. *)
Definition queryAnchor : Anchor :=
  mkAnchor (str "https://x/token/" ++ subjectB ++ str "?a=" ++ subjectA)
    (str "holder").

End SelectionStatements.

Section DecodingStatements.
Import JS Background.

(** The text of a byte: two hex digits. *)
Definition byteHex (b : Z) : jsstring := fixedHex 2 b.

(** A Unicode scalar value: a code point that is no surrogate. *)
Definition scalarValue (cp : Z) : Prop :=
  0 <= cp <= 0xD7FF \/ 0xE000 <= cp <= 0x10FFFF.

(** Hex text filled with zeros up to a whole number of words. *)
Definition padWords (hex : jsstring) : jsstring :=
  hex ++ repeat zeroChar ((64 - length hex mod 64) mod 64).

(** The return data of one inner call: the ABI encoding of a string with
    the given bytes. *)
Definition stringData (bytes : list Z) : jsstring :=
  abiWord 0x20 ++ abiWord (Z.of_nat (length bytes))
  ++ padWords (concat (List.map byteHex bytes)).

(** One Result tuple of [aggregate3]: a failed call without return data
    ([None]), or a call that succeeded and returned a string. *)
Definition resultTuple (r : option (list Z)) : jsstring :=
  match r with
  | None => abiWord 0 ++ abiWord 0x40 ++ abiWord 0
  | Some bytes =>
      abiWord 1 ++ abiWord 0x40
      ++ abiWord (Z.of_nat (length (stringData bytes)) / 2)
      ++ stringData bytes
  end.

(** The byte offsets of consecutive tuples, the first at [base]. *)
Fixpoint tupleOffsets (base : Z) (tuples : list jsstring) : list Z :=
  match tuples with
  | [] => []
  | t :: ts => base :: tupleOffsets (base + Z.of_nat (length t) / 2) ts
  end.

(** The payload Multicall3 returns for a list of results. *)
Definition aggregate3Return (results : list (option (list Z))) : jsstring :=
  let tuples := List.map resultTuple results in
  str "0x" ++ abiWord 0x20 ++ abiWord (Z.of_nat (length results))
  ++ concat (List.map abiWord
               (tupleOffsets (32 * Z.of_nat (length results)) tuples))
  ++ concat tuples.

(** The name the worker makes of the bytes a call returned. *)
Definition nameOfBytes (r : option (list Z)) : option jsstring :=
  match r with
  | None => None
  | Some bytes =>
      match textDecode bytes with
      | Normal raw => sanitizeName raw
      | Throw _ => None
      end
  end.

(** A name as [sanitizeName] leaves it. *)
Definition cleanName (v : jsstring) : Prop :=
  Forall (fun c => ~ denylisted c) v /\ (1 <= length v <= 64)%nat.

(** A cache whose names are all sanitized. *)
Definition cleanCache (m : gmap jsstring CacheEntry) : Prop :=
  forall k e v, m !! k = Some e -> entry_n e = Some v -> cleanName v.

(** The UTF-8 encoding of a code point, in its shortest form. *)
Definition utf8Encode (cp : Z) : list Z :=
  if cp <? 0x80 then [cp]
  else if cp <? 0x800 then [0xC0 + cp / 64; 0x80 + cp mod 64]
  else if cp <? 0x10000 then
    [0xE0 + cp / 64 / 64; 0x80 + (cp / 64) mod 64; 0x80 + cp mod 64]
  else
    [0xF0 + cp / 64 / 64 / 64; 0x80 + (cp / 64 / 64) mod 64;
     0x80 + (cp / 64) mod 64; 0x80 + cp mod 64].

(** Byte strings that start badly: with a continuation byte, with a lead
    byte of an overlong two-byte form (C0, C1) or beyond F4, with a lead
    byte that nothing follows, or with a lead byte followed by a byte that
    is no continuation byte or that makes an overlong form (E0 80..9F,
    F0 80..8F), a surrogate (ED A0..BF) or a value above U+10FFFF
    (F4 90..BF). *)
Definition malformedHead (bytes : list Z) : Prop :=
  match bytes with
  | [] => False
  | b :: rest =>
      0x80 <= b <= 0xC1 \/ 0xF5 <= b
      \/ (0xC2 <= b <= 0xF4
          /\ match rest with
             | [] => True
             | b1 :: _ =>
                 b1 < 0x80 \/ 0xBF < b1
                 \/ (b = 0xE0 /\ b1 < 0xA0) \/ (b = 0xED /\ 0x9F < b1)
                 \/ (b = 0xF0 /\ b1 < 0x90) \/ (b = 0xF4 /\ 0x8F < b1)
             end)
  end.

End DecodingStatements.

Section PageStatements.
Import JS Content.

(** An href without a scheme, which the URL constructor refuses. *)
Definition bareHref : jsstring :=
  str "x/?a=" ++ subjectA ++ str "&holder=" ++ subjectB.

End PageStatements.

Section OptionsStatements.
Import JS.

(** The numeral of [v] with [digits] decimal digits, zeros in front. *)
Fixpoint decimal (digits : nat) (v : Z) : jsstring :=
  match digits with
  | O => []
  | S d => decimal d (v / 10) ++ [Z.to_N (48 + v mod 10)]
  end.

End OptionsStatements.

(** * Name sanitization *)

Section Sanitize.
Import JS Background.

Lemma stripped_denylisted (c : N) : stripped c = true <-> denylisted c.
Proof.
  unfold stripped, denylisted.
  rewrite !orb_true_iff, !andb_true_iff, !N.leb_le, N.eqb_eq. tauto.
Qed.

Lemma filter_remainder (s : jsstring) :
  List.filter (fun c => negb (stripped c)) s = remainder s.
Proof.
  unfold remainder. induction s as [|c s IH]; [done|].
  cbn [List.filter]. rewrite IH.
  destruct (stripped c) eqn:E; cbn [negb].
  - rewrite filter_cons_False; [done|]. intros H; apply H. by apply stripped_denylisted.
  - rewrite filter_cons_True; [done|]. rewrite <- stripped_denylisted. congruence.
Qed.

Lemma slice_0 {A} (s : list A) (k : Z) :
  0 <= k -> k <= Z.of_nat (length s) -> slice s 0 k = take (Z.to_nat k) s.
Proof.
  intros H0 Hk. unfold slice, relIndex.
  rewrite (proj2 (Z.ltb_ge 0 0)) by lia.
  rewrite (proj2 (Z.ltb_ge k 0)) by lia.
  rewrite !Z.min_l by lia. rewrite Z.sub_0_r. done.
Qed.

Lemma sanitizeName_remainder (s : jsstring) :
  sanitizeName s =
    if decide (remainder s = []) then None else Some (take 64 (remainder s)).
Proof.
  unfold sanitizeName. rewrite filter_remainder.
  destruct (remainder s) as [|c r] eqn:E; [done|].
  rewrite decide_False by done. f_equal.
  unfold MAX_NAME_LENGTH, len.
  destruct (Z.ltb_spec 64 (Z.of_nat (length (c :: r)))) as [Hlt|Hge].
  - rewrite slice_0 by lia. done.
  - rewrite take_ge; [done|]. lia.
Qed.

(** C3: [sanitizeName] removes the denylisted characters, answers null
    for an empty remainder and otherwise keeps the first 64 characters of
    it; so a name it returns has no denylisted character, at most 64
    characters and at least one. The name ab, U+200B, cd followed by 70
    times e becomes abcd followed by 60 times e. *)
Theorem sanitizeName_strips_and_truncates (s : jsstring) :
  sanitizeName s =
    (if decide (remainder s = []) then None else Some (take 64 (remainder s)))
  /\ (forall r, sanitizeName s = Some r ->
        Forall (fun c => ~ denylisted c) r /\ (length r <= 64)%nat /\ r <> [])
  /\ sanitizeName (str "ab" ++ [0x200B%N] ++ str "cd" ++ repeat 101%N 70)
     = Some (str "abcd" ++ repeat 101%N 60).
Proof.
  split; [apply sanitizeName_remainder|]. split; [|reflexivity].
  intros r. rewrite sanitizeName_remainder.
  destruct (decide (remainder s = [])) as [|Hne]; [done|].
  intros [= <-]. split; [|split].
  - apply Forall_take, Forall_forall. intros c Hc.
    by apply list_elem_of_filter in Hc as [Hc _].
  - rewrite length_take. lia.
  - destruct (remainder s); [done|]. done.
Qed.

End Sanitize.

(** * The layout of the calldata *)

Section Encode.
Import JS Background.

Lemma app_cong {A} (a a' b b' : list A) :
  a = a' -> b = b' -> a ++ b = a' ++ b'.
Proof. by intros -> ->. Qed.

Lemma concat_concat {A} (l : list (list (list A))) :
  concat (concat l) = concat (List.map (@concat A) l).
Proof.
  induction l as [|x l IH]; [done|].
  cbn [concat List.map]. by rewrite concat_app, IH.
Qed.

Lemma fold_left_push {A B} (f : B -> A) (l : list B) (ws : list A) :
  fold_left (fun ws i => ws ++ [f i]) l ws = ws ++ List.map f l.
Proof.
  revert ws. induction l as [|x l IH]; intros ws; cbn.
  - by rewrite app_nil_r.
  - rewrite IH. by rewrite <- app_assoc.
Qed.

Lemma fixedHex_zero (j : nat) : fixedHex j 0 = repeat zeroChar j.
Proof.
  induction j as [|j IH]; [done|].
  cbn [fixedHex]. rewrite Zdiv_0_l, IH.
  change (hexChar (0 mod 16)) with zeroChar.
  by rewrite <- repeat_cons.
Qed.

Lemma fixedHex_pad (k j : nat) (v : Z) :
  0 <= v < 16 ^ Z.of_nat k ->
  fixedHex (j + k) v = repeat zeroChar j ++ fixedHex k v.
Proof.
  revert v. induction k as [|k IH]; intros v Hv.
  - assert (v = 0) as -> by (cbn in Hv; lia).
    rewrite Nat.add_0_r, app_nil_r. apply fixedHex_zero.
  - rewrite Nat.add_succ_r. cbn [fixedHex].
    rewrite IH, app_assoc; [done|].
    rewrite Nat2Z.inj_succ, Z.pow_succ_r in Hv by lia.
    split; [apply Z.div_pos; lia|]. apply Z.div_lt_upper_bound; lia.
Qed.

Lemma hexDigits_fixed (fuel : nat) (v : Z) (acc : jsstring) :
  0 <= v < 16 ^ Z.of_nat (S fuel) ->
  exists k, v < 16 ^ Z.of_nat (S k) /\ (k = O \/ 16 ^ Z.of_nat k <= v)
            /\ hexDigits (S fuel) v acc = fixedHex (S k) v ++ acc.
Proof.
  revert v acc. induction fuel as [|fuel IH]; intros v acc Hv.
  - exists O. split; [lia|]. split; [by left|].
    cbn [hexDigits]. replace (v / 16) with 0.
    + done.
    + symmetry. apply Z.div_small. cbn in Hv. lia.
  - cbn [hexDigits]. destruct (Z.eqb_spec (v / 16) 0) as [E|E].
    + exists O. split; [|split; [by left|done]].
      assert (v < 16); [|cbn; lia].
      destruct (Z.lt_ge_cases v 16) as [|Hge]; [done|].
      assert (1 <= v / 16) by (apply Z.div_le_lower_bound; lia). lia.
    + destruct (IH (v / 16) (hexChar (v mod 16) :: acc)) as (k & Hlt & Hmin & Heq).
      { rewrite (Nat2Z.inj_succ (S fuel)), Z.pow_succ_r in Hv by lia.
        split; [apply Z.div_pos; lia|]. apply Z.div_lt_upper_bound; lia. }
      pose proof (Z.mod_pos_bound v 16 ltac:(lia)).
      pose proof (Z.div_mod v 16 ltac:(lia)).
      assert (16 ^ Z.of_nat k <= v / 16) as Hlow.
      { destruct Hmin as [->|Hmin]; [|done].
        assert (0 <= v / 16) by (apply Z.div_pos; lia). cbn. lia. }
      exists (S k). split; [|split].
      * rewrite Nat2Z.inj_succ, Z.pow_succ_r by lia. lia.
      * right. rewrite Nat2Z.inj_succ, Z.pow_succ_r by lia. lia.
      * change (hexDigits (S fuel) (v / 16) (hexChar (v mod 16) :: acc)
                = fixedHex (S (S k)) v ++ acc).
        rewrite Heq. cbn [fixedHex]. by rewrite <- !app_assoc.
Qed.

Lemma length_fixedHex (k : nat) (v : Z) : length (fixedHex k v) = k.
Proof.
  revert v. induction k as [|k IH]; intros v; [done|].
  cbn [fixedHex]. rewrite length_app, IH. cbn. lia.
Qed.

(** [pad32] of [toString(16)] is the ABI word of the number. *)
Lemma pad32_toString16 (v : Z) :
  0 <= v < 16 ^ 64 -> pad32 (toString16 v) = abiWord v.
Proof.
  intros Hv. unfold toString16.
  rewrite (proj2 (Z.ltb_ge v 0)) by lia.
  destruct (hexDigits_fixed (Z.to_nat (Z.log2 v)) v []) as (k & Hlt & Hmin & Heq).
  { split; [lia|]. rewrite Nat2Z.inj_succ, Z2Nat.id by apply Z.log2_nonneg.
    destruct (Z.eq_dec v 0) as [->|Hnz]; [done|].
    pose proof (Z.log2_spec v ltac:(lia)) as [_ Hup].
    eapply Z.lt_le_trans; [exact Hup|].
    change 16 with (2 ^ 4). rewrite <- Z.pow_mul_r by (pose proof (Z.log2_nonneg v); lia).
    apply Z.pow_le_mono_r; pose proof (Z.log2_nonneg v); lia. }
  rewrite Heq, app_nil_r.
  assert (S k <= 64)%nat as Hk64.
  { destruct Hmin as [->|Hmin]; [lia|].
    destruct (Nat.le_gt_cases (S k) 64) as [|Hgt]; [done|]. exfalso.
    assert (16 ^ 64 <= 16 ^ Z.of_nat k) by (apply Z.pow_le_mono_r; lia). lia. }
  unfold pad32, padStart, abiWord, len, W. rewrite length_fixedHex.
  transitivity (fixedHex ((64 - S k) + S k) v); [|f_equal; lia].
  rewrite fixedHex_pad by lia. f_equal. f_equal. lia.
Qed.

Lemma fold_left_pushElement (t : jsstring) (l : list jsstring)
    (ws : list jsstring) :
  fold_left (pushElement t) l ws = ws ++ concat (List.map (pushedWords t) l).
Proof.
  revert ws. induction l as [|a l IH]; intros ws; cbn [fold_left List.map concat].
  - by rewrite app_nil_r.
  - rewrite IH. unfold pushElement. fold (pushedWords t a). by rewrite <- app_assoc.
Qed.

Lemma VALID_ADDR_shape (a : jsstring) :
  VALID_ADDR a = true ->
  exists body, a = 48%N :: 120%N :: body /\ length body = 40%nat.
Proof.
  destruct a as [|c0 [|c1 body]]; [done..|]. cbn [VALID_ADDR].
  rewrite !andb_true_iff, !N.eqb_eq, Nat.eqb_eq.
  intros [[[-> ->] Hlen] _]. by exists body.
Qed.

Lemma pushedWords_element (a : jsstring) :
  VALID_ADDR a = true ->
  concat (pushedWords (replace (toLowerCase WNS_CONTRACT) (str "0x") []) a)
  = elementWords a.
Proof.
  intros (body & -> & Hlen)%VALID_ADDR_shape.
  do 40 (destruct body as [|? body]; [discriminate Hlen|]).
  destruct body; [|discriminate Hlen].
  reflexivity.
Qed.

(** C1: for a non-empty list of N valid addresses, [encodeMulticall]
    returns the outer selector followed by the word 0x20, the word N, the
    N offset words 32*N + 192*i, and for each address the six-word tuple:
    the WNS contract left-padded, 1, 0x60, 0x24, and the 36 bytes of inner
    calldata (inner selector, then the address lowercased without its
    marker and left-padded) filled with zeros to two words. The length of
    a JavaScript array is below 2^32. *)
Theorem encodeMulticall_layout (addresses : list jsstring) :
  addresses <> [] ->
  Forall (fun a => VALID_ADDR a = true) addresses ->
  Z.of_nat (length addresses) < 2 ^ 32 ->
  encodeMulticall addresses =
    AGGREGATE3_SELECTOR
    ++ abiWord 0x20
    ++ abiWord (Z.of_nat (length addresses))
    ++ concat (List.map
                 (fun i : nat =>
                    abiWord (32 * Z.of_nat (length addresses) + 192 * Z.of_nat i))
                 (seq 0 (length addresses)))
    ++ concat (List.map elementWords addresses).
Proof.
  intros _ Hvalid Hlen. unfold encodeMulticall.
  rewrite fold_left_pushElement, fold_left_push.
  rewrite !concat_app. cbn [concat]. rewrite app_nil_r, <- !app_assoc.
  f_equal. apply app_cong; [reflexivity|].
  apply app_cong; [apply pad32_toString16; lia|].
  apply app_cong.
  - f_equal. rewrite List.map_map. apply List.map_ext_in.
    intros i [_ Hi]%in_seq. cbn [Nat.add] in Hi.
    rewrite pad32_toString16 by lia. f_equal. lia.
  - rewrite concat_concat, List.map_map. f_equal.
    apply List.map_ext_in. intros a Ha.
    apply pushedWords_element.
    rewrite Forall_forall in Hvalid. apply Hvalid. by apply list_elem_of_In.
Qed.

Lemma encodeMulticall_layout_witness :
  encodeMulticall [addrA; addrB] =
    AGGREGATE3_SELECTOR ++ abiWord 0x20 ++ abiWord 2
    ++ concat [abiWord 64; abiWord 256]
    ++ concat [elementWords addrA; elementWords addrB].
Proof.
  apply (encodeMulticall_layout [addrA; addrB]).
  - discriminate.
  - repeat constructor.
  - reflexivity.
Defined.

End Encode.

(** * Decoding *)

Section Decode.
Import JS Background.

Lemma decodeLoop_normal (data : jsstring) (count : nat) (i : Z)
    (names : list (option jsstring)) :
  Z.of_nat (length names) + Z.of_nat count <= MAX_ARRAY_LENGTH ->
  decodeLoop data count i names =
    Normal (names
            ++ List.map (fun k => decodeSlot data (i + Z.of_nat k)) (seq 0 count)).
Proof.
  revert i names. induction count as [|count IH]; intros i names Hlen.
  - cbn. by rewrite app_nil_r.
  - cbn [decodeLoop]. unfold push.
    rewrite (proj2 (Z.ltb_lt _ _)) by lia.
    rewrite IH by (rewrite length_app; cbn [length]; lia).
    rewrite <- app_assoc. cbn [seq List.map app]. do 3 f_equal.
    + f_equal. lia.
    + rewrite <- seq_shift, List.map_map. apply List.map_ext. intros k. f_equal. lia.
Qed.

Lemma decodeLoop_overflow (data : jsstring) (count : nat) (i : Z)
    (names : list (option jsstring)) :
  Z.of_nat (length names) <= MAX_ARRAY_LENGTH ->
  MAX_ARRAY_LENGTH < Z.of_nat (length names) + Z.of_nat count ->
  decodeLoop data count i names = Throw RangeError.
Proof.
  revert i names. induction count as [|count IH]; intros i names Hlen Hover.
  - lia.
  - cbn [decodeLoop]. unfold push.
    destruct (Z.ltb_spec (Z.of_nat (length names)) MAX_ARRAY_LENGTH) as [Hlt|Hge]; [|done].
    apply IH; rewrite length_app; cbn [length]; lia.
Qed.

Lemma decodeAggregate3_loop (hex : jsstring) (n : Z) :
  hex <> [] -> hex <> str "0x" ->
  declaredLength hex = Some n -> n <> 0 ->
  decodeAggregate3 (Some hex) = decodeLoop (payloadData hex) (Z.to_nat n) 0 [].
Proof.
  intros H1 H2 Hn Hnz. unfold decodeAggregate3, streq.
  rewrite !bool_decide_eq_false_2 by done. cbn [orb].
  fold (payloadData hex). fold (declaredLength hex). rewrite Hn.
  cbn [falsyNum toInteger]. by rewrite (proj2 (Z.eqb_neq n 0)).
Qed.

(** C2, the input on which the code leaves the claim: the loop of
    [decodeAggregate3] trusts the declared length, pushes one null per
    declared slot and throws when the array is full. *)
Theorem decodeAggregate3_oversized_throws :
  decodeAggregate3 (Some oversized) = Throw RangeError.
Proof.
  assert (declaredLength oversized = Some 4294967296) as Hn by (vm_compute; reflexivity).
  rewrite (decodeAggregate3_loop oversized 4294967296 ltac:(discriminate)
             ltac:(discriminate) Hn ltac:(discriminate)).
  apply decodeLoop_overflow; cbn [length].
  - unfold MAX_ARRAY_LENGTH. lia.
  - unfold MAX_ARRAY_LENGTH. lia.
Qed.

Lemma decodeSlot_fields (data : jsstring) (i : Z) :
  decodeSlot data i =
    match successFlag data i with
    | Some 1 =>
        if falsyNum (returnedLength data i) then None
        else if falsyNum (stringLength data i) then None
        else match textDecode (stringBytes data i) with
             | Normal raw => sanitizeName raw
             | Throw _ => None
             end
    | _ => None
    end.
Proof.
  unfold decodeSlot, stringBytes, stringLength, returnedLength, bytesBase,
    successFlag, slotBase.
  cbv zeta.
  set (flag := uint data (add arrayBase (mul (uint data _) (Some 2)))).
  destruct flag as [[|[| |]|]|]; cbn [negb]; reflexivity.
Qed.

Lemma decodeAggregate3_empty : decodeAggregate3 (Some []) = Normal [].
Proof.
  unfold decodeAggregate3, streq. by rewrite bool_decide_eq_true_2.
Qed.

Lemma decodeAggregate3_marker : decodeAggregate3 (Some (str "0x")) = Normal [].
Proof.
  unfold decodeAggregate3, streq.
  rewrite (bool_decide_eq_true_2 (str "0x" = str "0x")) by done.
  by rewrite orb_true_r.
Qed.

(** What the decoder does on every payload whose declared length an
    array can hold: no exception, the empty list for a missing, empty or
    unreadable payload, and otherwise one entry per declared slot, each
    decided by its own slot alone; a slot is null when its flag is not 1,
    when a length it declares is zero or unreadable, or when its bytes are
    not UTF-8. *)
Theorem decodeAggregate3_within_array_bound :
  decodeAggregate3 None = Normal []
  /\ decodeAggregate3 (Some []) = Normal []
  /\ decodeAggregate3 (Some (str "0x")) = Normal []
  /\ (forall hex, declaredLength hex = None ->
        decodeAggregate3 (Some hex) = Normal [])
  /\ (forall hex n, declaredLength hex = Some n -> n <= MAX_ARRAY_LENGTH ->
        exists names,
          decodeAggregate3 (Some hex) = Normal names
          /\ (hex <> [] -> hex <> str "0x" ->
              Z.of_nat (length names) = Z.max n 0
              /\ forall k : nat, (k < length names)%nat ->
                   names !! k = Some (decodeSlot (payloadData hex) (Z.of_nat k))))
  /\ (forall data i,
        (successFlag data i <> Some 1
         \/ falsyNum (returnedLength data i) = true
         \/ falsyNum (stringLength data i) = true
         \/ (exists e, textDecode (stringBytes data i) = Throw e)) ->
        decodeSlot data i = None).
Proof.
  split; [reflexivity|]. split; [apply decodeAggregate3_empty|].
  split; [apply decodeAggregate3_marker|].
  split; [|split].
  - intros hex Hn. unfold decodeAggregate3.
    destruct (streq hex [] || streq hex (str "0x")); [done|].
    fold (payloadData hex). fold (declaredLength hex). by rewrite Hn.
  - intros hex n Hn Hmax.
    destruct (decide (hex = [])) as [->|H1].
    { exists []. split; [apply decodeAggregate3_empty|]. intros H; by destruct H. }
    destruct (decide (hex = str "0x")) as [->|H2].
    { exists []. split; [apply decodeAggregate3_marker|]. intros _ H; by destruct H. }
    destruct (decide (n = 0)) as [->|Hnz].
    + exists []. split; [|intros _ _; split; [reflexivity|intros k Hk; cbn in Hk; lia]].
      unfold decodeAggregate3, streq.
      rewrite !bool_decide_eq_false_2 by done. cbn [orb].
      fold (payloadData hex). fold (declaredLength hex). by rewrite Hn.
    + rewrite (decodeAggregate3_loop hex n H1 H2 Hn Hnz).
      rewrite decodeLoop_normal by (cbn [length]; unfold MAX_ARRAY_LENGTH in *; lia).
      eexists. split; [reflexivity|]. intros _ _. cbn [app].
      rewrite length_map, length_seq. split; [lia|].
      intros k Hk.
      rewrite list_lookup_fmap, lookup_seq_lt by done. reflexivity.
  - intros data i H. rewrite decodeSlot_fields.
    destruct (successFlag data i) as [[|[| |]|]|]; try reflexivity.
    destruct H as [H|[->|[->|[e ->]]]]; try done.
    + by destruct (falsyNum (returnedLength data i)).
    + by destruct (falsyNum (returnedLength data i)), (falsyNum (stringLength data i)).
Qed.

End Decode.

(** * Maps built by a loop of insertions *)

Section FoldInsert.
Context {V : Type} (key : jsstring -> jsstring) (val : jsstring -> V).

Lemma insertAll_notin (l : list jsstring) (m : gmap jsstring V) (k : jsstring) :
  (forall a, a ∈ l -> key a <> k) -> insertAll key val l m !! k = m !! k.
Proof.
  revert m. induction l as [|a l IH]; intros m Hno; [done|].
  unfold insertAll; cbn [fold_left]. fold (insertAll key val l (<[key a := val a]> m)).
  rewrite IH by (intros b Hb; apply Hno; by right).
  apply lookup_insert_ne, Hno. by left.
Qed.

Lemma insertAll_some (l : list jsstring) (m : gmap jsstring V) (k : jsstring)
    (v : V) :
  insertAll key val l m !! k = Some v ->
  (exists a, a ∈ l /\ key a = k /\ v = val a) \/ m !! k = Some v.
Proof.
  revert m. induction l as [|a l IH]; intros m H; [by right|].
  unfold insertAll; cbn [fold_left] in H. fold (insertAll key val l (<[key a := val a]> m)) in H.
  destruct (IH _ H) as [(b & Hb & Hk & Hv)|Hm].
  - left. exists b. split; [by right|done].
  - destruct (decide (key a = k)) as [E|E].
    + rewrite E, lookup_insert_eq in Hm. injection Hm as <-.
      left. exists a. split; [by left|done].
    + rewrite lookup_insert_ne in Hm by done. by right.
Qed.

Lemma insertAll_keep (l : list jsstring) (m : gmap jsstring V) (a : jsstring) :
  a ∈ l \/ m !! key a = Some (val a) ->
  (forall b, b ∈ l -> key b = key a -> val b = val a) ->
  insertAll key val l m !! key a = Some (val a).
Proof.
  revert m. induction l as [|b l IH]; intros m Ha Hsame.
  - destruct Ha as [Ha|Ha]; [by apply elem_of_nil in Ha|done].
  - unfold insertAll; cbn [fold_left]. fold (insertAll key val l (<[key b := val b]> m)).
    apply IH; [|intros c Hc; apply Hsame; by right].
    destruct (decide (key b = key a)) as [E|E].
    + right. rewrite E, lookup_insert_eq. f_equal. apply Hsame; [by left|done].
    + destruct Ha as [[->|Ha]%elem_of_cons|Ha]; [done|by left|].
      right. by rewrite lookup_insert_ne.
Qed.

Lemma insertAll_in (l : list jsstring) (m : gmap jsstring V) (a : jsstring) :
  a ∈ l ->
  (forall b, b ∈ l -> key b = key a -> val b = val a) ->
  insertAll key val l m !! key a = Some (val a).
Proof. intros Ha. apply insertAll_keep. by left. Qed.

End FoldInsert.

(** * The cache and the batches *)

Section Orchestrate.
Import JS Background.

Variable stored : Config.
Variable network : nat -> Response * Z.

Lemma cacheKey_inj (a b : jsstring) :
  cacheKey a = cacheKey b <-> toLowerCase a = toLowerCase b.
Proof.
  unfold cacheKey. split; [apply app_inv_head|by intros ->].
Qed.

Lemma cacheRead_fold (cached : gmap jsstring CacheEntry) (now ttl : Z)
    (l : list jsstring) (res0 : gmap jsstring jsstring) (unc0 : list jsstring) :
  let step := fun '(results, uncached) addr =>
       match cached !! cacheKey addr with
       | Some entry =>
           if now - entry_t entry <? ttl then
             match truthy (entry_n entry) with
             | Some name => (<[toLowerCase addr := name]> results, uncached)
             | None => (results, uncached)
             end
           else (results, uncached ++ [addr])
       | None => (results, uncached ++ [addr])
       end in
  let out := fold_left step l (res0, unc0) in
  snd out = unc0 ++ List.filter (fun a => negb (isFresh cached now ttl a)) l
  /\ forall k v, fst out !! k = Some v ->
       res0 !! k = Some v
       \/ exists a entry, a ∈ l /\ k = toLowerCase a
            /\ cached !! cacheKey a = Some entry
            /\ now - entry_t entry < ttl
            /\ truthy (entry_n entry) = Some v.
Proof.
  intros step. revert res0 unc0.
  induction l as [|a l IH]; intros res0 unc0; cbn [fold_left List.filter].
  - split; [by rewrite app_nil_r|]. intros k v H. by left.
  - unfold isFresh at 1.
    destruct (cached !! cacheKey a) as [entry|] eqn:Hc; cbn [step].
    + rewrite Hc. destruct (Z.ltb_spec (now - entry_t entry) ttl) as [Hf|Hs]; cbn [negb].
      * destruct (truthy (entry_n entry)) as [name|] eqn:Hn.
        -- destruct (IH (<[toLowerCase a := name]> res0) unc0) as [Hu Hr].
           split; [exact Hu|]. intros k v H.
           destruct (Hr k v H) as [Hin|(b & e & Hb & ? & ? & ? & ?)].
           ++ destruct (decide (toLowerCase a = k)) as [<-|Hk].
              ** rewrite lookup_insert_eq in Hin. injection Hin as <-.
                 right. exists a, entry. split; [by left|done].
              ** rewrite lookup_insert_ne in Hin by done. by left.
           ++ right. exists b, e. split; [by right|done].
        -- destruct (IH res0 unc0) as [Hu Hr]. split; [exact Hu|].
           intros k v H. destruct (Hr k v H) as [Hin|(b & e & Hb & ?)]; [by left|].
           right. exists b, e. split; [by right|done].
      * destruct (IH res0 (unc0 ++ [a])) as [Hu Hr]. split.
        -- rewrite Hu, <- app_assoc. done.
        -- intros k v H. destruct (Hr k v H) as [Hin|(b & e & Hb & ?)]; [by left|].
           right. exists b, e. split; [by right|done].
    + rewrite Hc. cbn [negb].
      destruct (IH res0 (unc0 ++ [a])) as [Hu Hr]. split.
      * rewrite Hu, <- app_assoc. done.
      * intros k v H. destruct (Hr k v H) as [Hin|(b & e & Hb & ?)]; [by left|].
        right. exists b, e. split; [by right|done].
Qed.

Lemma cacheRead_uncached (cached : gmap jsstring CacheEntry) (now ttl : Z)
    (addresses : list jsstring) :
  snd (cacheRead cached now ttl addresses) = misses cached now ttl addresses.
Proof.
  unfold cacheRead.
  destruct (cacheRead_fold cached now ttl addresses ∅ []) as [H _]. exact H.
Qed.

Lemma cacheRead_results (cached : gmap jsstring CacheEntry) (now ttl : Z)
    (addresses : list jsstring) (k v : jsstring) :
  fst (cacheRead cached now ttl addresses) !! k = Some v ->
  exists a entry, a ∈ addresses /\ k = toLowerCase a
    /\ cached !! cacheKey a = Some entry
    /\ now - entry_t entry < ttl
    /\ truthy (entry_n entry) = Some v.
Proof.
  unfold cacheRead. intros H.
  destruct (cacheRead_fold cached now ttl addresses ∅ []) as [_ Hr].
  destruct (Hr k v H) as [Hin|Hex]; [|done].
  by rewrite lookup_empty in Hin.
Qed.

Lemma slice_take_drop {A} (u : list A) (i m : Z) :
  0 <= i -> i <= Z.of_nat (length u) -> 0 <= m ->
  slice u i (i + m)
  = take (Z.to_nat (Z.min (i + m) (Z.of_nat (length u)) - i)) (drop (Z.to_nat i) u).
Proof.
  intros Hi Hlen Hm. unfold slice, relIndex.
  rewrite (proj2 (Z.ltb_ge i 0)) by lia.
  rewrite (proj2 (Z.ltb_ge (i + m) 0)) by lia.
  by rewrite (Z.min_l i) by lia.
Qed.

Lemma chunkLoop_spec (u : list jsstring) (m : Z) (fuel : nat) (i : Z)
    (acc : list (list jsstring)) :
  1 <= m -> 0 <= i -> Z.of_nat (length u) - i <= Z.of_nat fuel ->
  exists cs,
    chunkLoop fuel u m i acc = Normal (acc ++ cs)
    /\ concat cs = drop (Z.to_nat i) u
    /\ Forall (fun c => 1 <= Z.of_nat (length c) <= m) cs
    /\ Z.of_nat (length cs) = (Z.max (Z.of_nat (length u) - i) 0 + m - 1) / m.
Proof.
  intros Hm. revert i acc.
  induction fuel as [|fuel IH]; intros i acc Hi Hfuel.
  - exists []. cbn [chunkLoop].
    rewrite (proj2 (Z.ltb_ge i _)) by lia. rewrite app_nil_r.
    split; [done|]. split; [by rewrite drop_ge by lia|]. split; [done|].
    rewrite Z.max_r by lia. cbn [length]. symmetry. apply Z.div_small. lia.
  - cbn [chunkLoop]. destruct (Z.ltb_spec i (Z.of_nat (length u))) as [Hlt|Hge].
    + destruct (IH (i + m) (acc ++ [slice u i (i + m)])) as (cs & Heq & Hcat & Hall & Hcnt);
        [lia|lia|].
      exists (slice u i (i + m) :: cs).
      rewrite Heq, <- app_assoc. split; [done|].
      rewrite slice_take_drop in * by lia.
      set (k := Z.to_nat (Z.min (i + m) (Z.of_nat (length u)) - i)).
      assert (length (take k (drop (Z.to_nat i) u)) = k) as Hk.
      { rewrite length_take, length_drop. lia. }
      split; [|split].
      * cbn [concat]. rewrite Hcat.
        destruct (Z.le_gt_cases (i + m) (Z.of_nat (length u))) as [Hle|Hgt].
        -- replace (Z.to_nat (i + m)) with (Z.to_nat i + k)%nat by lia.
           rewrite <- drop_drop. apply take_drop.
        -- rewrite (drop_ge u (Z.to_nat (i + m))) by lia.
           rewrite app_nil_r. apply take_ge. rewrite length_drop. lia.
      * constructor; [|done]. rewrite Hk. lia.
      * cbn [length]. rewrite Nat2Z.inj_succ, Hcnt.
        destruct (Z.le_gt_cases (i + m) (Z.of_nat (length u))) as [Hle|Hgt].
        -- rewrite !Z.max_l by lia.
           replace (Z.of_nat (length u) - i + m - 1)
             with (Z.of_nat (length u) - (i + m) + m - 1 + 1 * m) by lia.
           rewrite Z.div_add by lia. lia.
        -- rewrite Z.max_r, Z.max_l by lia.
           rewrite (Z.div_small (0 + m - 1)) by lia.
           transitivity 1; [lia|].
           apply (Z.div_unique_pos _ m 1 (Z.of_nat (length u) - i - 1)); lia.
    + exists []. rewrite app_nil_r.
      split; [done|]. split; [by rewrite drop_ge by lia|]. split; [done|].
      rewrite Z.max_r by lia. cbn [length]. symmetry. apply Z.div_small. lia.
Qed.

(** Whatever [maxBatch] is, a chunk holds addresses of [uncached] only. *)
Lemma chunkLoop_elem (u : list jsstring) (m : Z) (fuel : nat) (i : Z)
    (acc cs : list (list jsstring)) :
  chunkLoop fuel u m i acc = Normal cs ->
  forall c, c ∈ cs -> c ∈ acc \/ forall a, a ∈ c -> a ∈ u.
Proof.
  revert i acc. induction fuel as [|fuel IH]; intros i acc; cbn [chunkLoop].
  - destruct (i <? _); [done|]. intros [= <-] c Hc. by left.
  - destruct (i <? _); [|intros [= <-] c Hc; by left].
    intros H c Hc. destruct (IH _ _ H c Hc) as [[Hin|Hin]%elem_of_app|Hin].
    + by left.
    + right. apply list_elem_of_singleton in Hin as ->.
      intros a Ha. unfold slice in Ha.
      apply elem_of_take in Ha as (j & Ha & _).
      rewrite lookup_drop in Ha. by eapply list_elem_of_lookup_2.
    + by right.
Qed.

Lemma resolveViaRPC_world (chunk : list jsstring) (w : World) :
  fst (resolveViaRPC network chunk w) = afterCall network chunk w.
Proof.
  unfold resolveViaRPC, afterCall.
  destruct (network (length (fetched w))) as [res latency]. cbn [snd].
  destruct res as [| |result]; [reflexivity..|].
  destruct (truthy result) as [hex|]; [|reflexivity].
  destruct (decodeAggregate3 (Some hex)); reflexivity.
Qed.

Lemma collectNames_fold (addresses : list jsstring)
    (names : list (option jsstring)) (k v : jsstring) (l : list nat)
    (m0 : gmap jsstring jsstring) :
  fold_left
    (fun (results : gmap jsstring jsstring) (i : nat) =>
       match addresses !! i, truthy (mjoin (names !! i)) with
       | Some a, Some name => <[toLowerCase a := name]> results
       | _, _ => results
       end) l m0 !! k = Some v ->
  m0 !! k = Some v
  \/ exists (i : nat) a, addresses !! i = Some a /\ k = toLowerCase a
                         /\ truthy (mjoin (names !! i)) = Some v.
Proof.
  revert m0. induction l as [|i l IH]; intros m0 H; [by left|].
  cbn [fold_left] in H. apply IH in H as [H|H]; [|by right].
  destruct (addresses !! i) as [a|] eqn:Ha; [|by left].
  destruct (truthy (mjoin (names !! i))) as [name|] eqn:Hn; [|by left].
  destruct (decide (toLowerCase a = k)) as [<-|Hk].
  - rewrite lookup_insert_eq in H. injection H as <-. right. by exists i, a.
  - rewrite lookup_insert_ne in H by done. by left.
Qed.

Lemma collectNames_keys (addresses : list jsstring)
    (names : list (option jsstring)) (k v : jsstring) :
  collectNames addresses names !! k = Some v ->
  exists (i : nat) a, addresses !! i = Some a /\ k = toLowerCase a
                      /\ truthy (mjoin (names !! i)) = Some v.
Proof.
  unfold collectNames. intros H.
  apply collectNames_fold in H as [H|H]; [|done]. by rewrite lookup_empty in H.
Qed.

Lemma resolveViaRPC_keys (chunk : list jsstring) (w w' : World)
    (fresh : gmap jsstring jsstring) (k v : jsstring) :
  resolveViaRPC network chunk w = (w', Normal fresh) ->
  fresh !! k = Some v -> exists a, a ∈ chunk /\ k = toLowerCase a.
Proof.
  unfold resolveViaRPC.
  destruct (network (length (fetched w))) as [res latency].
  destruct res as [| |result]; [done..|].
  destruct (truthy result) as [hex|].
  - destruct (decodeAggregate3 (Some hex)) as [names|]; [|done].
    intros [= _ <-] (i & a & Ha & -> & _)%collectNames_keys.
    exists a. split; [by eapply list_elem_of_lookup_2|done].
  - intros [= _ <-]. by rewrite lookup_empty.
Qed.

Lemma chunksLoop_calls (cacheOn : bool) (chunks : list (list jsstring))
    (results : gmap jsstring jsstring) (w w' : World)
    (r : Completion (gmap jsstring jsstring)) :
  chunksLoop network cacheOn chunks results w = (w', r) ->
  exists j : nat,
    List.map call_addresses (fetched w')
      = List.map call_addresses (fetched w) ++ take j chunks
    /\ (j <= length chunks)%nat
    /\ (forall res, r = Normal res -> j = length chunks)
    /\ lastRpcTime w' = lastRpcTime w.
Proof.
  revert results w. induction chunks as [|chunk rest IH]; intros results w.
  - cbn [chunksLoop]. intros [= <- <-]. exists O.
    rewrite take_0, app_nil_r. by repeat split.
  - cbn [chunksLoop].
    pose proof (resolveViaRPC_world chunk w) as Hw.
    destruct (resolveViaRPC network chunk w) as [w1 [fresh|e]].
    + cbn [fst] in Hw. subst w1. intros H.
      apply IH in H as (j & Hcalls & Hj & Hall & Hlast). exists (S j).
      split; [|split; [|split]].
      * rewrite Hcalls. destruct cacheOn; cbn [storageSet fetched afterCall];
          rewrite List.map_app, <- app_assoc; reflexivity.
      * cbn [length]. lia.
      * intros res Hr. cbn [length]. f_equal. by eapply Hall.
      * rewrite Hlast. by destruct cacheOn.
    + cbn [fst] in Hw. subst w1. intros [= <- <-]. exists 1%nat.
      split; [|split; [|split]].
      * cbn [afterCall fetched]. rewrite List.map_app. cbn [take]. by rewrite take_0.
      * cbn [length]. lia.
      * done.
      * done.
Qed.

Lemma chunksLoop_results (cacheOn : bool) (chunks : list (list jsstring))
    (results res : gmap jsstring jsstring) (w w' : World) (k v : jsstring) :
  chunksLoop network cacheOn chunks results w = (w', Normal res) ->
  res !! k = Some v ->
  results !! k = Some v
  \/ exists c a, c ∈ chunks /\ a ∈ c /\ k = toLowerCase a.
Proof.
  revert results w. induction chunks as [|chunk rest IH]; intros results w.
  - cbn [chunksLoop]. intros [= <- <-] H. by left.
  - cbn [chunksLoop].
    destruct (resolveViaRPC network chunk w) as [w1 [fresh|e]] eqn:Hrpc; [|done].
    intros H Hk. destruct (IH _ _ H Hk) as [Hin|(c & a & Hc & Ha & ->)].
    + apply lookup_union_Some_raw in Hin as [Hin|[_ Hin]]; [|by left].
      destruct (resolveViaRPC_keys _ _ _ _ _ _ Hrpc Hin) as (a & Ha & ->).
      right. exists chunk, a. split; [by left|done].
    + right. exists c, a. split; [by right|done].
Qed.


Lemma resolveAddresses_cases (addresses : list jsstring) (w : World) :
  resolveAddresses stored network addresses w =
    match uncachedOf stored addresses w with
    | [] => (w, Normal (cachedNames stored addresses w))
    | _ =>
        match chunkLoop (length (uncachedOf stored addresses w))
                (uncachedOf stored addresses w) (maxBatchSize stored) 0 [] with
        | Throw e => (w, Throw e)
        | Normal chunks =>
            chunksLoop network (cacheEnabled stored) chunks
              (cachedNames stored addresses w) w
        end
    end.
Proof.
  unfold resolveAddresses, uncachedOf, cachedNames. fold (cacheTtlMs stored).
  destruct (cacheEnabled stored); [|reflexivity].
  rewrite <- cacheRead_uncached.
  destruct (cacheRead (storage w) (now w) (cacheTtlMs stored) addresses) as [results uncached].
  reflexivity.
Qed.



Lemma toStore_lookup (chunk : list jsstring) (fresh : gmap jsstring jsstring)
    (t : Z) (a : jsstring) :
  a ∈ chunk ->
  toStore chunk fresh t !! cacheKey a
  = Some (mkEntry (truthy (fresh !! toLowerCase a)) t).
Proof.
  intros Ha.
  change (toStore chunk fresh t)
    with (insertAll cacheKey
            (fun a => mkEntry (truthy (fresh !! toLowerCase a)) t) chunk ∅).
  apply (insertAll_in cacheKey
           (fun a => mkEntry (truthy (fresh !! toLowerCase a)) t)); [done|].
  intros b _ Hk%cacheKey_inj. cbn beta. by rewrite Hk.
Qed.

Lemma uncachedOf_not_fresh (addresses : list jsstring) (w : World)
    (addr : jsstring) (entry : CacheEntry) :
  cacheEnabled stored = true ->
  storage w !! cacheKey addr = Some entry ->
  now w - entry_t entry < (cacheTtlMs stored) ->
  forall a, a ∈ uncachedOf stored addresses w -> toLowerCase a <> toLowerCase addr.
Proof.
  intros Hon Hentry Hfresh a Ha Hk. unfold uncachedOf, misses in Ha.
  rewrite Hon in Ha. apply list_elem_of_In, filter_In in Ha as [_ Ha].
  unfold isFresh in Ha. apply cacheKey_inj in Hk. rewrite Hk, Hentry in Ha.
  rewrite (proj2 (Z.ltb_lt _ _)) in Ha by done. done.
Qed.

End Orchestrate.

(** * Runs of the worker on concrete networks *)

Section Runs.
Import JS Background.


(** C6 fails as stated. With batches of one address, the first chunk
    resolved to alice.wei and the second chunk's call rejected, the answer
    to the message is empty: the name of the first chunk, which is cached,
    is not in it, while it is when the second call merely finds no name.
    And a chunk whose response carries a result that cannot be parsed is
    written to the cache, as an address without a name. *)
Lemma failed_chunk_reaches_siblings_and_cache :
  (let '(w, names) :=
     onResolve oneByOne flaky [nthAddress 1; nthAddress 2] world0 in
   names !! nthAddress 1 = None
   /\ storage w !! cacheKey (nthAddress 1)
      = Some (mkEntry (Some (str "alice.wei")) 1000010))
  /\ snd (onResolve oneByOne steady [nthAddress 1; nthAddress 2] world0)
       !! nthAddress 1 = Some (str "alice.wei")
  /\ storage (fst (onResolve oneByOne garbled [nthAddress 1] world0))
       !! cacheKey (nthAddress 1) = Some (mkEntry None 1000010).
Proof. vm_compute. repeat split; reflexivity. Qed.


End Runs.

(** * Subject selection and extraction *)

Section Select.
Import JS Content.

Variable toLowerCase : jsstring -> jsstring.
Variable ETH_RE : jsstring -> list jsstring.
Variable ABBR_RE : jsstring -> option (jsstring * jsstring).
Variable HREF_RULES : list HrefRule.
Variable newURL : jsstring -> option URL.

Lemma find_first {A} (p : A -> bool) (l : list A) :
  (exists c, c ∈ l /\ p c = true) ->
  exists (i : nat) c,
    l !! i = Some c /\ p c = true
    /\ (forall (j : nat) b, (j < i)%nat -> l !! j = Some b -> p b = false)
    /\ List.find p l = Some c.
Proof.
  induction l as [|x l IH]; intros (c & Hc & Hp); [by apply elem_of_nil in Hc|].
  cbn [List.find]. destruct (p x) eqn:Hx.
  - exists O, x. repeat split; [done|]. intros j b Hj. lia.
  - apply elem_of_cons in Hc as [->|Hc]; [congruence|].
    destruct IH as (i & d & Hi & Hd & Hbefore & Hfind); [by exists c|].
    exists (S i), d. repeat split; [done..| |done].
    intros [|j] b Hj Hb; [by injection Hb as <-|].
    apply (Hbefore j); [lia|done].
Qed.

Lemma find_ext_in_list {A} (p q : A -> bool) (l : list A) :
  (forall a, a ∈ l -> p a = q a) -> List.find p l = List.find q l.
Proof.
  induction l as [|x l IH]; intros H; [done|].
  cbn [List.find]. rewrite (H x) by (by left).
  destruct (q x); [done|]. apply IH. intros a Ha. apply H. by right.
Qed.

Lemma find_elem_of {A} (p : A -> bool) (l : list A) (c : A) :
  List.find p l = Some c -> c ∈ l.
Proof. intros [H _]%find_some. by apply list_elem_of_In. Qed.

Lemma scoreAll_lookup (url : URL) (addresses : list jsstring) (a : jsstring) :
  a ∈ addresses ->
  scoreAll toLowerCase url addresses !! a = Some (scoreOf toLowerCase url a).
Proof.
  intros Ha.
  change (scoreAll toLowerCase url addresses)
    with (insertAll (fun a => a) (scoreOf toLowerCase url) addresses
            (insertAll (fun a => a) (fun _ => 0) addresses ∅)).
  apply (insertAll_in (fun a => a) (scoreOf toLowerCase url)); [done|].
  by intros b _ ->.
Qed.

Lemma pickBest_fold (f : jsstring -> Z) (scores : gmap jsstring Z)
    (seen rest : list jsstring) (best : jsstring) :
  (forall a, a ∈ rest -> scores !! a = Some (f a)) ->
  firstMaximum f seen best ->
  exists best',
    fold_left
      (fun '(best, bestScore) addr =>
         let s := scores !! addr in
         if greater s bestScore then (addr, s) else (best, bestScore))
      rest (best, Some (f best))
    = (best', Some (f best'))
    /\ firstMaximum f (seen ++ rest) best'.
Proof.
  revert seen best. induction rest as [|a rest IH]; intros seen best Hs Hinv.
  - exists best. rewrite app_nil_r. done.
  - cbn [fold_left]. rewrite (Hs a) by (by left). cbn [greater].
    replace (seen ++ a :: rest) with ((seen ++ [a]) ++ rest) by by rewrite <- app_assoc.
    destruct Hinv as (i & Hi & Hmax & Hbefore).
    destruct (Z.ltb_spec (f best) (f a)) as [Hlt|Hge].
    + apply IH; [intros b Hb; apply Hs; by right|].
      exists (length seen). split; [|split].
      * by rewrite lookup_app_r, Nat.sub_diag by lia.
      * intros b [Hb|Hb]%elem_of_app.
        -- specialize (Hmax b Hb). lia.
        -- apply list_elem_of_singleton in Hb as ->. lia.
      * intros j b Hj Hb. rewrite lookup_app_l in Hb by done.
        apply list_elem_of_lookup_2 in Hb. specialize (Hmax b Hb). lia.
    + apply IH; [intros b Hb; apply Hs; by right|].
      exists i. split; [|split].
      * rewrite lookup_app_l; [done|]. by eapply lookup_lt_Some.
      * intros b [Hb|Hb]%elem_of_app; [by apply Hmax|].
        apply list_elem_of_singleton in Hb as ->. lia.
      * intros j b Hj Hb. apply (Hbefore j); [done|].
        rewrite lookup_app_l in Hb; [done|].
        apply lookup_lt_Some in Hi. lia.
Qed.

Lemma pickBest_first_maximum (url : URL) (first : jsstring)
    (rest : list jsstring) :
  exists best,
    pickBest (scoreAll toLowerCase url (first :: rest)) first (first :: rest)
    = (best, Some (scoreOf toLowerCase url best))
    /\ firstMaximum (scoreOf toLowerCase url) (first :: rest) best.
Proof.
  unfold pickBest. cbn [fold_left].
  rewrite (scoreAll_lookup url (first :: rest) first) by (by left).
  cbn [greater]. rewrite Z.ltb_irrefl.
  destruct (pickBest_fold (scoreOf toLowerCase url) (scoreAll toLowerCase url (first :: rest))
              [first] rest first) as (best & Heq & Hinv).
  - intros a Ha. apply scoreAll_lookup. by right.
  - exists O. split; [done|]. split.
    + intros b Hb. apply list_elem_of_singleton in Hb as ->. lia.
    + intros j b Hj. lia.
  - by exists best.
Qed.

Lemma pick_unfold (href first second : jsstring) (rest : list jsstring)
    (displayText : jsstring) :
  pickSubjectAddress toLowerCase ABBR_RE newURL href (first :: second :: rest) displayText =
    match truthy (matchAbbrToAddresses toLowerCase ABBR_RE displayText
                    (first :: second :: rest)) with
    | Some abbrHit => Some abbrHit
    | None =>
        match exactDisplay toLowerCase displayText (first :: second :: rest) with
        | Some addr => Some addr
        | None =>
            match tier2 toLowerCase newURL href first (first :: second :: rest) with
            | Some best => Some best
            | None => last (first :: second :: rest)
            end
        end
    end.
Proof. reflexivity. Qed.

(** C4 as the code has it: when the display text decides nothing and the
    href parses, the candidate the scoring settles on is the first one, in
    list order, that reaches the highest score; it is returned unless that
    highest score is zero, and only then the last address is returned. A
    tie at a highest score other than zero goes to the earliest of the tied
    candidates. *)
Theorem tier2_first_maximum_unless_zero (href : jsstring)
    (addresses : list jsstring) (displayText : jsstring) (url : URL) :
  (2 <= length addresses)%nat ->
  newURL href = Some url ->
  truthy (matchAbbrToAddresses toLowerCase ABBR_RE displayText addresses) = None ->
  exactDisplay toLowerCase displayText addresses = None ->
  exists (i : nat) a,
    addresses !! i = Some a
    /\ (forall b, b ∈ addresses -> scoreOf toLowerCase url b <= scoreOf toLowerCase url a)
    /\ (forall (j : nat) b, (j < i)%nat -> addresses !! j = Some b ->
          scoreOf toLowerCase url b < scoreOf toLowerCase url a)
    /\ pickSubjectAddress toLowerCase ABBR_RE newURL href addresses displayText
       = (if scoreOf toLowerCase url a =? 0 then last addresses else Some a).
Proof.
  intros Hlen Hurl Habbr Hexact.
  destruct addresses as [|first [|second rest]]; [cbn in Hlen; lia..|].
  destruct (pickBest_first_maximum url first (second :: rest))
    as (best & Hbest & i & Hi & Hmax & Hbefore).
  exists i, best. repeat (split; [done|]).
  rewrite pick_unfold, Habbr, Hexact. unfold tier2. rewrite Hurl, Hbest.
  destruct (Z.eqb_spec (scoreOf toLowerCase url best) 0) as [E|E].
  - rewrite bool_decide_eq_true_2; [done|]. by rewrite E.
  - rewrite bool_decide_eq_false_2; [done|]. by intros [= ?].
Qed.

(** C10: from a non-empty list, [pickSubjectAddress] returns one of its
    elements, whichever tier decides. *)
Theorem pickSubjectAddress_in_list (href : jsstring)
    (addresses : list jsstring) (displayText : jsstring) :
  addresses <> [] ->
  exists a, pickSubjectAddress toLowerCase ABBR_RE newURL href addresses displayText = Some a /\ a ∈ addresses.
Proof.
  intros Hne. destruct addresses as [|first [|second rest]]; [done| |].
  - exists first. split; [done|]. by left.
  - rewrite pick_unfold.
    destruct (truthy _) as [abbrHit|] eqn:Habbr.
    { exists abbrHit. split; [done|].
      unfold matchAbbrToAddresses in Habbr.
      destruct (ABBR_RE displayText) as [[m1 m2]|]; [|done].
      destruct (List.find _ _) as [c|] eqn:Hfind; [|done].
      apply find_elem_of in Hfind. destruct c; [done|]. by injection Habbr as <-. }
    destruct (exactDisplay _ _ _) as [addr|] eqn:Hexact.
    { exists addr. split; [done|]. unfold exactDisplay in Hexact.
      destruct (VALID_ETH_RE displayText); [|done]. by eapply find_elem_of. }
    destruct (tier2 _ _ _ _ _) as [best|] eqn:Htier2.
    { exists best. split; [done|]. unfold tier2 in Htier2.
      destruct (newURL href) as [url|]; [|done].
      destruct (pickBest_first_maximum url first (second :: rest))
        as (best' & Hbest & i & Hi & _).
      rewrite Hbest in Htier2. destruct (bool_decide _); [done|].
      injection Htier2 as <-. by eapply list_elem_of_lookup_2. }
    destruct (last (first :: second :: rest)) as [a|] eqn:Hlast.
    + exists a. split; [done|]. apply last_Some in Hlast as [l' ->].
      apply elem_of_app. right. by left.
    + by apply last_None in Hlast.
Qed.

(** C5: with two or more candidates, all of them full addresses in
    lowercase, when the abbreviated pattern matches the display text and
    some candidate's body starts with the captured prefix and ends with the
    captured suffix, compared without regard to case, the first such
    candidate in list order is returned, for every href and whatever its
    scoring would prefer. A single candidate is returned as it is. *)
Theorem display_match_wins (href displayText : jsstring)
    (addresses : list jsstring) (m1 m2 : jsstring) :
  (2 <= length addresses)%nat ->
  Forall (fun c => VALID_ETH_RE c = true
                   /\ toLowerCase (sliceFrom c 2) = sliceFrom c 2) addresses ->
  ABBR_RE displayText = Some (m1, m2) ->
  let matches c :=
    startsWith (toLowerCase (sliceFrom c 2)) (toLowerCase m1)
    && endsWith (toLowerCase (sliceFrom c 2)) (toLowerCase m2) in
  (exists c, c ∈ addresses /\ matches c = true) ->
  (exists (i : nat) c,
     addresses !! i = Some c /\ matches c = true
     /\ (forall (j : nat) b, (j < i)%nat -> addresses !! j = Some b ->
           matches b = false)
     /\ pickSubjectAddress toLowerCase ABBR_RE newURL href addresses displayText = Some c)
  /\ forall only, pickSubjectAddress toLowerCase ABBR_RE newURL href [only] displayText = Some only.
Proof.
  intros Hlen Hvalid Habbr matches Hex. split; [|done].
  destruct (find_first matches addresses Hex) as (i & c & Hi & Hc & Hbefore & Hfind).
  exists i, c. repeat (split; [done|]).
  destruct addresses as [|first [|second rest]]; [cbn in Hlen; lia..|].
  rewrite pick_unfold. unfold matchAbbrToAddresses. rewrite Habbr. cbv zeta.
  assert (List.find
            (fun addr =>
               startsWith (sliceFrom addr 2) (toLowerCase m1)
               && endsWith (sliceFrom addr 2) (toLowerCase m2))
            (first :: second :: rest) = Some c) as ->.
  { rewrite <- Hfind. apply find_ext_in_list. intros a Ha.
    rewrite Forall_forall in Hvalid. destruct (Hvalid a Ha) as [_ Hlow].
    unfold matches. by rewrite Hlow. }
  apply list_elem_of_lookup_2 in Hi.
  rewrite Forall_forall in Hvalid. destruct (Hvalid c Hi) as [Hv _].
  destruct c; [done|]. done.
Qed.

Lemma matchRules_none (rules : list HrefRule) (href : jsstring) :
  (forall r, r ∈ rules -> validCapture r href = None) ->
  matchRules toLowerCase rules href = None.
Proof.
  induction rules as [|rule rest IH]; intros Hnone; [done|].
  cbn [matchRules]. specialize (Hnone rule ltac:(by left)) as Hr.
  unfold validCapture in Hr.
  assert (matchRules toLowerCase rest href = None) as Hrest.
  { apply IH. intros r Hin. apply Hnone. by right. }
  destruct (truthy _) as [c|]; [|done].
  by destruct (VALID_ETH_RE c).
Qed.

Lemma matchRules_first (rules : list HrefRule) (href : jsstring) (i : nat)
    (rule : HrefRule) (c : jsstring) :
  rules !! i = Some rule ->
  validCapture rule href = Some c ->
  (forall (j : nat) r, (j < i)%nat -> rules !! j = Some r ->
     validCapture r href = None) ->
  matchRules toLowerCase rules href = Some (toLowerCase c).
Proof.
  revert i. induction rules as [|r0 rest IH]; intros i Hi Hc Hbefore; [done|].
  cbn [matchRules]. destruct i as [|i].
  - injection Hi as ->. unfold validCapture in Hc.
    destruct (truthy _) as [c'|]; [|done].
    destruct (VALID_ETH_RE c'); [|done]. by injection Hc as ->.
  - specialize (Hbefore O r0 ltac:(lia) eq_refl) as H0. unfold validCapture in H0.
    assert (matchRules toLowerCase rest href = Some (toLowerCase c)) as Hrest.
    { apply (IH i); [done|done|]. intros j r Hj Hr. apply (Hbefore (S j)); [lia|done]. }
    destruct (truthy _) as [c'|]; [|done].
    by destruct (VALID_ETH_RE c').
Qed.

(** C9 as the code has it: with custom rules configured, the first rule,
    in order, whose capture is a full address decides, its capture is
    returned in lowercase and the full-address pattern, whatever it is,
    plays no part; when no rule has such a capture the anchor is treated as
    if no rule were configured, by the full-address pattern and then the
    display text. *)
Theorem custom_rules_first_then_default (anchor : Anchor) :
  HREF_RULES <> [] ->
  (forall (i : nat) rule c,
     HREF_RULES !! i = Some rule ->
     validCapture rule (anchor_href anchor) = Some c ->
     (forall (j : nat) r, (j < i)%nat -> HREF_RULES !! j = Some r ->
        validCapture r (anchor_href anchor) = None) ->
     toLowerCase c <> [] ->
     forall pattern,
       linkAddress toLowerCase pattern ABBR_RE HREF_RULES newURL anchor
       = Some (toLowerCase c))
  /\ ((forall r, r ∈ HREF_RULES -> validCapture r (anchor_href anchor) = None) ->
      linkAddress toLowerCase ETH_RE ABBR_RE HREF_RULES newURL anchor
      = linkAddress toLowerCase ETH_RE ABBR_RE [] newURL anchor).
Proof.
  intros Hne. split.
  - intros i rule c Hi Hc Hbefore Hlow pattern. unfold linkAddress, matchHrefRules.
    rewrite (matchRules_first _ _ i rule c Hi Hc Hbefore).
    destruct HREF_RULES; [done|]. by destruct (toLowerCase c).
  - intros Hnone. unfold linkAddress, matchHrefRules.
    rewrite (matchRules_none _ _ Hnone). by destruct HREF_RULES.
Qed.

End Select.

(** * Examples of selection *)

Section SelectExamples.
Import JS Content.

(** C4 fails as stated: with the two candidates tied at 10 and nothing
    in the display text, the first candidate is returned, not the last. *)
Lemma tie_goes_to_first_candidate :
  allAddressesInHref toLowerCase DEFAULT_ETH_RE tieHref = [subjectA; subjectB]
  /\ (exists url,
        plainURL tieHref = Some url
        /\ scoreOf toLowerCase url subjectA = 10
        /\ scoreOf toLowerCase url subjectB = 10)
  /\ truthy (matchAbbrToAddresses toLowerCase DEFAULT_ABBR_RE (str "holder")
               [subjectA; subjectB]) = None
  /\ exactDisplay toLowerCase (str "holder") [subjectA; subjectB] = None
  /\ pickSubjectAddress toLowerCase DEFAULT_ABBR_RE plainURL tieHref
       [subjectA; subjectB] (str "holder") = Some subjectA
  /\ last [subjectA; subjectB] = Some subjectB
  /\ subjectA <> subjectB.
Proof.
  split; [vm_compute; reflexivity|]. split.
  - eexists. split; [vm_compute; reflexivity|]. split; vm_compute; reflexivity.
  - repeat split; try (vm_compute; reflexivity). discriminate.
Qed.

(** C9 fails as stated: with the README's rule configured and an href
    the rule does not match, the address is still taken from the href by
    the full-address pattern. *)
Lemma unmatched_rule_falls_back_to_pattern :
  matchHrefRules toLowerCase [queryRule] tokenHref = None
  /\ linkAddress toLowerCase DEFAULT_ETH_RE DEFAULT_ABBR_RE [queryRule] plainURL
       (mkAnchor tokenHref abbreviatedA) = Some subjectA.
Proof. split; vm_compute; reflexivity. Qed.

Lemma tier2_first_maximum_unless_zero_witness :
  let url := mkURL (str "/") [(str "a", subjectA); (str "holder", subjectB)] [] in
  exists (i : nat) a,
    [subjectA; subjectB] !! i = Some a
    /\ (forall b, b ∈ [subjectA; subjectB] ->
          scoreOf toLowerCase url b <= scoreOf toLowerCase url a)
    /\ (forall (j : nat) b, (j < i)%nat -> [subjectA; subjectB] !! j = Some b ->
          scoreOf toLowerCase url b < scoreOf toLowerCase url a)
    /\ pickSubjectAddress toLowerCase DEFAULT_ABBR_RE plainURL tieHref
         [subjectA; subjectB] (str "holder")
       = (if scoreOf toLowerCase url a =? 0
          then last [subjectA; subjectB] else Some a).
Proof.
  exact (tier2_first_maximum_unless_zero toLowerCase DEFAULT_ABBR_RE plainURL
           tieHref [subjectA; subjectB] (str "holder")
           (mkURL (str "/") [(str "a", subjectA); (str "holder", subjectB)] [])
           ltac:(cbn; lia) ltac:(vm_compute; reflexivity)
           ltac:(vm_compute; reflexivity) ltac:(vm_compute; reflexivity)).
Defined.

Lemma pickSubjectAddress_in_list_witness :
  exists a,
    pickSubjectAddress toLowerCase DEFAULT_ABBR_RE plainURL tokenHref
      [subjectA; subjectB] abbreviatedA = Some a
    /\ a ∈ [subjectA; subjectB].
Proof.
  exact (pickSubjectAddress_in_list toLowerCase DEFAULT_ABBR_RE plainURL
           tokenHref [subjectA; subjectB] abbreviatedA ltac:(discriminate)).
Defined.

Lemma display_match_wins_witness :
  let matches c :=
    startsWith (toLowerCase (sliceFrom c 2)) (toLowerCase (str "aaaa"))
    && endsWith (toLowerCase (sliceFrom c 2)) (toLowerCase (str "0001")) in
  (exists (i : nat) c,
     [subjectB; subjectA] !! i = Some c /\ matches c = true
     /\ (forall (j : nat) b, (j < i)%nat -> [subjectB; subjectA] !! j = Some b ->
           matches b = false)
     /\ pickSubjectAddress toLowerCase DEFAULT_ABBR_RE plainURL tieHref
          [subjectB; subjectA] abbreviatedA = Some c)
  /\ forall only,
       pickSubjectAddress toLowerCase DEFAULT_ABBR_RE plainURL tieHref [only]
         abbreviatedA = Some only.
Proof.
  apply (display_match_wins toLowerCase DEFAULT_ABBR_RE plainURL tieHref
           abbreviatedA [subjectB; subjectA] (str "aaaa") (str "0001")).
  - cbn. lia.
  - repeat (constructor; [split; vm_compute; reflexivity|]). constructor.
  - vm_compute. reflexivity.
  - exists subjectA. split; [|vm_compute; reflexivity].
    apply elem_of_cons. right. apply elem_of_cons. left. reflexivity.
Defined.

Lemma custom_rules_first_then_default_witness :
  (forall (i : nat) rule c,
     [queryRule] !! i = Some rule ->
     validCapture rule (anchor_href queryAnchor) = Some c ->
     (forall (j : nat) r, (j < i)%nat -> [queryRule] !! j = Some r ->
        validCapture r (anchor_href queryAnchor) = None) ->
     toLowerCase c <> [] ->
     forall pattern,
       linkAddress toLowerCase pattern DEFAULT_ABBR_RE [queryRule] plainURL
         queryAnchor
       = Some (toLowerCase c))
  /\ ((forall r, r ∈ [queryRule] ->
         validCapture r (anchor_href queryAnchor) = None) ->
      linkAddress toLowerCase DEFAULT_ETH_RE DEFAULT_ABBR_RE [queryRule] plainURL
        queryAnchor
      = linkAddress toLowerCase DEFAULT_ETH_RE DEFAULT_ABBR_RE [] plainURL
          queryAnchor).
Proof.
  exact (custom_rules_first_then_default toLowerCase DEFAULT_ETH_RE
           DEFAULT_ABBR_RE [queryRule] plainURL queryAnchor ltac:(discriminate)).
Defined.

End SelectExamples.


(** * More about the codec *)

Section CodecMore.
Import JS Background.

Lemma length_elementWords (a : jsstring) :
  VALID_ADDR a = true -> length (elementWords a) = 384%nat.
Proof.
  intros (body & -> & Hlen)%VALID_ADDR_shape.
  unfold elementWords, abiWord, toLowerCase.
  change (drop 2 (48%N :: 120%N :: body)) with body.
  rewrite !length_app, !length_fixedHex, !repeat_length, length_map, Hlen.
  reflexivity.
Qed.

Lemma length_concat_const {A B} (f : A -> list B) (l : list A) (k : nat) :
  (forall a, a ∈ l -> length (f a) = k) ->
  length (concat (List.map f l)) = (k * length l)%nat.
Proof.
  induction l as [|a l IH]; intros H; cbn [List.map concat length]; [lia|].
  rewrite length_app, IH, (H a) by (try (by left); intros b Hb; apply H; by right).
  lia.
Qed.

Lemma encodeMulticall_words (addresses : list jsstring) :
  Forall (fun a => VALID_ADDR a = true) addresses ->
  Z.of_nat (length addresses) < 2 ^ 32 ->
  encodeMulticall addresses =
    AGGREGATE3_SELECTOR
    ++ abiWord 0x20
    ++ abiWord (Z.of_nat (length addresses))
    ++ concat (List.map
                 (fun i : nat =>
                    abiWord (32 * Z.of_nat (length addresses) + 192 * Z.of_nat i))
                 (seq 0 (length addresses)))
    ++ concat (List.map elementWords addresses).
Proof.
  intros Hvalid Hlen. unfold encodeMulticall.
  rewrite fold_left_pushElement, fold_left_push.
  rewrite !concat_app. cbn [concat]. rewrite app_nil_r, <- !app_assoc.
  f_equal. apply app_cong; [reflexivity|].
  apply app_cong; [apply pad32_toString16; lia|].
  apply app_cong.
  - f_equal. rewrite List.map_map. apply List.map_ext_in.
    intros i [_ Hi]%in_seq. cbn [Nat.add] in Hi.
    rewrite pad32_toString16 by lia. f_equal. lia.
  - rewrite concat_concat, List.map_map. f_equal.
    apply List.map_ext_in. intros a Ha.
    apply pushedWords_element.
    rewrite Forall_forall in Hvalid. apply Hvalid. by apply list_elem_of_In.
Qed.

(** X1: The calldata for N valid addresses has the marker, the 8 digits of
    the selector and 2 + 7N words of 64 digits: 4 + 32 (2 + 7N) bytes. *)
Theorem encodeMulticall_length (addresses : list jsstring) :
  Forall (fun a => VALID_ADDR a = true) addresses ->
  Z.of_nat (length addresses) < 2 ^ 32 ->
  Z.of_nat (length (encodeMulticall addresses))
  = 10 + 64 * (2 + 7 * Z.of_nat (length addresses)).
Proof.
  intros Hvalid Hlen.
  rewrite encodeMulticall_words by done.
  rewrite !length_app.
  rewrite (length_concat_const _ _ 64) by (intros; apply length_fixedHex).
  rewrite (length_concat_const _ _ 384).
  - unfold abiWord. rewrite !length_fixedHex, length_seq.
    change (length AGGREGATE3_SELECTOR) with 10%nat. lia.
  - intros b Hb. apply length_elementWords.
    rewrite Forall_forall in Hvalid. by apply Hvalid.
Qed.

Lemma encodeMulticall_length_witness :
  Z.of_nat (length (encodeMulticall [addrA; addrB])) = 10 + 64 * (2 + 7 * 2).
Proof.
  apply (encodeMulticall_length [addrA; addrB]).
  - by repeat constructor.
  - by vm_compute.
Defined.

Lemma lowerUnit_idemp (c : N) : lowerUnit (lowerUnit c) = lowerUnit c.
Proof.
  unfold lowerUnit.
  destruct ((65 <=? c) && (c <=? 90))%N eqn:E; [|by rewrite E].
  apply andb_true_iff in E as [H1 H2]. apply N.leb_le in H1, H2.
  rewrite (proj2 (N.leb_gt (c + 32) 90)) by lia. by rewrite andb_false_r.
Qed.

Lemma toLowerCase_idemp (s : jsstring) :
  toLowerCase (toLowerCase s) = toLowerCase s.
Proof.
  unfold toLowerCase. rewrite List.map_map.
  apply List.map_ext. intros c. apply lowerUnit_idemp.
Qed.

(** X2: Addresses that differ only in the case of their letters give the
    same calldata and the same cache keys. *)
Theorem encoding_ignores_case (l l' : list jsstring) :
  List.map toLowerCase l = List.map toLowerCase l' ->
  encodeMulticall l = encodeMulticall l'
  /\ List.map cacheKey l = List.map cacheKey l'.
Proof.
  intros H.
  assert (length l = length l') as Hlen.
  { apply (f_equal (@length _)) in H. by rewrite !length_map in H. }
  split.
  - assert (forall t (k : list jsstring),
              List.map (pushedWords t) k
              = List.map (fun a => pushedWords t a) (List.map toLowerCase k)) as Hlow.
    { intros t k. rewrite List.map_map. apply List.map_ext. intros a.
      unfold pushedWords, encodeReverseResolve. by rewrite toLowerCase_idemp. }
    unfold encodeMulticall. rewrite !fold_left_pushElement, Hlen.
    by rewrite (Hlow _ l), (Hlow _ l'), H.
  - unfold cacheKey.
    rewrite <- (List.map_map toLowerCase (fun s => str "wns_" ++ s) l), H.
    by rewrite List.map_map.
Qed.

Lemma encoding_ignores_case_witness :
  encodeMulticall [WNS_CONTRACT] = encodeMulticall [toLowerCase WNS_CONTRACT]
  /\ List.map cacheKey [WNS_CONTRACT]
     = List.map cacheKey [toLowerCase WNS_CONTRACT].
Proof.
  apply (encoding_ignores_case [WNS_CONTRACT] [toLowerCase WNS_CONTRACT]).
  by vm_compute.
Defined.

(** ** Reading back what was written *)

Lemma hexChar_cases (d : Z) :
  0 <= d < 16 ->
  hexValue (hexChar d) = Some d
  /\ isWhiteSpace (hexChar d) = false
  /\ (hexChar d =? 45)%N = false /\ (hexChar d =? 43)%N = false
  /\ (hexChar d =? 120)%N = false /\ (hexChar d =? 88)%N = false.
Proof.
  intros Hd.
  assert (d = 0 \/ d = 1 \/ d = 2 \/ d = 3 \/ d = 4 \/ d = 5 \/ d = 6 \/ d = 7
          \/ d = 8 \/ d = 9 \/ d = 10 \/ d = 11 \/ d = 12 \/ d = 13 \/ d = 14
          \/ d = 15) as H by lia.
  repeat (destruct H as [->|H]; [by vm_compute|]). subst d. by vm_compute.
Qed.

Lemma hexPrefix_fixedHex (k : nat) (v : Z) (t : jsstring) (c a : Z) :
  0 <= v ->
  hexPrefix (fixedHex k v ++ t) c a
  = hexPrefix t (c + Z.of_nat k) (a * 16 ^ Z.of_nat k + v mod 16 ^ Z.of_nat k).
Proof.
  revert v t. induction k as [|k IH]; intros v t Hv.
  - cbn [fixedHex app]. f_equal; [lia|]. cbn. rewrite Z.mod_1_r. lia.
  - cbn [fixedHex]. rewrite <- app_assoc, IH by (apply Z.div_pos; lia).
    cbn [app hexPrefix].
    destruct (hexChar_cases (v mod 16)) as [-> _];
      [apply Z.mod_pos_bound; lia|].
    f_equal; [lia|].
    rewrite Nat2Z.inj_succ, Z.pow_succ_r by lia.
    rewrite (Z.rem_mul_r v 16 (16 ^ Z.of_nat k)) by lia. lia.
Qed.

Lemma fixedHex_head (k : nat) (v : Z) :
  0 <= v ->
  exists d rest, 0 <= d < 16 /\ fixedHex (S k) v = hexChar d :: rest.
Proof.
  revert v. induction k as [|k IH]; intros v Hv.
  - exists (v mod 16), []. split; [apply Z.mod_pos_bound; lia|done].
  - destruct (IH (v / 16)) as (d & rest & Hd & Heq); [apply Z.div_pos; lia|].
    exists d, (rest ++ [hexChar (v mod 16)]). split; [done|].
    change (fixedHex (S (S k)) v)
      with (fixedHex (S k) (v / 16) ++ [hexChar (v mod 16)]).
    by rewrite Heq.
Qed.

Lemma fixedHex_digits (k : nat) (v : Z) :
  0 <= v ->
  Forall (fun c => exists d, 0 <= d < 16 /\ c = hexChar d) (fixedHex k v).
Proof.
  revert v. induction k as [|k IH]; intros v Hv; [constructor|].
  cbn [fixedHex]. apply Forall_app. split; [apply IH, Z.div_pos; lia|].
  constructor; [|constructor]. exists (v mod 16).
  split; [apply Z.mod_pos_bound; lia|done].
Qed.

(** [parseInt] reads a number back from its fixed-width hex text. *)
Lemma parseInt16_fixedHex (k : nat) (v : Z) :
  0 <= v < 16 ^ Z.of_nat (S k) ->
  parseInt16 (fixedHex (S k) v) = Some (round53 v).
Proof.
  intros Hv.
  pose proof (hexPrefix_fixedHex (S k) v [] 0 0 ltac:(lia)) as Hpre.
  rewrite app_nil_r in Hpre.
  rewrite Z.mod_small in Hpre by lia.
  pose proof (fixedHex_digits (S k) v ltac:(lia)) as Hall.
  pose proof (length_fixedHex (S k) v) as Hlen.
  destruct (fixedHex (S k) v) as [|c0 rest]; [done|].
  apply Forall_cons in Hall as [(d & Hd & ->) Hrest].
  destruct (hexChar_cases d Hd) as (_ & Hws & Hm & Hp & _).
  unfold parseInt16. cbn [skipWhiteSpace]. rewrite Hws, Hm, Hp.
  assert (match hexChar d :: rest with
          | c0 :: c1 :: s' =>
              if ((c0 =? 48) && ((c1 =? 120) || (c1 =? 88)))%N
              then s' else hexChar d :: rest
          | _ => hexChar d :: rest
          end = hexChar d :: rest) as ->.
  { destruct rest as [|c1 rest']; [done|].
    apply Forall_cons in Hrest as [(d1 & Hd1 & ->) _].
    destruct (hexChar_cases d1 Hd1) as (_ & _ & _ & _ & -> & ->).
    by rewrite andb_false_r. }
  rewrite Hpre. cbn [hexPrefix].
  rewrite (proj2 (Z.eqb_neq _ 0)) by lia.
  do 2 f_equal. lia.
Qed.

(** X3: What [uint] reads where an ABI word stands is the number of the
    word, for every number a double holds exactly. *)
Theorem parseInt16_abiWord (v : Z) :
  0 <= v < 2 ^ 53 -> parseInt16 (pad32 (toString16 v)) = Some v.
Proof.
  intros Hv. rewrite pad32_toString16 by lia.
  unfold abiWord. rewrite parseInt16_fixedHex by lia.
  f_equal. unfold round53. by rewrite (proj2 (Z.ltb_lt _ _)) by lia.
Qed.

Lemma parseInt16_abiWord_witness :
  parseInt16 (pad32 (toString16 0x1234)) = Some 0x1234.
Proof. apply (parseInt16_abiWord 0x1234). lia. Defined.

Lemma slice_cons {A} (a : A) (s : list A) (x y : Z) :
  0 <= x -> 0 <= y -> slice (a :: s) (x + 1) (y + 1) = slice s x y.
Proof.
  intros Hx Hy. unfold slice, relIndex. cbn [length].
  rewrite !(proj2 (Z.ltb_ge _ 0)) by lia.
  replace (Z.to_nat (Z.min (x + 1) (Z.of_nat (S (length s)))))
    with (S (Z.to_nat (Z.min x (Z.of_nat (length s))))) by lia.
  cbn [drop]. f_equal. lia.
Qed.

Lemma hexToBytes_cons2 (c0 c1 : N) (s : jsstring) :
  hexToBytes (c0 :: c1 :: s) = toUint8 (parseInt16 [c0; c1]) :: hexToBytes s.
Proof.
  unfold hexToBytes, len. cbn [length].
  replace (Z.to_nat (Z.of_nat (S (S (length s))) / 2))
    with (S (Z.to_nat (Z.of_nat (length s) / 2))).
  2:{ replace (Z.of_nat (S (S (length s)))) with (Z.of_nat (length s) + 1 * 2) by lia.
      rewrite Z.div_add by lia.
      pose proof (Z.div_pos (Z.of_nat (length s)) 2 ltac:(lia) ltac:(lia)). lia. }
  cbn [seq List.map].
  assert (slice (c0 :: c1 :: s) (Z.of_nat 0 * 2) (Z.of_nat 0 * 2 + 2) = [c0; c1]) as ->.
  { change (Z.of_nat 0 * 2) with 0. change (0 + 2) with 2.
    rewrite slice_0 by (cbn [length]; lia). reflexivity. }
  apply (f_equal (cons _)).
  rewrite <- seq_shift, !List.map_map. apply List.map_ext. intros i.
  do 2 f_equal.
  replace (Z.of_nat (S i) * 2) with ((Z.of_nat i * 2 + 1) + 1) by lia.
  replace (Z.of_nat i * 2 + 1 + 1 + 2) with ((Z.of_nat i * 2 + 2 + 1) + 1) by lia.
  rewrite !slice_cons by lia. done.
Qed.

Lemma hexToBytes_byteHex (bytes : list Z) :
  Forall (fun b => 0 <= b < 256) bytes ->
  hexToBytes (concat (List.map byteHex bytes)) = bytes.
Proof.
  induction 1 as [|b bytes Hb _ IH]; [reflexivity|].
  cbn [List.map concat].
  pose proof (length_fixedHex 2 b) as Hlen.
  pose proof (parseInt16_fixedHex 1 b ltac:(lia)) as Hparse.
  unfold byteHex at 1.
  destruct (fixedHex 2 b) as [|c0 [|c1 [|c2 r]]]; try discriminate Hlen.
  cbn [app]. rewrite hexToBytes_cons2, IH, Hparse. f_equal.
  unfold round53. rewrite (proj2 (Z.ltb_lt _ _)) by lia.
  cbn [toUint8]. apply Z.mod_small. lia.
Qed.

(** X4: [hexToBytes] gives back the bytes whose hex text it is given, and
    as many of them; and whatever text it is given, also one that is no hex
    at all, it returns half as many elements as the text has characters,
    each of them a byte. *)
Theorem hexToBytes_round_trip (bytes : list Z) (hex : jsstring) :
  Forall (fun b => 0 <= b < 256) bytes ->
  hexToBytes (concat (List.map byteHex bytes)) = bytes
  /\ length (hexToBytes hex) = Z.to_nat (len hex / 2)
  /\ Forall (fun b => 0 <= b <= 255) (hexToBytes hex).
Proof.
  intros Hbytes. split; [by apply hexToBytes_byteHex|].
  unfold hexToBytes. split; [by rewrite !length_map, length_seq|].
  apply Forall_forall. intros b (i & <- & _)%list_elem_of_In%in_map_iff.
  destruct (parseInt16 _) as [z|]; cbn [toUint8]; [|lia].
  pose proof (Z.mod_pos_bound z 256). lia.
Qed.

Lemma hexToBytes_round_trip_witness :
  hexToBytes (concat (List.map byteHex [0; 127; 255])) = [0; 127; 255]
  /\ length (hexToBytes (str "4g-1z")) = Z.to_nat (len (str "4g-1z") / 2)
  /\ Forall (fun b => 0 <= b <= 255) (hexToBytes (str "4g-1z")).
Proof.
  apply (hexToBytes_round_trip [0; 127; 255] (str "4g-1z")).
  repeat constructor; lia.
Defined.

(** ** Text decoding and sanitization *)

Lemma utf8Decode_ascii (bytes : list Z) :
  Forall (fun b => 0 <= b <= 0x7F) bytes ->
  utf8Decode bytes 0 0 0x80 0xBF = Normal bytes.
Proof.
  induction 1 as [|b bytes Hb _ IH]; [reflexivity|].
  cbn [utf8Decode]. rewrite Z.eqb_refl.
  rewrite (proj2 (Z.leb_le b 0x7F)) by lia. by rewrite IH.
Qed.

(** X5: Bytes of the ASCII range decode to the text with the same codes: each
    byte is one character, and nothing is thrown. *)
Theorem textDecode_ascii (bytes : list Z) :
  Forall (fun b => 0 <= b <= 0x7F) bytes ->
  textDecode bytes = Normal (List.map Z.to_N bytes).
Proof.
  intros Hascii. unfold textDecode. rewrite utf8Decode_ascii by done.
  assert (match bytes with
          | c :: cps' => if c =? 0xFEFF then cps' else bytes
          | [] => []
          end = bytes) as ->.
  { destruct Hascii as [|b l Hb _]; [done|].
    by rewrite (proj2 (Z.eqb_neq b 0xFEFF)) by lia. }
  f_equal. induction Hascii as [|b l Hb _ IH]; [done|].
  cbn [List.map concat]. rewrite IH. unfold utf16.
  by rewrite (proj2 (Z.ltb_lt b 0x10000)) by lia.
Qed.

Lemma textDecode_ascii_witness :
  textDecode [119; 101; 105] = Normal (str "wei").
Proof.
  apply (textDecode_ascii [119; 101; 105]). repeat constructor; lia.
Defined.

Lemma filter_all {A} (P : A -> Prop) `{!forall x, Decision (P x)} (l : list A) :
  Forall P l -> filter P l = l.
Proof.
  induction 1 as [|x l Hx _ IH]; [done|].
  by rewrite filter_cons_True, IH.
Qed.

Lemma sanitizeName_clean (s r : jsstring) :
  sanitizeName s = Some r ->
  Forall (fun c => ~ denylisted c) r /\ (1 <= length r <= 64)%nat.
Proof.
  rewrite sanitizeName_remainder.
  destruct (decide (remainder s = [])) as [|Hne]; [done|].
  intros [= <-]. split.
  - apply Forall_take, Forall_forall. intros c Hc.
    by apply list_elem_of_filter in Hc as [Hc _].
  - rewrite length_take. destruct (remainder s); [done|]. cbn [length]. lia.
Qed.

(** X6: A name that [sanitizeName] returned passes through it unchanged. *)
Theorem sanitizeName_idempotent (s r : jsstring) :
  sanitizeName s = Some r -> sanitizeName r = Some r.
Proof.
  intros [Hclean Hlen]%sanitizeName_clean.
  rewrite sanitizeName_remainder. unfold remainder.
  rewrite filter_all by done.
  destruct (decide (r = [])) as [->|_]; [cbn in Hlen; lia|].
  by rewrite take_ge by lia.
Qed.

Lemma sanitizeName_idempotent_witness :
  sanitizeName (str "alice.wei") = Some (str "alice.wei").
Proof.
  apply (sanitizeName_idempotent (10%N :: 0x202E%N :: str "alice.wei")).
  by vm_compute.
Defined.

Lemma decodeLoop_elements (data : jsstring) (count : nat) (i : Z)
    (names out : list (option jsstring)) :
  decodeLoop data count i names = Normal out ->
  out = names
        ++ List.map (fun k => decodeSlot data (i + Z.of_nat k)) (seq 0 count).
Proof.
  revert i names. induction count as [|count IH]; intros i names.
  - cbn. intros [= <-]. by rewrite app_nil_r.
  - cbn [decodeLoop]. unfold push.
    destruct (Z.of_nat (length names) <? MAX_ARRAY_LENGTH); [|done].
    intros ->%IH. rewrite <- app_assoc. cbn [seq List.map app]. do 2 f_equal.
    + f_equal. lia.
    + rewrite <- seq_shift, List.map_map. apply List.map_ext. intros k. f_equal. lia.
Qed.

Lemma decodeSlot_clean (data : jsstring) (i : Z) (r : jsstring) :
  decodeSlot data i = Some r ->
  Forall (fun c => ~ denylisted c) r /\ (1 <= length r <= 64)%nat.
Proof.
  rewrite decodeSlot_fields.
  destruct (successFlag data i) as [[|[| |]|]|]; try done.
  destruct (falsyNum (returnedLength data i)); [done|].
  destruct (falsyNum (stringLength data i)); [done|].
  destruct (textDecode (stringBytes data i)) as [raw|]; [|done].
  apply sanitizeName_clean.
Qed.

(** X7: Whatever the payload, every name [decodeAggregate3] returns is
    sanitized: it has between 1 and 64 characters and none of the
    denylist. *)
Theorem decodeAggregate3_names_sanitized (hex : option jsstring)
    (names : list (option jsstring)) (r : jsstring) :
  decodeAggregate3 hex = Normal names ->
  Some r ∈ names ->
  Forall (fun c => ~ denylisted c) r /\ (1 <= length r <= 64)%nat.
Proof.
  unfold decodeAggregate3. destruct hex as [hex|].
  2:{ intros [= <-] Hin. by apply elem_of_nil in Hin. }
  destruct (streq hex [] || streq hex (str "0x")).
  { intros [= <-] Hin. by apply elem_of_nil in Hin. }
  destruct (falsyNum _).
  { intros [= <-] Hin. by apply elem_of_nil in Hin. }
  intros ->%decodeLoop_elements Hin. cbn [app] in Hin.
  apply list_elem_of_In, in_map_iff in Hin as (k & Hk & _).
  by eapply decodeSlot_clean.
Qed.

(** ** The decoder accepts well-formed UTF-8 and nothing else *)

Lemma lor_shift_low (c y : Z) :
  0 <= y < 64 -> Z.lor (Z.shiftl c 6) y = c * 64 + y.
Proof.
  intros Hy.
  assert (Z.land (Z.shiftl c 6) y = 0) as Hland.
  { apply Z.bits_inj'. intros n Hn. rewrite Z.land_spec, Z.bits_0.
    destruct (Z.lt_ge_cases n 6) as [Hlt|Hge].
    - rewrite Z.shiftl_spec_low by lia. reflexivity.
    - rewrite (Z.bits_above_log2 y n); [apply andb_false_r|lia|].
      destruct (Z.eq_dec y 0) as [->|Hnz]; [cbn; lia|].
      apply Z.log2_lt_pow2; [lia|]. apply Z.lt_le_trans with (2 ^ 6); [lia|].
      apply Z.pow_le_mono_r; lia. }
  rewrite <- Z.lxor_lor, <- Z.add_nocarry_lxor by exact Hland.
  rewrite Z.shiftl_mul_pow2 by lia. reflexivity.
Qed.

Lemma continuation_value (cp b : Z) :
  0x80 <= b <= 0xBF ->
  Z.lor (Z.shiftl cp 6) (Z.land b 0x3F) = cp * 64 + b - 128.
Proof.
  intros Hb. change 0x3F with (Z.ones 6). rewrite Z.land_ones by lia.
  assert (b mod 2 ^ 6 = b - 128) as ->.
  { symmetry. apply (Z.mod_unique_pos b (2 ^ 6) 2); lia. }
  rewrite lor_shift_low by lia. lia.
Qed.

Lemma lead_value (b n base : Z) :
  0 <= n -> base mod 2 ^ n = 0 -> base <= b < base + 2 ^ n -> 0 <= base ->
  Z.land b (Z.ones n) = b - base.
Proof.
  intros Hn Hbase Hb H0. rewrite Z.land_ones by lia.
  symmetry. apply (Z.mod_unique_pos b (2 ^ n) (base / 2 ^ n)); [lia|].
  pose proof (Z.div_mod base (2 ^ n) ltac:(lia)). lia.
Qed.

Lemma utf8Decode_ascii_step (b : Z) (rest : list Z) :
  b <= 0x7F ->
  utf8Decode (b :: rest) 0 0 0x80 0xBF
  = match utf8Decode rest 0 0 0x80 0xBF with
    | Normal out => Normal (b :: out)
    | Throw e => Throw e
    end.
Proof.
  intros Hb. cbn [utf8Decode Z.eqb]. by rewrite (proj2 (Z.leb_le b 0x7F)).
Qed.

Lemma utf8Decode_lead2 (b : Z) (rest : list Z) :
  0xC2 <= b <= 0xDF ->
  utf8Decode (b :: rest) 0 0 0x80 0xBF = utf8Decode rest (b - 0xC0) 1 0x80 0xBF.
Proof.
  intros Hb. cbn [utf8Decode Z.eqb].
  rewrite (proj2 (Z.leb_gt b 0x7F)) by lia.
  rewrite (proj2 (Z.leb_le 0xC2 b)), (proj2 (Z.leb_le b 0xDF)) by lia.
  cbn [andb]. change 0x1F with (Z.ones 5).
  by rewrite (lead_value b 5 0xC0);
    [|lia|reflexivity|change (2 ^ 5) with 32; lia|lia].
Qed.

Lemma utf8Decode_lead3 (b : Z) (rest : list Z) :
  0xE0 <= b <= 0xEF ->
  utf8Decode (b :: rest) 0 0 0x80 0xBF
  = utf8Decode rest (b - 0xE0) 2
      (if b =? 0xE0 then 0xA0 else 0x80) (if b =? 0xED then 0x9F else 0xBF).
Proof.
  intros Hb. cbn [utf8Decode Z.eqb].
  rewrite (proj2 (Z.leb_gt b 0x7F)) by lia.
  rewrite (proj2 (Z.leb_gt b 0xDF)) by lia. rewrite andb_false_r.
  rewrite (proj2 (Z.leb_le 0xE0 b)), (proj2 (Z.leb_le b 0xEF)) by lia.
  cbn [andb]. change 0xF with (Z.ones 4).
  by rewrite (lead_value b 4 0xE0);
    [|lia|reflexivity|change (2 ^ 4) with 16; lia|lia].
Qed.

Lemma utf8Decode_lead4 (b : Z) (rest : list Z) :
  0xF0 <= b <= 0xF4 ->
  utf8Decode (b :: rest) 0 0 0x80 0xBF
  = utf8Decode rest (b - 0xF0) 3
      (if b =? 0xF0 then 0x90 else 0x80) (if b =? 0xF4 then 0x8F else 0xBF).
Proof.
  intros Hb. cbn [utf8Decode Z.eqb].
  rewrite (proj2 (Z.leb_gt b 0x7F)) by lia.
  rewrite (proj2 (Z.leb_gt b 0xDF)) by lia. rewrite andb_false_r.
  rewrite (proj2 (Z.leb_gt b 0xEF)) by lia. rewrite andb_false_r.
  rewrite (proj2 (Z.leb_le 0xF0 b)), (proj2 (Z.leb_le b 0xF4)) by lia.
  cbn [andb]. change 0x7 with (Z.ones 3).
  by rewrite (lead_value b 3 0xF0);
    [|lia|reflexivity|change (2 ^ 3) with 8; lia|lia].
Qed.

Lemma utf8Decode_bad_lead (b : Z) (rest : list Z) :
  0x80 <= b <= 0xC1 \/ 0xF5 <= b ->
  utf8Decode (b :: rest) 0 0 0x80 0xBF = Throw TypeError.
Proof.
  intros Hb. cbn [utf8Decode Z.eqb].
  rewrite (proj2 (Z.leb_gt b 0x7F)) by lia.
  destruct (Z.leb_spec 0xC2 b), (Z.leb_spec b 0xDF), (Z.leb_spec 0xE0 b),
    (Z.leb_spec b 0xEF), (Z.leb_spec 0xF0 b), (Z.leb_spec b 0xF4);
    cbn [andb]; (reflexivity || lia).
Qed.

Lemma utf8Decode_cont (b : Z) (rest : list Z) (cp needed lower upper : Z) :
  0x80 <= lower -> upper <= 0xBF -> lower <= b <= upper -> needed <> 0 ->
  utf8Decode (b :: rest) cp needed lower upper
  = if needed =? 1
    then match utf8Decode rest 0 0 0x80 0xBF with
         | Normal out => Normal ((cp * 64 + b - 128) :: out)
         | Throw e => Throw e
         end
    else utf8Decode rest (cp * 64 + b - 128) (needed - 1) 0x80 0xBF.
Proof.
  intros Hlo Hup Hb Hn. cbn [utf8Decode].
  rewrite (proj2 (Z.eqb_neq needed 0)) by done.
  rewrite (proj2 (Z.ltb_ge b lower)), (proj2 (Z.ltb_ge upper b)) by lia.
  cbn [orb]. by rewrite continuation_value by lia.
Qed.

Lemma utf8Decode_bad_cont (b : Z) (rest : list Z) (cp needed lower upper : Z) :
  needed <> 0 -> b < lower \/ upper < b ->
  utf8Decode (b :: rest) cp needed lower upper = Throw TypeError.
Proof.
  intros Hn Hb. cbn [utf8Decode].
  rewrite (proj2 (Z.eqb_neq needed 0)) by done.
  destruct (Z.ltb_spec b lower), (Z.ltb_spec upper b); cbn [orb];
    (reflexivity || lia).
Qed.

Lemma utf8Decode_truncated (cp needed lower upper : Z) :
  needed <> 0 -> utf8Decode [] cp needed lower upper = Throw TypeError.
Proof. intros Hn. cbn [utf8Decode]. by rewrite (proj2 (Z.eqb_neq needed 0)). Qed.

(** The decoder reads the encoding of a scalar value back. *)
Lemma utf8Decode_encode (cp : Z) (rest : list Z) :
  scalarValue cp ->
  utf8Decode (utf8Encode cp ++ rest) 0 0 0x80 0xBF
  = match utf8Decode rest 0 0 0x80 0xBF with
    | Normal out => Normal (cp :: out)
    | Throw e => Throw e
    end.
Proof.
  intros Hcp. unfold scalarValue in Hcp. unfold utf8Encode.
  destruct (Z.ltb_spec cp 0x80) as [H1|H1].
  { cbn [app]. apply utf8Decode_ascii_step. lia. }
  destruct (Z.ltb_spec cp 0x800) as [H2|H2].
  { cbn [app].
    rewrite utf8Decode_lead2 by (Z.to_euclidean_division_equations; lia).
    rewrite utf8Decode_cont; [|lia|lia|Z.to_euclidean_division_equations; lia|lia].
    cbn [Z.eqb].
    replace ((0xC0 + cp / 64 - 0xC0) * 64 + (0x80 + cp mod 64) - 128) with cp
      by (Z.to_euclidean_division_equations; lia).
    reflexivity. }
  destruct (Z.ltb_spec cp 0x10000) as [H3|H3].
  { cbn [app].
    rewrite utf8Decode_lead3 by (Z.to_euclidean_division_equations; lia).
    rewrite utf8Decode_cont;
      [|destruct (_ =? _); lia|destruct (_ =? 0xED); lia| |lia].
    2:{ destruct (Z.eqb_spec (0xE0 + cp / 64 / 64) 0xE0),
          (Z.eqb_spec (0xE0 + cp / 64 / 64) 0xED);
          Z.to_euclidean_division_equations; lia. }
    change (2 =? 1) with false. cbv iota. change (2 - 1) with 1.
    rewrite utf8Decode_cont; [|lia|lia|Z.to_euclidean_division_equations; lia|lia].
    cbn [Z.eqb].
    replace (((0xE0 + cp / 64 / 64 - 0xE0) * 64 + (0x80 + (cp / 64) mod 64) - 128)
             * 64 + (0x80 + cp mod 64) - 128) with cp
      by (Z.to_euclidean_division_equations; lia).
    reflexivity. }
  cbn [app].
  rewrite utf8Decode_lead4 by (Z.to_euclidean_division_equations; lia).
  rewrite utf8Decode_cont;
    [|destruct (_ =? _); lia|destruct (_ =? 0xF4); lia| |lia].
  2:{ destruct (Z.eqb_spec (0xF0 + cp / 64 / 64 / 64) 0xF0),
        (Z.eqb_spec (0xF0 + cp / 64 / 64 / 64) 0xF4);
        Z.to_euclidean_division_equations; lia. }
  change (3 =? 1) with false. cbv iota. change (3 - 1) with 2.
  rewrite utf8Decode_cont; [|lia|lia|Z.to_euclidean_division_equations; lia|lia].
  change (2 =? 1) with false. cbv iota. change (2 - 1) with 1.
  rewrite utf8Decode_cont; [|lia|lia|Z.to_euclidean_division_equations; lia|lia].
  cbn [Z.eqb].
  replace ((((0xF0 + cp / 64 / 64 / 64 - 0xF0) * 64
             + (0x80 + (cp / 64 / 64) mod 64) - 128) * 64
            + (0x80 + (cp / 64) mod 64) - 128) * 64
           + (0x80 + cp mod 64) - 128) with cp
    by (Z.to_euclidean_division_equations; lia).
  reflexivity.
Qed.


Lemma utf8Decode_encode_all (out : list Z) (rest : list Z) :
  Forall scalarValue out ->
  utf8Decode (concat (List.map utf8Encode out) ++ rest) 0 0 0x80 0xBF
  = match utf8Decode rest 0 0 0x80 0xBF with
    | Normal out' => Normal (out ++ out')
    | Throw e => Throw e
    end.
Proof.
  induction 1 as [|cp out Hcp _ IH].
  - cbn [List.map concat app]. by destruct (utf8Decode rest 0 0 128 191).
  - cbn [List.map concat]. rewrite <- app_assoc, utf8Decode_encode by done.
    rewrite IH. by destruct (utf8Decode rest 0 0 128 191).
Qed.

Lemma utf8Decode_cont_inv (bytes : list Z) (cp needed lower upper : Z)
    (out : list Z) :
  0x80 <= lower -> upper <= 0xBF -> needed <> 0 ->
  utf8Decode bytes cp needed lower upper = Normal out ->
  exists b rest,
    bytes = b :: rest /\ lower <= b <= upper
    /\ (if needed =? 1
        then match utf8Decode rest 0 0 0x80 0xBF with
             | Normal out' => Normal ((cp * 64 + b - 128) :: out')
             | Throw e => Throw e
             end
        else utf8Decode rest (cp * 64 + b - 128) (needed - 1) 0x80 0xBF)
       = Normal out.
Proof.
  intros Hlo Hup Hn. destruct bytes as [|b rest].
  { by rewrite utf8Decode_truncated. }
  destruct (decide (lower <= b <= upper)) as [Hb|Hb].
  - rewrite utf8Decode_cont by done. intros H. by exists b, rest.
  - rewrite utf8Decode_bad_cont; [done|done|lia].
Qed.

Lemma utf8Decode_wellformed (n : nat) (bytes out : list Z) :
  (length bytes <= n)%nat ->
  Forall (fun b => 0 <= b <= 255) bytes ->
  utf8Decode bytes 0 0 0x80 0xBF = Normal out ->
  Forall scalarValue out /\ bytes = concat (List.map utf8Encode out).
Proof.
  revert bytes out. induction n as [|n IH]; intros bytes out Hlen Hbytes.
  { destruct bytes; [|cbn in Hlen; lia]. cbn. by intros [= <-]. }
  destruct bytes as [|b rest]; [cbn; by intros [= <-]|].
  apply Forall_cons in Hbytes as [Hb Hrest]. cbn [length] in Hlen.
  destruct (Z.le_gt_cases b 0x7F) as [H1|H1].
  { rewrite utf8Decode_ascii_step by done.
    destruct (utf8Decode rest 0 0 128 191) as [out'|] eqn:E; [|done].
    intros [= <-]. destruct (IH rest out') as [Hs Heq]; [lia|done|done|].
    split; [constructor; [left; lia|done]|].
    cbn [List.map concat]. unfold utf8Encode.
    rewrite (proj2 (Z.ltb_lt b 0x80)) by lia. cbn [app]. by f_equal. }
  destruct (Z.le_gt_cases b 0xC1) as [H2|H2].
  { by rewrite utf8Decode_bad_lead by lia. }
  destruct (Z.le_gt_cases b 0xDF) as [H3|H3].
  { rewrite utf8Decode_lead2 by lia.
    intros (b1 & r1 & -> & Hb1 & H)%utf8Decode_cont_inv; [|lia..].
    cbn [Z.eqb] in H.
    destruct (utf8Decode r1 0 0 128 191) as [out'|] eqn:E; [|done].
    injection H as <-. apply Forall_cons in Hrest as [_ Hr1].
    destruct (IH r1 out') as [Hs Heq]; [cbn [length] in Hlen; lia|done|done|].
    split; [constructor; [unfold scalarValue; lia|done]|].
    cbn [List.map concat]. unfold utf8Encode.
    rewrite (proj2 (Z.ltb_ge _ 0x80)) by lia.
    rewrite (proj2 (Z.ltb_lt _ 0x800)) by lia.
    cbn [app]. f_equal; [Z.to_euclidean_division_equations; lia|].
    f_equal; [Z.to_euclidean_division_equations; lia|done]. }
  destruct (Z.le_gt_cases b 0xEF) as [H4|H4].
  { rewrite utf8Decode_lead3 by lia.
    intros (b1 & r1 & -> & Hb1 & H)%utf8Decode_cont_inv;
      [|destruct (_ =? _); lia|destruct (_ =? 0xED); lia|lia].
    change (2 =? 1) with false in H. cbv iota in H. change (2 - 1) with 1 in H.
    apply utf8Decode_cont_inv in H as (b2 & r2 & -> & Hb2 & H); [|lia..].
    cbn [Z.eqb] in H.
    destruct (utf8Decode r2 0 0 128 191) as [out'|] eqn:E; [|done].
    injection H as <-.
    apply Forall_cons in Hrest as [_ Hr1]. apply Forall_cons in Hr1 as [_ Hr2].
    destruct (IH r2 out') as [Hs Heq]; [cbn [length] in Hlen; lia|done|done|].
    assert (0x800 <= ((b - 0xE0) * 64 + b1 - 128) * 64 + b2 - 128 < 0x10000
            /\ scalarValue (((b - 0xE0) * 64 + b1 - 128) * 64 + b2 - 128))
      as [Hrange Hscalar].
    { unfold scalarValue.
      destruct (Z.eqb_spec b 0xE0), (Z.eqb_spec b 0xED); lia. }
    split; [by constructor|].
    cbn [List.map concat]. unfold utf8Encode.
    rewrite (proj2 (Z.ltb_ge _ 0x80)) by lia.
    rewrite (proj2 (Z.ltb_ge _ 0x800)) by lia.
    rewrite (proj2 (Z.ltb_lt _ 0x10000)) by lia.
    assert (0x80 <= b1 <= 0xBF) as Hb1' by (destruct (_ =? _), (_ =? 0xED); lia).
    cbn [app]. f_equal; [Z.to_euclidean_division_equations; lia|].
    f_equal; [Z.to_euclidean_division_equations; lia|].
    f_equal; [Z.to_euclidean_division_equations; lia|done]. }
  destruct (Z.le_gt_cases b 0xF4) as [H5|H5].
  2:{ by rewrite utf8Decode_bad_lead by lia. }
  rewrite utf8Decode_lead4 by lia.
  intros (b1 & r1 & -> & Hb1 & H)%utf8Decode_cont_inv;
    [|destruct (_ =? _); lia|destruct (_ =? 0xF4); lia|lia].
  change (3 =? 1) with false in H. cbv iota in H. change (3 - 1) with 2 in H.
  apply utf8Decode_cont_inv in H as (b2 & r2 & -> & Hb2 & H); [|lia..].
  change (2 =? 1) with false in H. cbv iota in H. change (2 - 1) with 1 in H.
  apply utf8Decode_cont_inv in H as (b3 & r3 & -> & Hb3 & H); [|lia..].
  cbn [Z.eqb] in H.
  destruct (utf8Decode r3 0 0 128 191) as [out'|] eqn:E; [|done].
  injection H as <-.
  apply Forall_cons in Hrest as [_ Hr1]. apply Forall_cons in Hr1 as [_ Hr2].
  apply Forall_cons in Hr2 as [_ Hr3].
  destruct (IH r3 out') as [Hs Heq]; [cbn [length] in Hlen; lia|done|done|].
  assert (0x10000
          <= (((b - 0xF0) * 64 + b1 - 128) * 64 + b2 - 128) * 64 + b3 - 128
          <= 0x10FFFF) as Hrange
    by (destruct (Z.eqb_spec b 0xF0), (Z.eqb_spec b 0xF4); lia).
  split; [constructor; [unfold scalarValue; lia|done]|].
  cbn [List.map concat]. unfold utf8Encode.
  rewrite (proj2 (Z.ltb_ge _ 0x80)) by lia.
  rewrite (proj2 (Z.ltb_ge _ 0x800)) by lia.
  rewrite (proj2 (Z.ltb_ge _ 0x10000)) by lia.
  assert (0x80 <= b1 <= 0xBF) as Hb1' by (destruct (_ =? _), (_ =? 0xF4); lia).
  cbn [app]. f_equal; [Z.to_euclidean_division_equations; lia|].
  f_equal; [Z.to_euclidean_division_equations; lia|].
  f_equal; [Z.to_euclidean_division_equations; lia|].
  f_equal; [Z.to_euclidean_division_equations; lia|done].
Qed.

Lemma malformedHead_throws (bad : list Z) :
  malformedHead bad -> utf8Decode bad 0 0 0x80 0xBF = Throw TypeError.
Proof.
  destruct bad as [|b rest]; [done|]. cbn [malformedHead].
  intros [Hb|[Hb|[Hb Hrest]]]; [by apply utf8Decode_bad_lead; left
                                |by apply utf8Decode_bad_lead; right|].
  destruct (Z.le_gt_cases b 0xDF) as [H2|H2].
  { rewrite utf8Decode_lead2 by lia.
    destruct rest as [|b1 r1]; [by apply utf8Decode_truncated|].
    apply utf8Decode_bad_cont; [done|lia]. }
  destruct (Z.le_gt_cases b 0xEF) as [H3|H3].
  { rewrite utf8Decode_lead3 by lia.
    destruct rest as [|b1 r1]; [by apply utf8Decode_truncated|].
    apply utf8Decode_bad_cont; [done|].
    destruct (Z.eqb_spec b 0xE0), (Z.eqb_spec b 0xED); lia. }
  rewrite utf8Decode_lead4 by lia.
  destruct rest as [|b1 r1]; [by apply utf8Decode_truncated|].
  apply utf8Decode_bad_cont; [done|].
  destruct (Z.eqb_spec b 0xF0), (Z.eqb_spec b 0xF4); lia.
Qed.

(** X8: The fatal UTF-8 decoder accepts well-formed UTF-8 and nothing
    else. When it returns, its input is the concatenation of the
    shortest-form encodings of the code points it yields, and each of them
    is a Unicode scalar value, no surrogate and at most U+10FFFF. When it
    throws, its input is no such concatenation. And it does throw, after
    any well-formed text, on what starts badly: a stray continuation byte,
    the lead byte of an overlong two-byte form or one beyond F4, a sequence
    cut off after its lead byte, and a lead byte followed by a byte that is
    no continuation byte or makes an overlong form, a surrogate or a value
    above U+10FFFF. *)
Theorem utf8Decode_scalar_values (bytes : list Z) :
  Forall (fun b => 0 <= b <= 255) bytes ->
  match utf8Decode bytes 0 0 0x80 0xBF with
  | Normal out =>
      Forall scalarValue out /\ bytes = concat (List.map utf8Encode out)
  | Throw _ =>
      forall out, Forall scalarValue out ->
                  bytes <> concat (List.map utf8Encode out)
  end
  /\ forall out bad,
       Forall scalarValue out -> malformedHead bad ->
       utf8Decode (concat (List.map utf8Encode out) ++ bad) 0 0 0x80 0xBF
       = Throw TypeError.
Proof.
  intros Hbytes. split.
  - destruct (utf8Decode bytes 0 0 128 191) as [out|e] eqn:E.
    + by apply (utf8Decode_wellformed (length bytes)).
    + intros out Hout ->.
      pose proof (utf8Decode_encode_all out [] Hout) as H.
      rewrite app_nil_r, E in H. cbn in H. done.
  - intros out bad Hout Hbad.
    by rewrite utf8Decode_encode_all, malformedHead_throws.
Qed.

Lemma utf8Decode_scalar_values_witness :
  (Forall scalarValue [0x20AC]
   /\ [0xE2; 0x82; 0xAC] = concat (List.map utf8Encode [0x20AC]))
  /\ (forall out, Forall scalarValue out ->
                  [0xC0; 0xAF] <> concat (List.map utf8Encode out))
  /\ utf8Decode (concat (List.map utf8Encode [0x41]) ++ [0xED; 0xA0; 0x80])
       0 0 0x80 0xBF
     = Throw TypeError.
Proof.
  split; [|split].
  - apply (proj1 (utf8Decode_scalar_values [0xE2; 0x82; 0xAC]
                    ltac:(repeat constructor; lia))).
  - apply (proj1 (utf8Decode_scalar_values [0xC0; 0xAF]
                    ltac:(repeat constructor; lia))).
  - apply (proj2 (utf8Decode_scalar_values [] ltac:(constructor))
             [0x41] [0xED; 0xA0; 0x80]).
    + constructor; [unfold scalarValue; lia|constructor].
    + cbn [malformedHead]. lia.
Defined.

End CodecMore.

(** * Decoding what the contract returns *)

Section RoundTrip.
Import JS Background.

Lemma round53_small (z : Z) : - 2 ^ 53 < z < 2 ^ 53 -> round53 z = z.
Proof.
  intros Hz. unfold round53. by rewrite (proj2 (Z.ltb_lt _ _)) by lia.
Qed.

Lemma add_exact (x y : Z) :
  - 2 ^ 53 < x + y < 2 ^ 53 -> add (Some x) (Some y) = Some (x + y).
Proof. intros H. cbn [add]. by rewrite round53_small. Qed.

Lemma mul_exact (x y : Z) :
  - 2 ^ 53 < x * y < 2 ^ 53 -> mul (Some x) (Some y) = Some (x * y).
Proof. intros H. cbn [mul]. by rewrite round53_small. Qed.

Lemma slice_middle {A} (pre w post : list A) :
  slice (pre ++ w ++ post) (Z.of_nat (length pre))
    (Z.of_nat (length pre) + Z.of_nat (length w)) = w.
Proof.
  unfold slice, relIndex. rewrite !length_app.
  rewrite !(proj2 (Z.ltb_ge _ 0)) by lia.
  rewrite !Z.min_l by lia.
  rewrite Nat2Z.id, drop_app_length.
  replace (Z.to_nat _) with (length w) by lia.
  by rewrite take_app_length.
Qed.

Lemma length_abiWord (v : Z) : length (abiWord v) = 64%nat.
Proof. apply length_fixedHex. Qed.

(** Reading the word that stands at a position. *)
Lemma uint_at (pre post : jsstring) (v p : Z) :
  Z.of_nat (length pre) = p -> 0 <= v < 2 ^ 53 -> p + 64 < 2 ^ 53 ->
  uint (pre ++ abiWord v ++ post) (Some p) = Some v.
Proof.
  intros Hp Hv Hsmall. unfold uint, word, sliceNum, W.
  rewrite add_exact by lia. cbn [toInteger].
  subst p.
  replace (Z.of_nat (length pre) + 64)
    with (Z.of_nat (length pre) + Z.of_nat (length (abiWord v)))
    by (rewrite length_abiWord; lia).
  rewrite slice_middle. unfold abiWord. rewrite parseInt16_fixedHex by lia.
  by rewrite round53_small by lia.
Qed.

Lemma length_byteHex_concat (bytes : list Z) :
  length (concat (List.map byteHex bytes)) = (2 * length bytes)%nat.
Proof.
  rewrite (length_concat_const byteHex bytes 2); [lia|].
  intros b _. apply length_fixedHex.
Qed.

Lemma length_padWords (hex : jsstring) :
  exists m : nat, length (padWords hex) = (64 * m)%nat.
Proof.
  unfold padWords. rewrite length_app, repeat_length.
  pose proof (Nat.mod_upper_bound (length hex) 64 ltac:(lia)) as Hm.
  pose proof (Nat.div_mod_eq (length hex) 64) as Hd.
  destruct (decide (length hex mod 64 = 0)%nat) as [E|E].
  - exists (length hex / 64)%nat. rewrite E in *.
    change ((64 - 0) mod 64)%nat with 0%nat. lia.
  - exists (length hex / 64 + 1)%nat.
    rewrite (Nat.mod_small (64 - length hex mod 64) 64) by lia. lia.
Qed.

Lemma length_resultTuple (r : option (list Z)) :
  exists m : nat, length (resultTuple r) = (64 * m)%nat.
Proof.
  destruct r as [bytes|]; cbn [resultTuple]; unfold stringData.
  - destruct (length_padWords (concat (List.map byteHex bytes))) as [m Hm].
    exists (5 + m)%nat. rewrite !length_app, !length_abiWord, Hm. lia.
  - exists 3%nat. by rewrite !length_app, !length_abiWord.
Qed.

Lemma slice_app_r {A} (pre rest : list A) (x y : Z) :
  0 <= x -> 0 <= y ->
  slice (pre ++ rest) (Z.of_nat (length pre) + x) (Z.of_nat (length pre) + y)
  = slice rest x y.
Proof.
  intros Hx Hy. unfold slice, relIndex. rewrite length_app.
  rewrite !(proj2 (Z.ltb_ge _ 0)) by lia.
  replace (Z.to_nat (Z.min (Z.of_nat (length pre) + x)
                       (Z.of_nat (length pre + length rest))))
    with (length pre + Z.to_nat (Z.min x (Z.of_nat (length rest))))%nat by lia.
  rewrite <- drop_drop, drop_app_length. f_equal. lia.
Qed.

Lemma uint_pre (pre rest : jsstring) (k : Z) :
  0 <= k -> Z.of_nat (length pre) + k + 64 < 2 ^ 53 ->
  uint (pre ++ rest) (Some (Z.of_nat (length pre) + k)) = uint rest (Some k).
Proof.
  intros Hk Hsmall. unfold uint, word, sliceNum, W.
  rewrite !add_exact by lia. cbn [toInteger].
  replace (Z.of_nat (length pre) + k + 64)
    with (Z.of_nat (length pre) + (k + 64)) by lia.
  by rewrite slice_app_r by lia.
Qed.

Lemma uint_here (v : Z) (post : jsstring) :
  0 <= v < 2 ^ 53 -> uint (abiWord v ++ post) (Some 0) = Some v.
Proof.
  intros Hv. apply (uint_at [] post v 0); [done|done|lia].
Qed.

Lemma uint_next (v k : Z) (rest : jsstring) :
  0 <= k -> k + 128 < 2 ^ 53 ->
  uint (abiWord v ++ rest) (Some (64 + k)) = uint rest (Some k).
Proof.
  intros Hk Hsmall.
  replace (64 + k) with (Z.of_nat (length (abiWord v)) + k)
    by (rewrite length_abiWord; lia).
  apply uint_pre; [done|]. rewrite length_abiWord. lia.
Qed.

(** The words of a tuple that holds a string, one after the other. *)
Lemma resultTuple_words (bytes : list Z) (post : jsstring) :
  resultTuple (Some bytes) ++ post
  = abiWord 1 ++ abiWord 0x40
    ++ abiWord (Z.of_nat (length (stringData bytes)) / 2)
    ++ abiWord 0x20 ++ abiWord (Z.of_nat (length bytes))
    ++ concat (List.map byteHex bytes)
    ++ repeat zeroChar
         ((64 - length (concat (List.map byteHex bytes)) mod 64) mod 64)
    ++ post.
Proof.
  cbn [resultTuple]. unfold stringData, padWords. by rewrite <- !app_assoc.
Qed.

Lemma decodeSlot_at (pre post : jsstring) (i : Z) (r : option (list Z)) :
  slotBase (pre ++ resultTuple r ++ post) i = Some (Z.of_nat (length pre)) ->
  Z.of_nat (length (pre ++ resultTuple r ++ post)) < 2 ^ 52 ->
  (forall bytes, r = Some bytes -> Forall (fun x => 0 <= x < 256) bytes) ->
  decodeSlot (pre ++ resultTuple r ++ post) i = nameOfBytes r.
Proof.
  intros Hbase Hsize Hbytes. rewrite decodeSlot_fields.
  set (data := pre ++ resultTuple r ++ post) in *.
  set (b := Z.of_nat (length pre)) in *.
  assert (forall k, 0 <= k -> b + k + 64 < 2 ^ 53 ->
            uint data (Some (b + k)) = uint (resultTuple r ++ post) (Some k))
    as Hrel by (intros k Hk Hs; by apply uint_pre).
  assert (0 <= b) as Hb0 by lia.
  assert (b + Z.of_nat (length (resultTuple r)) < 2 ^ 52) as Hroom.
  { unfold data in Hsize. rewrite !length_app in Hsize. lia. }
  destruct r as [bytes|].
  2:{ unfold successFlag. rewrite Hbase.
      replace b with (b + 0) by lia. rewrite Hrel by lia.
      cbn [resultTuple]. rewrite <- !app_assoc, uint_here by lia. done. }
  specialize (Hbytes bytes eq_refl).
  pose proof (resultTuple_words bytes post) as Hwords.
  set (L := Z.of_nat (length (stringData bytes)) / 2) in *.
  set (n := Z.of_nat (length bytes)) in *.
  set (H := concat (List.map byteHex bytes)) in *.
  assert (Z.of_nat (length H) = 2 * n) as HlenH.
  { unfold H, n. rewrite length_byteHex_concat. lia. }
  assert (Z.of_nat (length (stringData bytes)) = 128 + Z.of_nat (length (padWords H)))
    as HlenS.
  { unfold stringData. fold H. rewrite !length_app, !length_abiWord. lia. }
  assert (Z.of_nat (length H) <= Z.of_nat (length (padWords H))) as Hpad.
  { unfold padWords. rewrite length_app. lia. }
  assert (Z.of_nat (length (resultTuple (Some bytes)))
          = 192 + Z.of_nat (length (stringData bytes))) as HlenT.
  { cbn [resultTuple]. rewrite !length_app, !length_abiWord. lia. }
  assert (64 <= L < 2 ^ 52) as HL.
  { unfold L. split.
    - apply Z.div_le_lower_bound; lia.
    - apply Z.div_lt_upper_bound; lia. }
  assert (successFlag data i = Some 1) as ->.
  { unfold successFlag. rewrite Hbase.
    replace b with (b + 0) by lia. rewrite Hrel, Hwords by lia.
    by rewrite uint_here by lia. }
  assert (bytesBase data i = Some (b + 128)) as Hbb.
  { unfold bytesBase. rewrite Hbase. unfold W.
    rewrite add_exact, Hrel, Hwords by lia.
    change (Some 64) with (Some (64 + 0)).
    rewrite uint_next, uint_here by lia.
    rewrite mul_exact, add_exact by lia. f_equal. }
  assert (returnedLength data i = Some L) as ->.
  { unfold returnedLength. rewrite Hbb, Hrel, Hwords by lia.
    change (Some 128) with (Some (64 + (64 + 0))).
    rewrite !uint_next, uint_here by lia. done. }
  cbn [falsyNum]. rewrite (proj2 (Z.eqb_neq L 0)) by lia.
  assert (stringLength data i = Some n) as Hsl.
  { unfold stringLength. rewrite Hbb. unfold W. rewrite !add_exact by lia.
    replace (b + 128 + 64 + 64) with (b + 256) by lia.
    rewrite Hrel, Hwords by lia.
    change (Some 256) with (Some (64 + (64 + (64 + (64 + 0))))).
    rewrite !uint_next, uint_here by lia. done. }
  rewrite Hsl. cbn [falsyNum].
  destruct (Z.eqb_spec n 0) as [Hn0|Hn0].
  { assert (bytes = []) as Hnil.
    { unfold n in Hn0. destruct bytes; [done|]. cbn [length] in Hn0. lia. }
    clear -Hnil. subst bytes. reflexivity. }
  assert (stringBytes data i = bytes) as ->.
  { unfold stringBytes. rewrite Hsl, Hbb. unfold W, sliceNum.
    rewrite !mul_exact, !add_exact by lia. cbn [toInteger].
    replace (b + 128 + 64 + 2 * 64) with (b + 320) by lia.
    replace (b + 320 + n * 2) with (b + (320 + 2 * n)) by lia.
    unfold data, b. rewrite slice_app_r, Hwords by lia.
    assert (abiWord 1 ++ abiWord 64 ++ abiWord L ++ abiWord 32 ++ abiWord n
            ++ H ++ repeat zeroChar ((64 - length H mod 64) mod 64) ++ post
            = (abiWord 1 ++ abiWord 64 ++ abiWord L ++ abiWord 32 ++ abiWord n)
              ++ H ++ repeat zeroChar ((64 - length H mod 64) mod 64) ++ post)
      as -> by (by rewrite <- !app_assoc).
    replace 320 with (Z.of_nat (length (abiWord 1 ++ abiWord 64 ++ abiWord L
                                          ++ abiWord 32 ++ abiWord n)))
      by (by rewrite !length_app, !length_abiWord).
    rewrite <- HlenH, slice_middle. by apply hexToBytes_byteHex. }
  done.
Qed.

Lemma length_concat_words (tuples : list jsstring) :
  (forall t, t ∈ tuples -> exists m : nat, length t = (64 * m)%nat) ->
  exists m : nat, length (concat tuples) = (64 * m)%nat.
Proof.
  induction tuples as [|t ts IH]; intros H; [by exists O|].
  destruct (H t ltac:(by left)) as [m Hm].
  destruct IH as [m' Hm']; [intros t' Ht'; apply H; by right|].
  exists (m + m')%nat. cbn [concat]. rewrite length_app, Hm, Hm'. lia.
Qed.

Lemma tupleOffsets_lookup (tuples : list jsstring) (base : Z) (k : nat)
    (t : jsstring) :
  (forall t, t ∈ tuples -> exists m : nat, length t = (64 * m)%nat) ->
  tuples !! k = Some t ->
  tupleOffsets base tuples !! k
  = Some (base + Z.of_nat (length (concat (take k tuples))) / 2).
Proof.
  revert base k. induction tuples as [|t0 ts IH]; intros base k Hw Hk; [done|].
  destruct k as [|k].
  - cbn [tupleOffsets lookup list_lookup take concat length].
    change (Z.of_nat 0 / 2) with 0. by rewrite Z.add_0_r.
  - cbn [tupleOffsets lookup list_lookup take concat].
    rewrite (IH _ k); [|intros t' Ht'; apply Hw; by right|done].
    f_equal. destruct (Hw t0 ltac:(by left)) as [m Hm].
    rewrite length_app, Hm, !Nat2Z.inj_add, Nat2Z.inj_mul.
    replace (Z.of_nat 64 * Z.of_nat m) with (32 * Z.of_nat m * 2) by lia.
    rewrite Z.div_mul, Z.div_add_l by lia. lia.
Qed.

Lemma length_tupleOffsets (tuples : list jsstring) (base : Z) :
  length (tupleOffsets base tuples) = length tuples.
Proof.
  revert base. induction tuples as [|t ts IH]; intros base; [done|].
  cbn [tupleOffsets length]. by rewrite IH.
Qed.

Lemma length_concat_abiWords (l : list Z) :
  length (concat (List.map abiWord l)) = (64 * length l)%nat.
Proof. apply length_concat_const. intros v _. apply length_abiWord. Qed.

Lemma map_seq_lookup {A B} (f : Z -> B) (g : A -> B) (l : list A) :
  (forall (k : nat) a, l !! k = Some a -> f (Z.of_nat k) = g a) ->
  List.map (fun k => f (0 + Z.of_nat k)) (seq 0 (length l)) = List.map g l.
Proof.
  revert f. induction l as [|a l IH]; intros f H; [done|].
  cbn [length seq List.map]. f_equal; [by apply (H O)|].
  rewrite <- seq_shift, List.map_map.
  rewrite <- (IH (fun z => f (z + 1))).
  - apply List.map_ext. intros k. f_equal. lia.
  - intros k b Hk. rewrite <- (H (S k) b Hk). f_equal. lia.
Qed.

Lemma payloadData_prefixed (body : jsstring) :
  payloadData (str "0x" ++ body) = body.
Proof.
  unfold payloadData.
  change (str "0x" ++ body) with (48%N :: 120%N :: body).
  assert (startsWith (48%N :: 120%N :: body) (str "0x") = true) as ->
    by (by destruct body).
  unfold sliceFrom, slice, relIndex. cbn [length].
  rewrite !(proj2 (Z.ltb_ge _ 0)) by lia.
  rewrite Z.min_id, Z.min_l by lia.
  change (Z.to_nat 2) with 2%nat.
  change (drop 2 (48%N :: 120%N :: body)) with body.
  apply take_ge. lia.
Qed.

Lemma arrayBase_value : arrayBase = Some 128.
Proof. reflexivity. Qed.

Lemma slotBase_aggregate3Return (results : list (option (list Z))) (k : nat)
    (r : option (list Z)) :
  results !! k = Some r ->
  Z.of_nat (length (aggregate3Return results)) < 2 ^ 52 ->
  slotBase (payloadData (aggregate3Return results)) (Z.of_nat k)
  = Some (128 + 64 * Z.of_nat (length results)
          + Z.of_nat (length (concat (take k (List.map resultTuple results))))).
Proof.
  intros Hk Hsmall.
  set (tuples := List.map resultTuple results).
  set (offs := tupleOffsets (32 * Z.of_nat (length results)) tuples).
  assert (Hw : forall t, t ∈ tuples -> exists m : nat, length t = (64 * m)%nat).
  { intros t [r' [-> _]]%list_elem_of_fmap. apply length_resultTuple. }
  assert (Ht : tuples !! k = Some (resultTuple r)).
  { unfold tuples. change (List.map resultTuple results) with (resultTuple <$> results).
    by rewrite list_lookup_fmap, Hk. }
  pose proof (tupleOffsets_lookup tuples (32 * Z.of_nat (length results)) k _ Hw Ht)
    as Hoff.
  fold offs in Hoff.
  destruct (length_concat_words (take k tuples)) as [m Hm].
  { intros t Ht'. apply Hw. by apply (subseteq_take k tuples). }
  pose proof (lookup_lt_Some _ _ _ Hk) as Hlt.
  assert (Hlen : length (aggregate3Return results)
                 = (2 + 64 + 64 + 64 * length results + length (concat tuples))%nat).
  { unfold aggregate3Return. fold tuples. fold offs.
    rewrite !length_app, !length_abiWord, length_concat_abiWords.
    unfold offs. rewrite length_tupleOffsets. unfold tuples.
    rewrite length_map. change (length (str "0x")) with 2%nat. lia. }
  assert (Hpre : (length (concat (take k tuples)) <= length (concat tuples))%nat).
  { rewrite <- (take_drop k tuples) at 2. rewrite concat_app, length_app. lia. }
  unfold aggregate3Return. fold tuples. fold offs.
  rewrite payloadData_prefixed. unfold slotBase.
  rewrite arrayBase_value. unfold W.
  rewrite mul_exact, add_exact by lia.
  rewrite <- (take_drop_middle offs k _ Hoff).
  rewrite map_app, concat_app. cbn [List.map concat].
  set (off := 32 * Z.of_nat (length results)
              + Z.of_nat (length (concat (take k tuples))) / 2).
  assert (Hoffv : off = 32 * Z.of_nat (length results) + 32 * Z.of_nat m).
  { unfold off. rewrite Hm, Nat2Z.inj_mul.
    replace (Z.of_nat 64 * Z.of_nat m) with (32 * Z.of_nat m * 2) by lia.
    by rewrite Z.div_mul. }
  assert (Hlk : length (take k offs) = k).
  { rewrite length_take. unfold offs. rewrite length_tupleOffsets. unfold tuples.
    rewrite length_map. lia. }
  replace (abiWord 32 ++ abiWord (Z.of_nat (length results))
           ++ (concat (List.map abiWord (take k offs))
               ++ abiWord off ++ concat (List.map abiWord (drop (S k) offs)))
           ++ concat tuples)
    with ((abiWord 32 ++ abiWord (Z.of_nat (length results))
           ++ concat (List.map abiWord (take k offs)))
          ++ abiWord off
          ++ (concat (List.map abiWord (drop (S k) offs)) ++ concat tuples))
    by (by rewrite <- !app_assoc).
  rewrite (uint_at _ _ off (128 + Z.of_nat k * 64)).
  - rewrite mul_exact, add_exact by lia. f_equal. lia.
  - rewrite !length_app, !length_abiWord, length_concat_abiWords, Hlk. lia.
  - lia.
  - lia.
Qed.

Lemma decodeSlot_aggregate3Return (results : list (option (list Z))) (k : nat)
    (r : option (list Z)) :
  results !! k = Some r ->
  Z.of_nat (length (aggregate3Return results)) < 2 ^ 52 ->
  (forall bytes, r = Some bytes -> Forall (fun x => 0 <= x < 256) bytes) ->
  decodeSlot (payloadData (aggregate3Return results)) (Z.of_nat k)
  = nameOfBytes r.
Proof.
  intros Hk Hsmall Hbytes.
  pose proof (slotBase_aggregate3Return results k r Hk Hsmall) as Hbase.
  revert Hbase Hsmall. unfold aggregate3Return.
  set (tuples := List.map resultTuple results).
  set (offs := tupleOffsets (32 * Z.of_nat (length results)) tuples).
  rewrite payloadData_prefixed. intros Hbase Hsmall.
  assert (Ht : tuples !! k = Some (resultTuple r)).
  { unfold tuples. change (List.map resultTuple results) with (resultTuple <$> results).
    by rewrite list_lookup_fmap, Hk. }
  assert (Hsplit : abiWord 32 ++ abiWord (Z.of_nat (length results))
                   ++ concat (List.map abiWord offs) ++ concat tuples
                   = (abiWord 32 ++ abiWord (Z.of_nat (length results))
                      ++ concat (List.map abiWord offs) ++ concat (take k tuples))
                     ++ resultTuple r ++ concat (drop (S k) tuples)).
  { rewrite <- (take_drop_middle tuples k _ Ht) at 1.
    rewrite concat_app. cbn [concat]. by rewrite <- !app_assoc. }
  rewrite Hsplit in Hbase |- *.
  apply decodeSlot_at; [|by rewrite <- Hsplit; rewrite length_app in Hsmall; lia|done].
  rewrite Hbase. f_equal.
  rewrite !length_app, !length_abiWord, length_concat_abiWords.
  unfold offs. rewrite length_tupleOffsets.
  replace (length tuples) with (length results)
    by (unfold tuples; by rewrite length_map).
  lia.
Qed.

Lemma declaredLength_aggregate3Return (results : list (option (list Z))) :
  Z.of_nat (length (aggregate3Return results)) < 2 ^ 52 ->
  declaredLength (aggregate3Return results) = Some (Z.of_nat (length results)).
Proof.
  intros Hsmall. unfold declaredLength. revert Hsmall. unfold aggregate3Return.
  rewrite payloadData_prefixed. rewrite !length_app, !length_abiWord. intros Hsmall.
  apply uint_at; [by rewrite length_abiWord| |done].
  rewrite length_concat_abiWords, length_tupleOffsets, length_map in Hsmall. lia.
Qed.

(** X9: Decoding inverts the contract's encoding: the payload Multicall3 builds
    for a list of results (failed calls and calls that returned a string)
    decodes to the names of those results, in their order, where the name
    of a returned string is its sanitized UTF-8 text, and null when the
    bytes are not UTF-8 or nothing is left of them. *)
Theorem decodeAggregate3_round_trip (results : list (option (list Z))) :
  Z.of_nat (length results) <= MAX_ARRAY_LENGTH ->
  Z.of_nat (length (aggregate3Return results)) < 2 ^ 52 ->
  Forall (fun r => forall bytes, r = Some bytes ->
                   Forall (fun x => 0 <= x < 256) bytes) results ->
  decodeAggregate3 (Some (aggregate3Return results))
  = Normal (List.map nameOfBytes results).
Proof.
  intros Hmax Hsmall Hbytes.
  destruct results as [|r0 rs] eqn:Hres; [by vm_compute|]. rewrite <- Hres in *.
  rewrite (decodeAggregate3_loop _ (Z.of_nat (length results))).
  - rewrite decodeLoop_normal by (rewrite Nat2Z.id; cbn [length]; lia).
    rewrite Nat2Z.id. cbn [app]. f_equal.
    apply (map_seq_lookup
             (decodeSlot (payloadData (aggregate3Return results))) nameOfBytes).
    intros k r Hk. apply decodeSlot_aggregate3Return; [done|done|].
    rewrite Forall_forall in Hbytes. apply Hbytes.
    by eapply list_elem_of_lookup_2.
  - done.
  - intros H. apply (f_equal length) in H. revert H. unfold aggregate3Return.
    rewrite !length_app, !length_abiWord. cbn. lia.
  - by apply declaredLength_aggregate3Return.
  - subst results. cbn [length]. lia.
Qed.

Lemma decodeAggregate3_round_trip_witness :
  decodeAggregate3
    (Some (aggregate3Return [Some [97; 108; 105; 99; 101; 46; 119; 101; 105];
                             None; Some [0xC3; 0xA9; 0x0A; 0x2E; 0x77]; Some [0xFF]]))
  = Normal [Some (str "alice.wei"); None; Some [233%N; 46%N; 119%N]; None].
Proof.
  apply (decodeAggregate3_round_trip
           [Some [97; 108; 105; 99; 101; 46; 119; 101; 105];
            None; Some [0xC3; 0xA9; 0x0A; 0x2E; 0x77]; Some [0xFF]]).
  - vm_compute. discriminate.
  - by vm_compute.
  - repeat constructor; intros bytes [= <-]; repeat constructor; lia.
Defined.

Lemma decodeAggregate3_names_sanitized_witness :
  Forall (fun c => ~ denylisted c) (str "alice.wei")
  /\ (1 <= length (str "alice.wei") <= 64)%nat.
Proof.
  apply (decodeAggregate3_names_sanitized
           (Some (aggregate3Return
                    [None; Some [97; 108; 105; 99; 101; 46; 119; 101; 105]]))
           [None; Some (str "alice.wei")]).
  - by vm_compute.
  - right. left.
Defined.

End RoundTrip.

(** * What an invocation does to the cache and sends to the network *)

Section CacheInvariants.
Import JS Background.

Variable stored : Config.
Variable network : nat -> Response * Z.

Lemma truthy_some (v : option jsstring) (r : jsstring) :
  truthy v = Some r -> v = Some r /\ r <> [].
Proof. destruct v as [[|c s]|]; [done| |done]. by intros [= <-]. Qed.

Lemma uncachedOf_subset (addresses : list jsstring) (w : World) (a : jsstring) :
  a ∈ uncachedOf stored addresses w -> a ∈ addresses.
Proof.
  unfold uncachedOf, misses. destruct (cacheEnabled stored); [|done].
  intros H. apply list_elem_of_In, filter_In in H as [H _]. by apply list_elem_of_In.
Qed.

Lemma toStore_other (chunk : list jsstring) (fresh : gmap jsstring jsstring)
    (t : Z) (k : jsstring) :
  (forall a, a ∈ chunk -> cacheKey a <> k) -> toStore chunk fresh t !! k = None.
Proof.
  intros H.
  change (toStore chunk fresh t)
    with (insertAll cacheKey
            (fun a => mkEntry (truthy (fresh !! toLowerCase a)) t) chunk ∅).
  by rewrite insertAll_notin by done.
Qed.

Lemma toStore_some (chunk : list jsstring) (fresh : gmap jsstring jsstring)
    (t : Z) (k : jsstring) (e : CacheEntry) :
  toStore chunk fresh t !! k = Some e ->
  exists a, a ∈ chunk /\ k = cacheKey a
            /\ e = mkEntry (truthy (fresh !! toLowerCase a)) t.
Proof.
  change (toStore chunk fresh t)
    with (insertAll cacheKey
            (fun a => mkEntry (truthy (fresh !! toLowerCase a)) t) chunk ∅).
  intros [(a & Ha & Hk & He)|H]%insertAll_some; [|by rewrite lookup_empty in H].
  by exists a.
Qed.

Lemma chunksLoop_storage (cacheOn : bool) (chunks : list (list jsstring))
    (results : gmap jsstring jsstring) (w w' : World)
    (r : Completion (gmap jsstring jsstring)) :
  chunksLoop network cacheOn chunks results w = (w', r) ->
  (cacheOn = false -> storage w' = storage w)
  /\ forall k, (forall c a, c ∈ chunks -> a ∈ c -> cacheKey a <> k) ->
               storage w' !! k = storage w !! k.
Proof.
  revert results w. induction chunks as [|chunk rest IH]; intros results w.
  - cbn [chunksLoop]. by intros [= <- <-].
  - cbn [chunksLoop].
    pose proof (resolveViaRPC_world network chunk w) as Hw.
    destruct (resolveViaRPC network chunk w) as [w1 [fresh|e]];
      cbn [fst] in Hw; subst w1; [|by intros [= <- <-]].
    intros [Hoff Hframe]%IH. split.
    + intros ->. by rewrite Hoff.
    + intros k Hk. rewrite Hframe by (intros c a Hc; apply Hk; by right).
      destruct cacheOn; [|done]. cbn [storageSet storage afterCall].
      rewrite lookup_union_r; [done|].
      apply toStore_other. intros a. apply Hk. by left.
Qed.

Lemma resolveAddresses_chunks (addresses : list jsstring) (w w' : World)
    (r : Completion (gmap jsstring jsstring)) :
  resolveAddresses stored network addresses w = (w', r) ->
  (w' = w /\ (r = Normal (cachedNames stored addresses w) \/ exists e, r = Throw e))
  \/ exists chunks,
       (forall c a, c ∈ chunks -> a ∈ c -> a ∈ uncachedOf stored addresses w)
       /\ chunksLoop network (cacheEnabled stored) chunks
            (cachedNames stored addresses w) w = (w', r).
Proof.
  rewrite resolveAddresses_cases.
  destruct (uncachedOf stored addresses w) as [|a u] eqn:Hu.
  { intros [= <- <-]. left. split; [done|by left]. }
  destruct (chunkLoop _ _ _ _ _) as [chunks|e] eqn:Hc.
  - intros H. right. exists chunks. split; [|done].
    intros c b Hin Hb.
    destruct (chunkLoop_elem _ _ _ _ _ _ Hc c Hin) as [Hnil|Hall].
    + by apply elem_of_nil in Hnil.
    + by apply Hall.
  - intros [= <- <-]. left. split; [done|]. right. by exists e.
Qed.

(** X10: An invocation writes to the cache only under the keys of the
    addresses it was asked for: every other key of the storage area keeps
    its value. With the cache switched off the storage is not written at
    all. *)
Theorem resolveAddresses_storage_frame (addresses : list jsstring)
    (w w' : World) (r : Completion (gmap jsstring jsstring)) :
  resolveAddresses stored network addresses w = (w', r) ->
  (cacheEnabled stored = false -> storage w' = storage w)
  /\ forall k, (forall a, a ∈ addresses -> cacheKey a <> k) ->
               storage w' !! k = storage w !! k.
Proof.
  intros [[-> _]|(chunks & Hsub & Hloop)]%resolveAddresses_chunks; [done|].
  apply chunksLoop_storage in Hloop as [Hoff Hframe]. split; [done|].
  intros k Hk. apply Hframe. intros c a Hc Ha.
  apply Hk. eapply uncachedOf_subset. by eapply Hsub.
Qed.

Lemma decodeAggregate3_slots (hex : option jsstring)
    (names : list (option jsstring)) (x : option jsstring) :
  decodeAggregate3 hex = Normal names -> x ∈ names ->
  exists data i, x = decodeSlot data i.
Proof.
  unfold decodeAggregate3. destruct hex as [hex|].
  2:{ intros [= <-] Hin. by apply elem_of_nil in Hin. }
  destruct (streq hex [] || streq hex (str "0x")).
  { intros [= <-] Hin. by apply elem_of_nil in Hin. }
  destruct (falsyNum _).
  { intros [= <-] Hin. by apply elem_of_nil in Hin. }
  intros ->%decodeLoop_elements Hin. cbn [app] in Hin.
  apply list_elem_of_In, in_map_iff in Hin as (k & <- & _). by eexists _, _.
Qed.

Lemma resolveViaRPC_clean (chunk : list jsstring) (w w' : World)
    (fresh : gmap jsstring jsstring) (k v : jsstring) :
  resolveViaRPC network chunk w = (w', Normal fresh) ->
  fresh !! k = Some v -> cleanName v.
Proof.
  unfold resolveViaRPC.
  destruct (network (length (fetched w))) as [res latency].
  destruct res as [| |result]; [done..|].
  destruct (truthy result) as [hex|].
  - destruct (decodeAggregate3 (Some hex)) as [names|] eqn:Hd; [|done].
    intros [= _ <-] (i & a & Ha & -> & [Hv _]%truthy_some)%collectNames_keys.
    destruct (names !! i) as [x|] eqn:Hi; [|done]. cbn in Hv. subst x.
    apply list_elem_of_lookup_2 in Hi.
    destruct (decodeAggregate3_slots _ _ _ Hd Hi) as (data & j & Hj).
    symmetry in Hj. by apply decodeSlot_clean in Hj.
  - intros [= _ <-]. by rewrite lookup_empty.
Qed.

Lemma chunksLoop_clean (cacheOn : bool) (chunks : list (list jsstring))
    (results : gmap jsstring jsstring) (w w' : World)
    (r : Completion (gmap jsstring jsstring)) :
  cleanCache (storage w) ->
  (forall k v, results !! k = Some v -> cleanName v) ->
  chunksLoop network cacheOn chunks results w = (w', r) ->
  cleanCache (storage w')
  /\ forall res k v, r = Normal res -> res !! k = Some v -> cleanName v.
Proof.
  revert results w. induction chunks as [|chunk rest IH]; intros results w Hc Hr.
  - cbn [chunksLoop]. intros [= <- <-]. split; [done|].
    intros res k v [= <-]. apply Hr.
  - cbn [chunksLoop].
    pose proof (resolveViaRPC_world network chunk w) as Hw.
    destruct (resolveViaRPC network chunk w) as [w1 [fresh|e]] eqn:Hrpc;
      cbn [fst] in Hw; subst w1; [|by intros [= <- <-]].
    apply IH.
    + destruct cacheOn; [|done]. cbn [storageSet storage afterCall].
      intros k e v [He|[_ He]]%lookup_union_Some_raw Hn; [|by eapply Hc].
      apply toStore_some in He as (a & _ & _ & ->). cbn [entry_n] in Hn.
      apply truthy_some in Hn as [Hn _]. by eapply resolveViaRPC_clean.
    + intros k v [Hf|[_ Hres]]%lookup_union_Some_raw; [|by eapply Hr].
      by eapply resolveViaRPC_clean.
Qed.

(** X11: Sanitized names are an invariant of the cache: when every name the
    cache holds is sanitized, so is every name an invocation returns,
    whether it came from the cache or from the network, and every name the
    cache holds afterwards, whatever the network answered. *)
Theorem sanitized_names_invariant (addresses : list jsstring)
    (w w' : World) (r : Completion (gmap jsstring jsstring)) :
  cleanCache (storage w) ->
  resolveAddresses stored network addresses w = (w', r) ->
  cleanCache (storage w')
  /\ forall res k v, r = Normal res -> res !! k = Some v -> cleanName v.
Proof.
  intros Hc H.
  assert (forall k v, cachedNames stored addresses w !! k = Some v -> cleanName v)
    as Hcached.
  { unfold cachedNames. destruct (cacheEnabled stored); [|by intros k v].
    intros k v (a & e & _ & _ & He & _ & [Hn _]%truthy_some)%cacheRead_results.
    by eapply Hc. }
  apply resolveAddresses_chunks in H as [[-> Hr]|(chunks & _ & Hloop)].
  - split; [done|]. intros res k v ->.
    destruct Hr as [[= ->]|[e [=]]]. apply Hcached.
  - by eapply chunksLoop_clean.
Qed.

Lemma chunksLoop_entries (chunks : list (list jsstring))
    (results res : gmap jsstring jsstring) (w w' : World) (t0 : Z) (a : jsstring) :
  (forall k, 0 <= snd (network k)) ->
  chunksLoop network true chunks results w = (w', Normal res) ->
  t0 <= now w ->
  (exists c, c ∈ chunks /\ a ∈ c)
  \/ (exists e, storage w !! cacheKey a = Some e /\ t0 <= entry_t e) ->
  exists e, storage w' !! cacheKey a = Some e /\ t0 <= entry_t e.
Proof.
  intros Hlat. revert results w.
  induction chunks as [|chunk rest IH]; intros results w.
  - cbn [chunksLoop]. intros [= <- <-] _ [(c & Hc & _)|H]; [|done].
    by apply elem_of_nil in Hc.
  - cbn [chunksLoop].
    pose proof (resolveViaRPC_world network chunk w) as Hw.
    destruct (resolveViaRPC network chunk w) as [w1 [fresh|e]];
      cbn [fst] in Hw; subst w1; [|done].
    intros Hloop Ht0 Ha. pose proof (Hlat (length (fetched w))) as Hl.
    apply (IH _ _ Hloop); [cbn [storageSet now afterCall]; lia|].
    cbn [storageSet storage now afterCall].
    destruct (decide (a ∈ chunk)) as [Hin|Hout].
    + right. eexists. split.
      * apply lookup_union_Some_l. by apply toStore_lookup.
      * cbn [entry_t]. lia.
    + destruct Ha as [(c & [->|Hc]%elem_of_cons & Hac)|(e & He & Hte)];
        [done|left; by exists c|].
      right.
      destruct (toStore chunk fresh (now w + snd (network (length (fetched w))))
                  !! cacheKey a) as [e'|] eqn:Hs.
      * exists e'. split; [by apply lookup_union_Some_l|].
        apply toStore_some in Hs as (b & _ & _ & ->). cbn [entry_t]. lia.
      * exists e. split; [|done]. by rewrite lookup_union_r.
Qed.

(** X12: What a successful invocation asked the network for is in the cache
    afterwards, with or without a name: as long as the storage is not
    changed, no invocation that reads the cache within the TTL of the
    first one's start asks for that address again. *)
Theorem resolved_address_not_asked_again (addresses : list jsstring)
    (w w' : World) (res : gmap jsstring jsstring) (a : jsstring) :
  cacheEnabled stored = true ->
  1 <= maxBatchSize stored ->
  (forall k, 0 <= snd (network k)) ->
  resolveAddresses stored network addresses w = (w', Normal res) ->
  a ∈ uncachedOf stored addresses w ->
  forall (later : list jsstring) (w2 : World),
    storage w2 = storage w' ->
    now w2 - now w < cacheTtlMinutes stored * 60 * 1000 ->
    a ∉ uncachedOf stored later w2.
Proof.
  intros Hon Hm Hlat Hrun Ha later w2 Hst Hnow.
  assert (exists e, storage w' !! cacheKey a = Some e /\ now w <= entry_t e)
    as (e & He & Hte).
  { revert Hrun. rewrite resolveAddresses_cases.
    destruct (chunkLoop_spec (uncachedOf stored addresses w) (maxBatchSize stored)
                (length (uncachedOf stored addresses w)) 0 [] Hm ltac:(lia) ltac:(lia))
      as (chunks & -> & Hcat & _). cbn [app]. rewrite drop_0 in Hcat.
    destruct (uncachedOf stored addresses w) as [|a0 u] eqn:Hu;
      [by apply elem_of_nil in Ha|].
    rewrite Hon. intros Hloop.
    apply (chunksLoop_entries _ _ _ _ _ (now w) a Hlat Hloop); [lia|].
    left. rewrite <- Hcat in Ha. apply list_elem_of_In, in_concat in Ha as (c & Hc & Hac).
    exists c. split; by apply list_elem_of_In. }
  unfold uncachedOf, misses. rewrite Hon. intros Hin.
  apply list_elem_of_In, filter_In in Hin as [_ Hin].
  unfold isFresh in Hin. rewrite Hst, He in Hin.
  rewrite (proj2 (Z.ltb_lt _ _)) in Hin; [done|]. unfold cacheTtlMs. lia.
Qed.

Lemma resolveAddresses_lastRpcTime (addresses : list jsstring) (w : World) :
  lastRpcTime (fst (resolveAddresses stored network addresses w)) = lastRpcTime w.
Proof.
  destruct (resolveAddresses stored network addresses w) as [w' r] eqn:H.
  apply resolveAddresses_chunks in H as [[-> _]|(chunks & _ & Hloop)]; [done|].
  by apply chunksLoop_calls in Hloop as (j & _ & _ & _ & Hlast).
Qed.

(** X13: Every invocation restarts the cooldown, also one that is served from
    the cache and makes no transport call: afterwards [lastRpcTime] is the
    time the invocation started at, which is the time of the message or,
    when that came too early, the end of the previous cooldown. *)
Theorem every_invocation_restarts_cooldown (addresses : list jsstring)
    (w : World) :
  lastRpcTime (fst (resolveWithCooldown stored network addresses w))
  = Z.max (now w) (lastRpcTime w + rpcCooldownMs stored).
Proof.
  unfold resolveWithCooldown. rewrite resolveAddresses_lastRpcTime.
  cbn [lastRpcTime]. unfold waitForCooldown.
  destruct (Z.ltb_spec (now w - lastRpcTime w) (rpcCooldownMs stored));
    cbn [now]; lia.
Qed.

Lemma chunksLoop_log (cacheOn : bool) (chunks : list (list jsstring))
    (results : gmap jsstring jsstring) (w w' : World)
    (r : Completion (gmap jsstring jsstring)) :
  chunksLoop network cacheOn chunks results w = (w', r) ->
  exists calls, fetched w' = fetched w ++ calls
    /\ Forall (fun c => call_addresses c ∈ chunks
                        /\ call_data c = encodeMulticall (call_addresses c)) calls.
Proof.
  revert results w. induction chunks as [|chunk rest IH]; intros results w.
  - cbn [chunksLoop]. intros [= <- <-]. exists []. by rewrite app_nil_r.
  - cbn [chunksLoop].
    pose proof (resolveViaRPC_world network chunk w) as Hw.
    destruct (resolveViaRPC network chunk w) as [w1 [fresh|e]];
      cbn [fst] in Hw; subst w1.
    + intros (calls & Hf & Hall)%IH.
      exists (mkCall (now w) chunk (encodeMulticall chunk) :: calls). split.
      * rewrite Hf. destruct cacheOn; cbn [storageSet fetched afterCall];
          by rewrite <- app_assoc.
      * constructor; [split; [by left|done]|].
        eapply Forall_impl; [exact Hall|]. intros c [Hc Hd]. split; [by right|done].
    + intros [= <- <-]. exists [mkCall (now w) chunk (encodeMulticall chunk)].
      split; [done|]. constructor; [|done]. split; [by left|done].
Qed.

(** X14: The listener lets nothing unchecked reach the network: every
    transport call it causes carries the calldata of its batch, and every
    address of a batch is an element of the message that passed
    [VALID_ADDR]. *)
Theorem listener_sends_only_valid_addresses (message : list jsstring)
    (w : World) :
  exists calls,
    fetched (fst (onResolve stored network message w)) = fetched w ++ calls
    /\ Forall (fun c =>
                 call_data c = encodeMulticall (call_addresses c)
                 /\ Forall (fun a => a ∈ message /\ VALID_ADDR a = true)
                      (call_addresses c)) calls.
Proof.
  assert (exists calls : list Call, fetched w = fetched w ++ calls
            /\ Forall (fun c =>
                 call_data c = encodeMulticall (call_addresses c)
                 /\ Forall (fun a => a ∈ message /\ VALID_ADDR a = true)
                      (call_addresses c)) calls) as Hnone.
  { exists []. by rewrite app_nil_r. }
  unfold onResolve.
  destruct (List.filter VALID_ADDR message) as [|a0 l] eqn:Hf; [done|].
  rewrite <- Hf. clear a0 l Hf.
  set (addresses := List.filter VALID_ADDR message).
  assert (forall w0 : World, fetched w0 = fetched w ->
            exists calls,
              fetched (fst (resolveAddresses stored network addresses w0))
              = fetched w ++ calls
              /\ Forall (fun c =>
                   call_data c = encodeMulticall (call_addresses c)
                   /\ Forall (fun a => a ∈ message /\ VALID_ADDR a = true)
                        (call_addresses c)) calls) as Hres.
  { intros w0 Hw0.
    destruct (resolveAddresses stored network addresses w0) as [w' r] eqn:H.
    cbn [fst].
    apply resolveAddresses_chunks in H as [[-> _]|(chunks & Hsub & Hloop)];
      [by rewrite Hw0|].
    apply chunksLoop_log in Hloop as (calls & Hfe & Hall).
    exists calls. rewrite <- Hw0. split; [done|].
    eapply Forall_impl; [exact Hall|]. intros c [Hc Hd]. split; [done|].
    apply Forall_forall. intros a Ha.
    pose proof (uncachedOf_subset _ _ _ (Hsub _ _ Hc Ha)) as Hin.
    apply list_elem_of_In, filter_In in Hin as [Hin Hv].
    split; [by apply list_elem_of_In|done]. }
  unfold resolveWithCooldown.
  set (w0 := {| storage := _; now := _; lastRpcTime := _; fetched := _ |}).
  destruct (Hres w0) as (calls & Hfe & Hall).
  { unfold w0, waitForCooldown. cbn [fetched]. by destruct (_ <? _). }
  exists calls.
  destruct (resolveAddresses stored network addresses w0) as [w' [nameMap|e]];
    done.
Qed.

Lemma isHexDigit_lowerUnit (c : N) : isHexDigit (lowerUnit c) = isHexDigit c.
Proof.
  unfold isHexDigit, lowerUnit.
  destruct ((65 <=? c)%N && (c <=? 90)%N) eqn:E; [|reflexivity].
  apply andb_true_iff in E as [E1 E2]. apply N.leb_le in E1, E2.
  apply eq_true_iff_eq. rewrite !orb_true_iff, !andb_true_iff, !N.leb_le. lia.
Qed.

Lemma VALID_ADDR_toLowerCase (a : jsstring) :
  VALID_ADDR a = true -> VALID_ADDR (toLowerCase a) = true.
Proof.
  destruct a as [|c0 [|c1 body]]; [done|done|].
  unfold toLowerCase. cbn [List.map VALID_ADDR]. rewrite length_map.
  intros [[[->%N.eqb_eq ->%N.eqb_eq]%andb_true_iff Hlen]%andb_true_iff
          Hhex]%andb_true_iff.
  rewrite Hlen.
  assert (forallb isHexDigit (List.map lowerUnit body) = forallb isHexDigit body)
    as ->.
  { clear. induction body as [|c body IH]; [done|].
    cbn [List.map forallb]. by rewrite IH, isHexDigit_lowerUnit. }
  by rewrite Hhex.
Qed.

Lemma chunksLoop_nonempty (cacheOn : bool) (chunks : list (list jsstring))
    (results res : gmap jsstring jsstring) (w w' : World) (k v : jsstring) :
  (forall k v, results !! k = Some v -> v <> []) ->
  chunksLoop network cacheOn chunks results w = (w', Normal res) ->
  res !! k = Some v -> v <> [].
Proof.
  revert results w. induction chunks as [|chunk rest IH]; intros results w Hr.
  - cbn [chunksLoop]. intros [= <- <-]. apply Hr.
  - cbn [chunksLoop].
    destruct (resolveViaRPC network chunk w) as [w1 [fresh|e]] eqn:Hrpc; [|done].
    apply IH. intros k' v' [Hf|[_ Hres]]%lookup_union_Some_raw; [|by eapply Hr].
    pose proof (resolveViaRPC_clean _ _ _ _ _ _ Hrpc Hf) as [_ Hlen].
    intros ->. cbn in Hlen. lia.
Qed.

(** X15: The listener answers about what it was asked, in the form it keys
    by: every key of the mapping it sends back is the lower-case form of an
    element of the message that passed [VALID_ADDR], is itself a valid
    address, and is mapped to a name that is not empty. *)
Theorem reply_maps_valid_addresses_to_names (message : list jsstring)
    (w : World) (k v : jsstring) :
  snd (onResolve stored network message w) !! k = Some v ->
  (exists a, a ∈ message /\ VALID_ADDR a = true /\ k = toLowerCase a)
  /\ VALID_ADDR k = true /\ v <> [].
Proof.
  unfold onResolve.
  destruct (List.filter VALID_ADDR message) as [|a0 l] eqn:Hf;
    [cbn [snd]; by rewrite lookup_empty|].
  rewrite <- Hf. clear a0 l Hf.
  set (addresses := List.filter VALID_ADDR message).
  unfold resolveWithCooldown.
  set (w0 := {| storage := _; now := _; lastRpcTime := _; fetched := _ |}).
  destruct (resolveAddresses stored network addresses w0) as [w' [res|e]] eqn:H;
    cbn [snd]; [|by rewrite lookup_empty].
  intros Hk.
  assert ((exists a, a ∈ addresses /\ k = toLowerCase a) /\ v <> [])
    as [(a & Ha & ->) Hv].
  { assert (forall k v, cachedNames stored addresses w0 !! k = Some v ->
              (exists a, a ∈ addresses /\ k = toLowerCase a) /\ v <> [])
      as Hcached.
    { unfold cachedNames. destruct (cacheEnabled stored);
        [|intros k' v'; by rewrite lookup_empty].
      intros k' v'
        (a & e & Ha & -> & _ & _ & [_ Hn]%truthy_some)%cacheRead_results.
      split; [by exists a|done]. }
    apply resolveAddresses_chunks in H as [[-> Hr]|(chunks & Hsub & Hloop)].
    - destruct Hr as [[= ->]|[e [=]]]. by apply Hcached.
    - split.
      + destruct (chunksLoop_results _ _ _ _ _ _ _ _ _ Hloop Hk)
          as [Hc|(c & a & Hc & Ha & ->)]; [by apply Hcached in Hc as [? _]|].
        exists a. split; [|done]. eapply uncachedOf_subset. by eapply Hsub.
      + eapply chunksLoop_nonempty; [|exact Hloop|exact Hk].
        intros k' v' Hc. by apply Hcached in Hc as [_ ?]. }
  apply list_elem_of_In, filter_In in Ha as [Ha Hvalid].
  split; [exists a; split; [by apply list_elem_of_In|done]|].
  split; [by apply VALID_ADDR_toLowerCase|done].
Qed.

End CacheInvariants.

(** * The invariants on concrete runs *)

Section InvariantRuns.
Import JS Background.

Lemma steady_latency (k : nat) : 0 <= snd (steady k).
Proof. destruct k; cbn; lia. Qed.

Lemma resolveAddresses_storage_frame_witness :
  let run := resolveAddresses WNS_DEFAULTS steady [nthAddress 2] world1 in
  (cacheEnabled WNS_DEFAULTS = false -> storage (fst run) = storage world1)
  /\ forall k, (forall a, a ∈ [nthAddress 2] -> cacheKey a <> k) ->
               storage (fst run) !! k = storage world1 !! k.
Proof.
  exact (resolveAddresses_storage_frame WNS_DEFAULTS steady [nthAddress 2] world1
           _ _ (surjective_pairing _)).
Defined.

Lemma sanitized_names_invariant_witness :
  let run := resolveAddresses WNS_DEFAULTS steady [nthAddress 1] world0 in
  cleanCache (storage (fst run))
  /\ forall res k v, snd run = Normal res -> res !! k = Some v -> cleanName v.
Proof.
  apply (sanitized_names_invariant WNS_DEFAULTS steady [nthAddress 1] world0).
  - intros k e v H. unfold world0 in H. cbn [storage] in H.
    by rewrite lookup_empty in H.
  - apply surjective_pairing.
Defined.

Lemma resolved_address_not_asked_again_witness :
  let run := resolveAddresses WNS_DEFAULTS steady [nthAddress 1] world0 in
  nthAddress 1
  ∉ uncachedOf WNS_DEFAULTS [nthAddress 1; nthAddress 2]
      (mkWorld (storage (fst run)) 2000000 1000000 []).
Proof.
  intros run.
  apply (resolved_address_not_asked_again WNS_DEFAULTS steady [nthAddress 1]
           world0 (fst run)
           match snd run with Normal res => res | Throw _ => ∅ end).
  - reflexivity.
  - cbn. lia.
  - apply steady_latency.
  - by vm_compute.
  - assert (uncachedOf WNS_DEFAULTS [nthAddress 1] world0 = [nthAddress 1]) as ->
      by reflexivity.
    left.
  - reflexivity.
  - cbn. lia.
Defined.

Lemma reply_maps_valid_addresses_to_names_witness :
  (exists a, a ∈ [str "0x12"; nthAddress 1] /\ VALID_ADDR a = true
             /\ toLowerCase (nthAddress 1) = toLowerCase a)
  /\ VALID_ADDR (toLowerCase (nthAddress 1)) = true /\ str "alice.wei" <> [].
Proof.
  apply (reply_maps_valid_addresses_to_names WNS_DEFAULTS steady
           [str "0x12"; nthAddress 1] world0).
  by vm_compute.
Defined.

End InvariantRuns.

(** * A call that throws, and an address that came back without a name *)

Section FailureAndNegativeCache.
Import JS Background.

Variable stored : Config.
Variable network : nat -> Response * Z.

Lemma resolveViaRPC_answers (chunk : list jsstring) (w : World) :
  if answers (fst (network (length (fetched w))))
  then exists fresh,
         resolveViaRPC network chunk w = (afterCall network chunk w, Normal fresh)
  else exists e,
         resolveViaRPC network chunk w = (afterCall network chunk w, Throw e).
Proof.
  unfold resolveViaRPC, afterCall, answers.
  destruct (network (length (fetched w))) as [res latency]. cbn [fst snd].
  destruct res as [| |result]; [by eexists..|].
  destruct (truthy result) as [hex|]; [|by eexists].
  destruct (decodeAggregate3 (Some hex)); by eexists.
Qed.

Lemma chunksLoop_app (cacheOn : bool) (pre rest : list (list jsstring))
    (results : gmap jsstring jsstring) (w : World) :
  chunksLoop network cacheOn (pre ++ rest) results w
  = match chunksLoop network cacheOn pre results w with
    | (w1, Normal r1) => chunksLoop network cacheOn rest r1 w1
    | (w1, Throw e) => (w1, Throw e)
    end.
Proof.
  revert results w. induction pre as [|chunk pre IH]; intros results w.
  - reflexivity.
  - cbn [app chunksLoop].
    destruct (resolveViaRPC network chunk w) as [w1 [fresh|e]]; [|done].
    apply IH.
Qed.

Lemma chunksLoop_answered (cacheOn : bool) (pre : list (list jsstring))
    (results : gmap jsstring jsstring) (w : World) :
  (forall i : nat, (i < length pre)%nat ->
     answers (fst (network (length (fetched w) + i))) = true) ->
  exists w1 r1,
    chunksLoop network cacheOn pre results w = (w1, Normal r1)
    /\ length (fetched w1) = (length (fetched w) + length pre)%nat.
Proof.
  revert results w. induction pre as [|chunk pre IH]; intros results w Hall.
  - exists w, results. split; [done|]. cbn. lia.
  - cbn [chunksLoop].
    pose proof (resolveViaRPC_answers chunk w) as Hrpc.
    specialize (Hall O ltac:(cbn; lia)) as H0. rewrite Nat.add_0_r in H0.
    rewrite H0 in Hrpc. destruct Hrpc as [fresh ->].
    set (w2 := if cacheOn then _ else _).
    assert (length (fetched w2) = S (length (fetched w))) as Hlen.
    { unfold w2. destruct cacheOn; cbn [storageSet fetched afterCall];
        rewrite length_app; cbn; lia. }
    destruct (IH (fresh ∪ results) w2) as (w1 & r1 & Hloop & Hf).
    { intros i Hi. rewrite Hlen.
      replace (S (length (fetched w)) + i)%nat with (length (fetched w) + S i)%nat
        by lia.
      apply Hall. cbn [length]. lia. }
    exists w1, r1. split; [done|]. rewrite Hf, Hlen. cbn [length]. lia.
Qed.

Lemma resolveWithCooldown_started (addresses : list jsstring) (w : World) :
  resolveWithCooldown stored network addresses w
  = resolveAddresses stored network addresses (started stored w).
Proof. reflexivity. Qed.

Lemma started_keeps (w : World) :
  storage (started stored w) = storage w
  /\ fetched (started stored w) = fetched w.
Proof.
  unfold started, waitForCooldown. cbv zeta. by destruct (_ <? _).
Qed.

(** C6 as the code has it. When the call of a chunk throws (the request
    is rejected, the body is not JSON, or decoding the result throws) after
    the calls of the chunks before it were answered, the invocation throws:
    the chunk and the chunks before it are the calls made, so no later chunk
    is asked for; nothing is written to the cache under a key that belongs
    to no earlier chunk, so the addresses of the failed chunk are not
    cached; the earlier chunks stay cached, with entries of this invocation;
    and the listener answers the message with the empty mapping, in which
    the names of the earlier chunks and of the cache hits are missing
    too. *)
Theorem chunk_failure_semantics (message : list jsstring) (w : World)
    (chunks : list (list jsstring)) (j : nat) (failing : list jsstring) :
  let addresses := List.filter VALID_ADDR message in
  let uncached := uncachedOf stored addresses (started stored w) in
  chunkLoop (length uncached) uncached (maxBatchSize stored) 0 [] = Normal chunks ->
  chunks !! j = Some failing ->
  (forall i : nat, (i < j)%nat ->
     answers (fst (network (length (fetched w) + i))) = true) ->
  answers (fst (network (length (fetched w) + j))) = false ->
  exists w' e,
    resolveWithCooldown stored network addresses w = (w', Throw e)
    /\ onResolve stored network message w = (w', ∅)
    /\ List.map call_addresses (fetched w')
       = List.map call_addresses (fetched w) ++ take (S j) chunks
    /\ (forall k,
          (forall c a, c ∈ take j chunks -> a ∈ c -> cacheKey a <> k) ->
          storage w' !! k = storage w !! k)
    /\ (cacheEnabled stored = true ->
        (forall k, 0 <= snd (network k)) ->
        forall c a, c ∈ take j chunks -> a ∈ c ->
          exists entry,
            storage w' !! cacheKey a = Some entry
            /\ now (started stored w) <= entry_t entry).
Proof.
  intros addresses uncached Hchunks Hj Hbefore Hfail.
  destruct (started_keeps w) as [Hst Hfe].
  pose proof (lookup_lt_Some _ _ _ Hj) as Hlt.
  assert (length (take j chunks) = j) as Hpre by (rewrite length_take; lia).
  destruct (chunksLoop_answered (cacheEnabled stored) (take j chunks)
              (cachedNames stored addresses (started stored w))
              (started stored w))
    as (w1 & r1 & Hloop & Hlen).
  { intros i Hi. rewrite Hfe. apply Hbefore. lia. }
  rewrite Hpre, Hfe in Hlen.
  pose proof (resolveViaRPC_answers failing w1) as Hrpc.
  rewrite Hlen, Hfail in Hrpc. destruct Hrpc as [e Hrpc].
  assert (chunksLoop network (cacheEnabled stored) chunks
            (cachedNames stored addresses (started stored w)) (started stored w)
          = (afterCall network failing w1, Throw e)) as Hrun.
  { rewrite <- (take_drop_middle chunks j failing Hj) at 1.
    rewrite chunksLoop_app, Hloop. cbn [chunksLoop]. by rewrite Hrpc. }
  assert (resolveWithCooldown stored network addresses w
          = (afterCall network failing w1, Throw e)) as Hthrow.
  { rewrite resolveWithCooldown_started, resolveAddresses_cases.
    fold uncached. rewrite Hchunks.
    destruct uncached as [|a0 u]; [|done].
    cbn in Hchunks. injection Hchunks as <-. done. }
  exists (afterCall network failing w1), e.
  split; [done|]. split; [|split; [|split]].
  - unfold onResolve. fold addresses.
    destruct addresses as [|a0 l] eqn:Ha; [|by rewrite Hthrow].
    exfalso. unfold uncached in Hchunks.
    assert (uncachedOf stored [] (started stored w) = []) as Hnil
      by (unfold uncachedOf, misses; by destruct (cacheEnabled stored)).
    rewrite Hnil in Hchunks. cbn in Hchunks. by injection Hchunks as <-.
  - apply chunksLoop_calls in Hloop as (j' & Hcalls & _ & Hall & _).
    rewrite (Hall r1 eq_refl), take_ge, Hfe in Hcalls by lia.
    cbn [afterCall fetched]. rewrite List.map_app, Hcalls. cbn [List.map call_addresses].
    rewrite <- app_assoc. f_equal. by rewrite (take_S_r _ _ _ Hj).
  - intros k Hk. cbn [afterCall storage].
    apply chunksLoop_storage in Hloop as [_ Hframe].
    by rewrite (Hframe k Hk), Hst.
  - intros Hon Hlat c a Hc Ha. cbn [afterCall storage]. rewrite Hon in Hloop.
    apply (chunksLoop_entries network _ _ _ _ _ (now (started stored w)) a Hlat Hloop);
      [lia|].
    left. by exists c.
Qed.

Lemma chunksLoop_keeps (cacheOn : bool) (chunks : list (list jsstring))
    (results res : gmap jsstring jsstring) (w w' : World) (k : jsstring) :
  chunksLoop network cacheOn chunks results w = (w', Normal res) ->
  res !! k = None -> results !! k = None.
Proof.
  revert results w. induction chunks as [|chunk rest IH]; intros results w.
  - cbn [chunksLoop]. by intros [= <- <-].
  - cbn [chunksLoop].
    destruct (resolveViaRPC network chunk w) as [w1 [fresh|e]]; [|done].
    intros Hloop Hk. specialize (IH _ _ Hloop Hk).
    by apply lookup_union_None in IH as [_ ?].
Qed.

Lemma chunksLoop_null_entries (chunks : list (list jsstring))
    (results res : gmap jsstring jsstring) (w w' : World) (t0 : Z)
    (a : jsstring) :
  (forall k, 0 <= snd (network k)) ->
  chunksLoop network true chunks results w = (w', Normal res) ->
  res !! toLowerCase a = None ->
  t0 <= now w ->
  (exists c, c ∈ chunks /\ a ∈ c)
  \/ (exists e, storage w !! cacheKey a = Some e
                /\ entry_n e = None /\ t0 <= entry_t e) ->
  exists e, storage w' !! cacheKey a = Some e
            /\ entry_n e = None /\ t0 <= entry_t e.
Proof.
  intros Hlat. revert results w.
  induction chunks as [|chunk rest IH]; intros results w.
  - cbn [chunksLoop]. intros [= <- <-] _ _ [(c & Hc & _)|H]; [|done].
    by apply elem_of_nil in Hc.
  - cbn [chunksLoop].
    pose proof (resolveViaRPC_world network chunk w) as Hw.
    destruct (resolveViaRPC network chunk w) as [w1 [fresh|e]];
      cbn [fst] in Hw; subst w1; [|done].
    intros Hloop Hres Ht0 Ha. pose proof (Hlat (length (fetched w))) as Hl.
    assert (fresh !! toLowerCase a = None) as Hfresh.
    { pose proof (chunksLoop_keeps _ _ _ _ _ _ _ Hloop Hres) as Hu.
      by apply lookup_union_None in Hu as [? _]. }
    apply (IH _ _ Hloop Hres); [cbn [storageSet now afterCall]; lia|].
    cbn [storageSet storage now afterCall].
    destruct (decide (a ∈ chunk)) as [Hin|Hout].
    + right. eexists. split; [|split].
      * apply lookup_union_Some_l. by apply toStore_lookup.
      * cbn [entry_n]. by rewrite Hfresh.
      * cbn [entry_t]. lia.
    + destruct Ha as [(c & [->|Hc]%elem_of_cons & Hac)|(e & He & Hn & Hte)];
        [done|left; by exists c|].
      right.
      destruct (toStore chunk fresh (now w + snd (network (length (fetched w))))
                  !! cacheKey a) as [e'|] eqn:Hs.
      * exists e'. split; [by apply lookup_union_Some_l|].
        apply toStore_some in Hs as (b & _ & Hk%cacheKey_inj & ->).
        cbn [entry_n entry_t]. rewrite <- Hk, Hfresh. split; [done|lia].
      * exists e. split; [|done]. by rewrite lookup_union_r.
Qed.

Lemma fresh_null_entry_is_hit (addresses : list jsstring) (w : World)
    (addr : jsstring) (entry : CacheEntry) :
  cacheEnabled stored = true ->
  storage w !! cacheKey addr = Some entry ->
  now w - entry_t entry < cacheTtlMinutes stored * 60 * 1000 ->
  entry_n entry = None ->
  forall w' r,
    resolveAddresses stored network addresses w = (w', r) ->
    (exists batches,
       List.map call_addresses (fetched w')
         = List.map call_addresses (fetched w) ++ batches
       /\ forall b a, b ∈ batches -> a ∈ b ->
            toLowerCase a <> toLowerCase addr)
    /\ forall res, r = Normal res -> res !! toLowerCase addr = None.
Proof.
  intros Hon Hentry Hfresh Hnull.
  pose proof (uncachedOf_not_fresh stored addresses w addr entry Hon Hentry Hfresh) as Hunc.
  assert (cachedNames stored addresses w !! toLowerCase addr = None) as Hcached.
  { destruct (cachedNames stored addresses w !! toLowerCase addr) as [v|] eqn:E; [|done].
    unfold cachedNames in E. rewrite Hon in E.
    apply cacheRead_results in E as (a & e & _ & Hk & He & _ & Hn).
    apply cacheKey_inj in Hk. rewrite <- Hk, Hentry in He.
    injection He as <-. by rewrite Hnull in Hn. }
  intros w' r. rewrite resolveAddresses_cases.
  destruct (uncachedOf stored addresses w) as [|a0 u] eqn:Hu.
  { intros [= <- <-]. split; [|by intros res [= <-]].
    exists []. split; [by rewrite app_nil_r|]. intros b a Hb. by apply elem_of_nil in Hb. }
  destruct (chunkLoop _ _ _ _ _) as [chunks|e] eqn:Hchunks.
  2:{ intros [= <- <-]. split; [|done].
      exists []. split; [by rewrite app_nil_r|]. intros b a Hb. by apply elem_of_nil in Hb. }
  assert (forall c a, c ∈ chunks -> a ∈ c -> toLowerCase a <> toLowerCase addr) as Hin.
  { intros c a Hc Ha. apply Hunc.
    destruct (chunkLoop_elem _ _ _ _ _ _ Hchunks c Hc) as [Hnil|Hall];
      [by apply elem_of_nil in Hnil|by apply Hall]. }
  intros H. split.
  - apply chunksLoop_calls in H as (j & Hcalls & _).
    exists (take j chunks). split; [done|].
    intros b a Hb Ha. apply (Hin b a); [|done].
    apply elem_of_take in Hb as (i & Hb & _). by eapply list_elem_of_lookup_2.
  - intros res ->.
    destruct (res !! toLowerCase addr) as [v|] eqn:E; [|done].
    destruct (chunksLoop_results _ _ _ _ _ _ _ _ _ H E) as [Hc|(c & a & Hc & Ha & Hk)].
    + by rewrite Hcached in Hc.
    + exfalso. by apply (Hin c a).
Qed.

(** C8: with the cache enabled, an address whose entry is fresh and has
    a null name is a hit: no transport call of the invocation carries it,
    and it is absent from the mapping the invocation returns. And an
    invocation that asked the network for an address and returned without a
    name for it leaves exactly such an entry, with a time of this
    invocation: every invocation that reads this entry less than the TTL
    after that time makes no transport call for the address and returns a
    mapping without it. *)
Theorem negative_cache_hit :
  cacheEnabled stored = true ->
  (forall addresses w addr entry,
     storage w !! cacheKey addr = Some entry ->
     now w - entry_t entry < cacheTtlMinutes stored * 60 * 1000 ->
     entry_n entry = None ->
     forall w' r,
       resolveAddresses stored network addresses w = (w', r) ->
       (exists batches,
          List.map call_addresses (fetched w')
            = List.map call_addresses (fetched w) ++ batches
          /\ forall b a, b ∈ batches -> a ∈ b ->
               toLowerCase a <> toLowerCase addr)
       /\ forall res, r = Normal res -> res !! toLowerCase addr = None)
  /\ (forall first w0 w1 res1 addr,
        1 <= maxBatchSize stored ->
        (forall k, 0 <= snd (network k)) ->
        resolveAddresses stored network first w0 = (w1, Normal res1) ->
        addr ∈ uncachedOf stored first w0 ->
        res1 !! toLowerCase addr = None ->
        exists entry,
          storage w1 !! cacheKey addr = Some entry
          /\ entry_n entry = None /\ now w0 <= entry_t entry
          /\ forall addresses w2 w' r,
               storage w2 !! cacheKey addr = Some entry ->
               now w2 - entry_t entry < cacheTtlMinutes stored * 60 * 1000 ->
               resolveAddresses stored network addresses w2 = (w', r) ->
               (exists batches,
                  List.map call_addresses (fetched w')
                    = List.map call_addresses (fetched w2) ++ batches
                  /\ forall b a, b ∈ batches -> a ∈ b ->
                       toLowerCase a <> toLowerCase addr)
               /\ forall res, r = Normal res ->
                              res !! toLowerCase addr = None).
Proof.
  intros Hon. split.
  - intros addresses w addr entry Hentry Hfresh Hnull.
    by apply (fresh_null_entry_is_hit addresses w addr entry).
  - intros first w0 w1 res1 addr Hm Hlat Hrun Hasked Hnone.
    assert (exists entry, storage w1 !! cacheKey addr = Some entry
                          /\ entry_n entry = None /\ now w0 <= entry_t entry)
      as (entry & Hentry & Hnull & Ht).
    { revert Hrun. rewrite resolveAddresses_cases.
      destruct (chunkLoop_spec (uncachedOf stored first w0) (maxBatchSize stored)
                  (length (uncachedOf stored first w0)) 0 [] Hm ltac:(lia) ltac:(lia))
        as (chunks & -> & Hcat & _). cbn [app]. rewrite drop_0 in Hcat.
      destruct (uncachedOf stored first w0) as [|a0 u] eqn:Hu;
        [by apply elem_of_nil in Hasked|].
      rewrite Hon. intros Hloop.
      apply (chunksLoop_null_entries _ _ _ _ _ (now w0) addr Hlat Hloop Hnone);
        [lia|].
      left. rewrite <- Hcat in Hasked.
      apply list_elem_of_In, in_concat in Hasked as (c & Hc & Hac).
      exists c. split; by apply list_elem_of_In. }
    exists entry. repeat (split; [done|]).
    intros addresses w2 w' r Hsame Hnow.
    by apply (fresh_null_entry_is_hit addresses w2 addr entry Hon).
Qed.

End FailureAndNegativeCache.

(** * The failure of a chunk and the negative cache on concrete runs *)

Section FailureRuns.
Import JS Background.

Lemma chunk_failure_semantics_witness :
  exists w' e,
    resolveWithCooldown oneByOne flaky
      (List.filter VALID_ADDR [nthAddress 1; nthAddress 2]) recentWorld
    = (w', Throw e)
    /\ onResolve oneByOne flaky [nthAddress 1; nthAddress 2] recentWorld = (w', ∅)
    /\ List.map call_addresses (fetched w')
       = List.map call_addresses (fetched recentWorld)
         ++ take 2 [[nthAddress 1]; [nthAddress 2]]
    /\ (forall k,
          (forall c a, c ∈ take 1 [[nthAddress 1]; [nthAddress 2]] -> a ∈ c ->
             cacheKey a <> k) ->
          storage w' !! k = storage recentWorld !! k)
    /\ (cacheEnabled oneByOne = true ->
        (forall k, 0 <= snd (flaky k)) ->
        forall c a, c ∈ take 1 [[nthAddress 1]; [nthAddress 2]] -> a ∈ c ->
          exists entry,
            storage w' !! cacheKey a = Some entry
            /\ now (started oneByOne recentWorld) <= entry_t entry).
Proof.
  apply (chunk_failure_semantics oneByOne flaky [nthAddress 1; nthAddress 2]
           recentWorld [[nthAddress 1]; [nthAddress 2]] 1 [nthAddress 2]).
  - by vm_compute.
  - reflexivity.
  - intros i Hi. assert (i = O) as -> by lia. by vm_compute.
  - reflexivity.
Defined.

Lemma negative_cache_hit_witness :
  (let run :=
     resolveAddresses WNS_DEFAULTS steady [nthAddress 1; nthAddress 2] world1 in
   (exists batches,
      List.map call_addresses (fetched (fst run))
        = List.map call_addresses (fetched world1) ++ batches
      /\ forall b a, b ∈ batches -> a ∈ b ->
           toLowerCase a <> toLowerCase (nthAddress 1))
   /\ forall res, snd run = Normal res -> res !! toLowerCase (nthAddress 1) = None)
  /\ (let first := resolveAddresses WNS_DEFAULTS quiet [nthAddress 1] world0 in
      let later := mkWorld (storage (fst first)) 2000000 1000000 (fetched (fst first)) in
      let run :=
        resolveAddresses WNS_DEFAULTS quiet [nthAddress 1; nthAddress 2] later in
      exists entry,
        storage (fst first) !! cacheKey (nthAddress 1) = Some entry
        /\ entry_n entry = None /\ now world0 <= entry_t entry
        /\ (exists batches,
              List.map call_addresses (fetched (fst run))
                = List.map call_addresses (fetched later) ++ batches
              /\ forall b a, b ∈ batches -> a ∈ b ->
                   toLowerCase a <> toLowerCase (nthAddress 1))
        /\ forall res, snd run = Normal res ->
                       res !! toLowerCase (nthAddress 1) = None).
Proof.
  split.
  - exact (proj1 (negative_cache_hit WNS_DEFAULTS steady eq_refl)
             [nthAddress 1; nthAddress 2] world1 (nthAddress 1)
             (mkEntry None 999000)
             ltac:(vm_compute; reflexivity) ltac:(cbn; lia) eq_refl
             _ _ (surjective_pairing _)).
  - intros first later run.
    destruct (proj2 (negative_cache_hit WNS_DEFAULTS quiet eq_refl)
                [nthAddress 1] world0 (fst first)
                match snd first with Normal res => res | Throw _ => ∅ end
                (nthAddress 1)) as (entry & Hentry & Hnull & Htime & Hlater).
    + cbn. lia.
    + intros k. cbn. lia.
    + by vm_compute.
    + assert (uncachedOf WNS_DEFAULTS [nthAddress 1] world0 = [nthAddress 1]) as ->
        by reflexivity.
      left.
    + by vm_compute.
    + exists entry. repeat (split; [done|]).
      apply (Hlater [nthAddress 1; nthAddress 2] later);
        [exact Hentry|cbn in Htime |- *; lia|apply surjective_pairing].
Defined.

End FailureRuns.

(** * Clearing the cache *)

Section ClearCache.
Import JS Background.

Lemma foldr_delete_size {V} (m : gmap jsstring V) (js : list jsstring) :
  NoDup js -> (forall j, j ∈ js -> is_Some (m !! j)) ->
  (size (foldr delete m js) + length js = size m)%nat.
Proof.
  induction 1 as [|j js Hj Hnd IH]; intros Hin; [cbn; lia|].
  cbn [foldr length]. rewrite map_size_delete_Some.
  - specialize (IH (fun i Hi => Hin i ltac:(by right))).
    assert (is_Some (foldr delete m js !! j)) as [x Hx]
      by (rewrite lookup_foldr_delete_not_elem_of by done; apply Hin; by left).
    assert (size (foldr delete m js) <> 0)%nat
      by (intros Hz%map_size_empty_inv; rewrite Hz in Hx;
          by rewrite lookup_empty in Hx).
    lia.
  - rewrite lookup_foldr_delete_not_elem_of by done. apply Hin. by left.
Qed.

Lemma wnsKeys_spec {V} (m : gmap jsstring V) (k : jsstring) :
  k ∈ List.filter (fun k => startsWith k (str "wns_"))
        (List.map fst (map_to_list m))
  <-> startsWith k (str "wns_") = true /\ is_Some (m !! k).
Proof.
  rewrite list_elem_of_In, filter_In, <- list_elem_of_In.
  change (List.map fst (map_to_list m)) with ((map_to_list m).*1).
  rewrite list_elem_of_fmap. split.
  - intros [([k' v] & -> & Hkv%elem_of_map_to_list) Hs]. by split; [|exists v].
  - intros [Hs [v Hv]]. split; [|done]. exists (k, v).
    split; [done|by apply elem_of_map_to_list].
Qed.

Lemma onClearCache_lookup (w : World) (k : jsstring) :
  storage (fst (onClearCache w)) !! k
  = if startsWith k (str "wns_") then None else storage w !! k.
Proof.
  unfold onClearCache. cbn [fst storage].
  destruct (startsWith k (str "wns_")) eqn:Hs.
  - destruct (storage w !! k) as [v|] eqn:Hk.
    + apply lookup_foldr_delete, wnsKeys_spec. by split; [|exists v].
    + rewrite lookup_foldr_delete_not_elem_of; [done|].
      intros [_ [v Hv]]%wnsKeys_spec. congruence.
  - apply lookup_foldr_delete_not_elem_of.
    intros [Hs' _]%wnsKeys_spec. congruence.
Qed.

(** X16: CLEAR_CACHE removes the cache and nothing else: afterwards no key of
    the storage starts with [wns_], every other key has the value it had,
    and the number answered is the number of keys that went. *)
Theorem clear_cache_removes_the_wns_keys (w : World) (k : jsstring) :
  storage (fst (onClearCache w)) !! k
  = (if startsWith k (str "wns_") then None else storage w !! k)
  /\ Z.of_nat (size (storage w))
     = Z.of_nat (size (storage (fst (onClearCache w)))) + snd (onClearCache w).
Proof.
  split; [apply onClearCache_lookup|].
  unfold onClearCache. cbn [fst snd storage].
  - rewrite <- Nat2Z.inj_add. f_equal. symmetry. apply foldr_delete_size.
    + apply NoDup_ListNoDup, List.NoDup_filter, NoDup_ListNoDup, NoDup_fst_map_to_list.
    + by intros j [_ Hj]%wnsKeys_spec.
Qed.

Lemma startsWith_app (p s : jsstring) : startsWith (p ++ s) p = true.
Proof.
  induction p as [|c p IH]; [by destruct s|].
  cbn [app startsWith]. by rewrite N.eqb_refl, IH.
Qed.

(** X17: After CLEAR_CACHE nothing is served from the cache: whatever the
    configuration and the clock, the next invocation has no cached name and
    asks the network for every address it is given. *)
Theorem after_clear_cache_every_address_is_asked (stored : Config)
    (addresses : list jsstring) (w : World) :
  uncachedOf stored addresses (fst (onClearCache w)) = addresses
  /\ cachedNames stored addresses (fst (onClearCache w)) = ∅.
Proof.
  assert (forall a, storage (fst (onClearCache w)) !! cacheKey a = None) as Hnone.
  { intros a. rewrite onClearCache_lookup.
    unfold cacheKey. by rewrite startsWith_app. }
  split.
  - unfold uncachedOf, misses. destruct (cacheEnabled stored); [|done].
    apply forallb_filter_id, forallb_forall. intros a _.
    unfold isFresh. by rewrite Hnone.
  - unfold cachedNames. destruct (cacheEnabled stored); [|done].
    apply map_eq. intros k. rewrite lookup_empty.
    destruct (fst (cacheRead _ _ _ _) !! k) as [v|] eqn:Hk; [|done].
    apply cacheRead_results in Hk as (a & e & _ & _ & He & _).
    by rewrite Hnone in He.
Qed.

End ClearCache.

(** * What the scan of a page collects *)

Section Collect.
Import JS Content.

Variable toLowerCase : jsstring -> jsstring.
Variable ETH_RE : jsstring -> list jsstring.
Variable ABBR_RE : jsstring -> option (jsstring * jsstring).
Variable HREF_RULES : list HrefRule.
Variable newURL : jsstring -> option URL.

Lemma span_spec (p : N -> bool) (s a b : jsstring) :
  span p s = (a, b) -> s = a ++ b /\ forallb p a = true.
Proof.
  revert a b. induction s as [|c s IH]; intros a b; cbn [span].
  - by intros [= <- <-].
  - destruct (p c) eqn:Hc; [|by intros [= <- <-]].
    destruct (span p s) as [a' b']. intros [= <- <-].
    destruct (IH a' b' eq_refl) as [-> Ha]. cbn [forallb app]. by rewrite Hc, Ha.
Qed.

Lemma fullAddressAt_valid (prev : option N) (s : jsstring) :
  fullAddressAt prev s = true -> VALID_ETH_RE (take 42 s) = true.
Proof.
  unfold fullAddressAt.
  intros [[_ Hs]%andb_true_iff Hm]%andb_true_iff.
  destruct s as [|c0 [|c1 s']];
    [done|cbn in Hs; by rewrite andb_false_r in Hs|].
  cbn [startsWith str List.map list_ascii_of_string] in Hs.
  apply andb_true_iff in Hs as [H0%N.eqb_eq Hs].
  apply andb_true_iff in Hs as [H1%N.eqb_eq _].
  change (drop 2 (c0 :: c1 :: s')) with s' in Hm.
  destruct (span isHexDigit s') as [hex rest] eqn:Hsp.
  apply span_spec in Hsp as [-> Hhex].
  apply andb_true_iff in Hm as [Hlen%Nat.eqb_eq _].
  change (take 42 (c0 :: c1 :: hex ++ rest)) with (c0 :: c1 :: take 40 (hex ++ rest)).
  rewrite take_app_length' by done.
  cbn [VALID_ETH_RE]. rewrite <- H0, <- H1, Hlen, Hhex. reflexivity.
Qed.

Lemma ethScan_valid (prev : option N) (skip : nat) (s : jsstring) :
  Forall (fun a => VALID_ETH_RE a = true) (ethScan prev skip s).
Proof.
  revert prev skip. induction s as [|c s IH]; intros prev skip; [constructor|].
  cbn [ethScan]. destruct skip as [|k]; [|apply IH].
  destruct (fullAddressAt prev (c :: s)) eqn:Hm; [|apply IH].
  constructor; [by apply (fullAddressAt_valid prev)|apply IH].
Qed.

Lemma span_all (p : N -> bool) (s : jsstring) :
  forallb p s = true -> span p s = (s, []).
Proof.
  induction s as [|c s IH]; [done|]. cbn [forallb span].
  intros [-> Hs]%andb_true_iff. by rewrite (IH Hs).
Qed.

Lemma ethScan_skip (prev : option N) (skip : nat) (s : jsstring) :
  (length s <= skip)%nat -> ethScan prev skip s = [].
Proof.
  revert prev skip. induction s as [|c s IH]; intros prev skip Hlen; [done|].
  cbn [ethScan]. destruct skip as [|k]; [cbn in Hlen; lia|].
  apply IH. cbn in Hlen. lia.
Qed.

(** X18: The default pattern for full addresses and the validity check agree:
    every match of the pattern, in any text, is [0x] and 40 hex digits and
    passes [VALID_ETH_RE]; and in a text that passes [VALID_ETH_RE] the
    pattern finds one match, the text itself. *)
Theorem DEFAULT_ETH_RE_finds_addresses (text : jsstring) :
  Forall (fun a => VALID_ETH_RE a = true) (DEFAULT_ETH_RE text)
  /\ (VALID_ETH_RE text = true -> DEFAULT_ETH_RE text = [text]).
Proof.
  split; [apply ethScan_valid|].
  destruct text as [|c0 [|c1 body]]; [done..|]. cbn [VALID_ETH_RE].
  intros [[[->%N.eqb_eq ->%N.eqb_eq]%andb_true_iff Hlen%Nat.eqb_eq]%andb_true_iff
          Hhex]%andb_true_iff.
  unfold DEFAULT_ETH_RE. cbn [ethScan].
  assert (fullAddressAt None (48%N :: 120%N :: body) = true) as ->.
  { unfold fullAddressAt.
    change (drop 2 (48%N :: 120%N :: body)) with body.
    rewrite (span_all _ _ Hhex), Hlen.
    assert (startsWith (48%N :: 120%N :: body) (str "0x") = true) as ->
      by (by destruct body).
    reflexivity. }
  change (take 42 (48%N :: 120%N :: body)) with (48%N :: 120%N :: take 40 body).
  rewrite take_ge by lia. f_equal.
  apply ethScan_skip. cbn [length]. lia.
Qed.

Lemma matchAbbrToAddresses_nil (displayText : jsstring) :
  matchAbbrToAddresses toLowerCase ABBR_RE displayText [] = None.
Proof.
  unfold matchAbbrToAddresses. by destruct (ABBR_RE displayText) as [[m1 m2]|].
Qed.

(** X19: The SECONDARY match never yields an address: by the time it is
    tried the href is known to hold no full address, and it looks for the
    abbreviation among the addresses of that same href. An anchor whose href
    holds no full address and is matched by no custom rule is passed over,
    whatever its text. *)
Theorem abbreviated_text_alone_is_passed_over (anchor : Anchor) :
  allAddressesInHref toLowerCase ETH_RE (anchor_href anchor) = [] ->
  HREF_RULES = []
  \/ truthy (matchHrefRules toLowerCase HREF_RULES (anchor_href anchor)) = None ->
  linkAddress toLowerCase ETH_RE ABBR_RE HREF_RULES newURL anchor = None.
Proof.
  intros Hnone Hrules. unfold linkAddress, matchAbbrToHref. rewrite Hnone.
  rewrite matchAbbrToAddresses_nil.
  destruct Hrules as [-> | Hr]; [done|]. rewrite Hr. by destruct HREF_RULES.
Qed.

Lemma pickSubjectAddress_elem (href : jsstring) (addresses : list jsstring)
    (displayText a : jsstring) :
  pickSubjectAddress toLowerCase ABBR_RE newURL href addresses displayText
  = Some a ->
  a ∈ addresses.
Proof.
  destruct addresses as [|first [|second rest]]; [done| |].
  - intros [= <-]. by left.
  - rewrite pick_unfold.
    destruct (truthy _) as [abbrHit|] eqn:Habbr.
    { intros [= <-]. unfold matchAbbrToAddresses in Habbr.
      destruct (ABBR_RE displayText) as [[m1 m2]|]; [|done].
      destruct (List.find _ _) as [c|] eqn:Hfind; [|done].
      apply find_elem_of in Hfind. destruct c; [done|]. by injection Habbr as <-. }
    destruct (exactDisplay _ _ _) as [addr|] eqn:Hexact.
    { intros [= <-]. unfold exactDisplay in Hexact.
      destruct (VALID_ETH_RE displayText); [|done]. by eapply find_elem_of. }
    destruct (tier2 _ _ _ _ _) as [best|] eqn:Htier2.
    { intros [= <-]. unfold tier2 in Htier2.
      destruct (newURL href) as [url|]; [|done].
      destruct (pickBest_first_maximum toLowerCase url first (second :: rest))
        as (best' & Hbest & i & Hi & _).
      rewrite Hbest in Htier2. destruct (bool_decide _); [done|].
      injection Htier2 as <-. by eapply list_elem_of_lookup_2. }
    intros [l' ->]%last_Some. apply elem_of_app. right. by left.
Qed.

Lemma matchRules_valid (rules : list HrefRule) (href a : jsstring) :
  matchRules toLowerCase rules href = Some a ->
  exists c, VALID_ETH_RE c = true /\ a = toLowerCase c.
Proof.
  induction rules as [|rule rest IH]; [done|]. cbn [matchRules].
  destruct (truthy _) as [c|]; [|done].
  destruct (VALID_ETH_RE c) eqn:Hc; [|done]. intros [= <-]. by exists c.
Qed.

(** X20: When the href does not parse as a URL the scoring is skipped: with
    two or more candidates and nothing decided by the display text, the
    last address is returned. *)
Theorem unparsable_href_gives_last_address (href displayText : jsstring)
    (addresses : list jsstring) :
  (2 <= length addresses)%nat ->
  newURL href = None ->
  truthy (matchAbbrToAddresses toLowerCase ABBR_RE displayText addresses) = None ->
  exactDisplay toLowerCase displayText addresses = None ->
  pickSubjectAddress toLowerCase ABBR_RE newURL href addresses displayText
  = last addresses.
Proof.
  intros Hlen Hurl Habbr Hexact.
  destruct addresses as [|first [|second rest]]; [cbn in Hlen; lia..|].
  rewrite pick_unfold, Habbr, Hexact. unfold tier2. by rewrite Hurl.
Qed.

Lemma collectEthereumLinks_fold (candidates : list Anchor)
    (results0 : list (Anchor * jsstring)) (set0 : gset jsstring) :
  let step := fun '(results, addressSet) anchor =>
       match linkAddress toLowerCase ETH_RE ABBR_RE HREF_RULES newURL anchor with
       | Some fullAddress =>
           (results ++ [(anchor, fullAddress)], {[fullAddress]} ∪ addressSet)
       | None => (results, addressSet)
       end in
  let found :=
    omap (fun anchor =>
            pair anchor
              <$> linkAddress toLowerCase ETH_RE ABBR_RE HREF_RULES newURL anchor)
      candidates in
  fold_left step candidates (results0, set0)
  = (results0 ++ found, list_to_set (found.*2) ∪ set0).
Proof.
  cbv zeta. revert results0 set0.
  induction candidates as [|anchor rest IH]; intros results0 set0.
  - cbn. by rewrite app_nil_r, (left_id_L ∅ (∪)).
  - cbn [fold_left omap list_omap].
    destruct (linkAddress toLowerCase ETH_RE ABBR_RE HREF_RULES newURL anchor)
      as [a|]; cbn [fmap option_fmap option_map]; rewrite IH; [|done].
    rewrite <- app_assoc. cbn [app fmap list_fmap snd list_to_set].
    f_equal.
    by rewrite (assoc_L (∪)), (comm_L (∪) (list_to_set _) {[a]}).
Qed.

(** X21: The scan gives one result for each anchor that has an address, in
    the order of the anchors, and adds the addresses of the results, and
    nothing else, to the set that is sent for resolution. *)
Theorem collectEthereumLinks_results_and_set (candidates : list Anchor)
    (addressSet : gset jsstring) :
  fst (collectEthereumLinks toLowerCase ETH_RE ABBR_RE HREF_RULES newURL
         candidates addressSet)
  = omap (fun anchor =>
            pair anchor
              <$> linkAddress toLowerCase ETH_RE ABBR_RE HREF_RULES newURL anchor)
      candidates
  /\ forall a,
       a ∈ snd (collectEthereumLinks toLowerCase ETH_RE ABBR_RE HREF_RULES newURL
                  candidates addressSet)
       <-> a ∈ addressSet
           \/ a ∈ (fst (collectEthereumLinks toLowerCase ETH_RE ABBR_RE
                           HREF_RULES newURL candidates addressSet)).*2.
Proof.
  unfold collectEthereumLinks.
  pose proof (collectEthereumLinks_fold candidates [] addressSet) as H.
  cbv zeta in H. rewrite H. cbn [fst snd app]. split; [done|].
  intros a. rewrite elem_of_union, elem_of_list_to_set. tauto.
Qed.

End Collect.

Section CollectDefault.
Import JS Content.

Variable ABBR_RE : jsstring -> option (jsstring * jsstring).
Variable HREF_RULES : list HrefRule.
Variable newURL : jsstring -> option URL.

Lemma VALID_ETH_RE_toLowerCase (a : jsstring) :
  VALID_ETH_RE a = true ->
  VALID_ETH_RE (toLowerCase a) = true
  /\ toLowerCase (toLowerCase a) = toLowerCase a.
Proof.
  intros H. split; [|apply toLowerCase_idemp].
  by apply (VALID_ADDR_toLowerCase a).
Qed.

(** X22: With the default pattern for full addresses, every address the scan
    attaches to an anchor is a full address in lower case, whatever the
    custom rules, the abbreviation pattern and the URL parser are: it passes
    the check the background worker applies to the addresses of a RESOLVE
    message. *)
Theorem collected_addresses_pass_the_worker_check (anchor : Anchor)
    (a : jsstring) :
  linkAddress toLowerCase DEFAULT_ETH_RE ABBR_RE HREF_RULES newURL anchor
  = Some a ->
  Background.VALID_ADDR a = true /\ toLowerCase a = a.
Proof.
  assert (forall href b,
            b ∈ allAddressesInHref toLowerCase DEFAULT_ETH_RE href ->
            Background.VALID_ADDR b = true /\ toLowerCase b = b) as Hall.
  { intros href b. unfold allAddressesInHref. destruct href as [|c href'].
    { intros Hb. by apply elem_of_nil in Hb. }
    intros (m & <- & Hm)%list_elem_of_In%in_map_iff.
    apply VALID_ETH_RE_toLowerCase.
    pose proof (ethScan_valid None 0 (c :: href')) as Hv.
    rewrite Forall_forall in Hv. apply Hv. by apply list_elem_of_In. }
  unfold linkAddress.
  assert (forall r, truthy (matchHrefRules toLowerCase HREF_RULES (anchor_href anchor))
                    = Some r ->
                    Background.VALID_ADDR r = true /\ toLowerCase r = r) as Hrule.
  { intros r Hr.
    destruct (matchHrefRules _ _ _) as [r'|] eqn:Hm; [|done].
    assert (r' = r) as -> by (destruct r'; [done|by injection Hr]).
    apply matchRules_valid in Hm as (c & Hc & ->).
    by apply VALID_ETH_RE_toLowerCase. }
  destruct (match HREF_RULES with [] => None | _ => _ end) as [r|] eqn:Hcustom.
  { intros [= <-]. apply Hrule. by destruct HREF_RULES. }
  destruct (allAddressesInHref toLowerCase DEFAULT_ETH_RE (anchor_href anchor))
    as [|first rest] eqn:Hl.
  - unfold matchAbbrToHref. rewrite Hl. by rewrite matchAbbrToAddresses_nil.
  - intros Hp%pickSubjectAddress_elem. apply (Hall (anchor_href anchor)).
    by rewrite Hl.
Qed.

End CollectDefault.

(** * The scan on concrete anchors *)

Section CollectExamples.
Import JS Content.

Lemma abbreviated_text_alone_is_passed_over_witness :
  linkAddress toLowerCase DEFAULT_ETH_RE DEFAULT_ABBR_RE [] plainURL
    (mkAnchor (str "https://x/profile") abbreviatedA) = None.
Proof.
  apply (abbreviated_text_alone_is_passed_over toLowerCase DEFAULT_ETH_RE
           DEFAULT_ABBR_RE [] plainURL
           (mkAnchor (str "https://x/profile") abbreviatedA)).
  - by vm_compute.
  - by left.
Defined.

Lemma unparsable_href_gives_last_address_witness :
  pickSubjectAddress toLowerCase DEFAULT_ABBR_RE plainURL bareHref
    [subjectA; subjectB] (str "holder")
  = last [subjectA; subjectB].
Proof.
  apply (unparsable_href_gives_last_address toLowerCase DEFAULT_ABBR_RE plainURL
           bareHref (str "holder") [subjectA; subjectB]).
  - cbn. lia.
  - by vm_compute.
  - by vm_compute.
  - by vm_compute.
Defined.

Lemma collected_addresses_pass_the_worker_check_witness :
  Background.VALID_ADDR subjectA = true /\ toLowerCase subjectA = subjectA.
Proof.
  apply (collected_addresses_pass_the_worker_check DEFAULT_ABBR_RE [queryRule]
           plainURL (mkAnchor tokenHref abbreviatedA) subjectA).
  by vm_compute.
Defined.

End CollectExamples.

(** * Replacing the text of an anchor *)

Section Replace.
Import JS Content.

Lemma skipWhiteSpace_nil (s : jsstring) :
  skipWhiteSpace s = [] <-> forallb isWhiteSpace s = true.
Proof.
  induction s as [|c s IH]; [done|]. cbn [skipWhiteSpace forallb].
  destruct (isWhiteSpace c); [by rewrite IH|]. cbn [andb]. split; done.
Qed.

Lemma skipWhiteSpace_blank (s : jsstring) :
  forallb isWhiteSpace (skipWhiteSpace s) = forallb isWhiteSpace s.
Proof.
  induction s as [|c s IH]; [done|]. cbn [skipWhiteSpace forallb].
  destruct (isWhiteSpace c) eqn:Hc; [done|]. cbn [forallb]. by rewrite Hc.
Qed.

Lemma forallb_rev {A} (p : A -> bool) (l : list A) :
  forallb p (rev l) = forallb p l.
Proof.
  apply eq_true_iff_eq. rewrite !forallb_forall.
  split; intros H x Hx; apply H; by apply in_rev in Hx || apply in_rev.
Qed.

Lemma trim_nil (s : jsstring) :
  trim s = [] <-> forallb isWhiteSpace s = true.
Proof.
  unfold trim. split.
  - intros H. apply (f_equal (@rev _)) in H. rewrite rev_involutive in H.
    cbn [rev] in H. apply skipWhiteSpace_nil in H.
    by rewrite forallb_rev, skipWhiteSpace_blank in H.
  - intros H.
    assert (skipWhiteSpace (rev (skipWhiteSpace s)) = []) as ->; [|done].
    apply skipWhiteSpace_nil. by rewrite forallb_rev, skipWhiteSpace_blank.
Qed.

Lemma forallb_concat {A} (p : A -> bool) (ls : list (list A)) :
  forallb p (concat ls) = forallb (forallb p) ls.
Proof.
  induction ls as [|l ls IH]; [done|].
  cbn [concat forallb]. by rewrite forallb_app, IH.
Qed.

Lemma replaceFirstText_spec (nodes : list jsstring) (name : jsstring) :
  forallb isWhiteSpace (concat nodes) = false ->
  exists (i : nat) node,
    nodes !! i = Some node /\ trim node <> []
    /\ (forall (j : nat) b, (j < i)%nat -> nodes !! j = Some b -> trim b = [])
    /\ replaceFirstText nodes name = <[i := name]> nodes.
Proof.
  induction nodes as [|node rest IH]; [done|].
  cbn [concat replaceFirstText]. rewrite forallb_app.
  destruct (trim node) as [|c t] eqn:Ht.
  - apply trim_nil in Ht as Hb. rewrite Hb. cbn [andb]. intros Hrest.
    destruct (IH Hrest) as (i & n & Hi & Hn & Hbefore & Heq).
    exists (S i), n. repeat split; [done..| |by rewrite Heq].
    intros [|j] b Hj Hbj; [by injection Hbj as <-|].
    apply (Hbefore j); [lia|done].
  - intros _. exists O, node. repeat split; [by rewrite Ht|].
    intros j b Hj. lia.
Qed.

(** X23: An anchor is marked as done only when its text has been replaced:
    whenever [replaceAnchor] goes through, the name is the one the mapping
    has for the address and is not empty, the display text starts with
    [0x] or ends with [.eth] and is not on the ignore list, and exactly one
    text node has changed, the first one that is not blank, which now holds
    the name; the text nodes after it keep their text. *)
Theorem replaceAnchor_replaces_first_text (nodes after : list jsstring)
    (fullAddress : jsstring) (nameMap : gmap jsstring jsstring)
    (replaceEns : bool) (ignoreSet : gset jsstring) :
  replaceAnchor nodes fullAddress nameMap replaceEns ignoreSet = Some after ->
  exists (i : nat) node name,
    nameMap !! fullAddress = Some name /\ name <> []
    /\ nodes !! i = Some node /\ trim node <> []
    /\ (forall (j : nat) b, (j < i)%nat -> nodes !! j = Some b -> trim b = [])
    /\ after = <[i := name]> nodes
    /\ (trim (concat nodes) ∉ ignoreSet)
    /\ (startsWith (trim (concat nodes)) (str "0x") = true
        \/ (replaceEns = true
            /\ endsWith (trim (concat nodes)) (str ".eth") = true)).
Proof.
  unfold replaceAnchor.
  destruct (nameMap !! fullAddress) as [name|] eqn:Hname; [|done].
  destruct name as [|c0 name']; [done|]. cbn [truthy].
  set (name := c0 :: name'). cbv zeta.
  destruct (trim (concat nodes)) as [|d t] eqn:Hd; [done|].
  assert (forallb isWhiteSpace (concat nodes) = false) as Hblank.
  { destruct (forallb isWhiteSpace (concat nodes)) eqn:Hb; [|done].
    apply trim_nil in Hb. congruence. }
  destruct (replaceFirstText_spec nodes name Hblank)
    as (i & node & Hi & Hnode & Hbefore & Heq).
  destruct (bool_decide (d :: t ∈ ignoreSet)) eqn:Hig; [done|].
  apply bool_decide_eq_false in Hig.
  destruct (endsWith (d :: t) (str ".eth")) eqn:Heth.
  - destruct replaceEns; [|done]. intros [= <-].
    exists i, node, name. repeat (split; [done|]). by right.
  - destruct (startsWith (d :: t) (str "0x")) eqn:H0x; [|done]. intros [= <-].
    exists i, node, name. repeat (split; [done|]). by left.
Qed.

Lemma replaceAnchor_replaces_first_text_witness :
  exists (i : nat) node name,
    ({[subjectA := str "alice.wei"]} : gmap jsstring jsstring) !! subjectA
    = Some name
    /\ name <> []
    /\ [str " "; str "0xaaaa"; str "...0001"] !! i = Some node
    /\ trim node <> []
    /\ (forall (j : nat) b, (j < i)%nat ->
          [str " "; str "0xaaaa"; str "...0001"] !! j = Some b -> trim b = [])
    /\ [str " "; str "alice.wei"; str "...0001"]
       = <[i := name]> [str " "; str "0xaaaa"; str "...0001"]
    /\ (trim (concat [str " "; str "0xaaaa"; str "...0001"])
        ∉ (∅ : gset jsstring))
    /\ (startsWith (trim (concat [str " "; str "0xaaaa"; str "...0001"]))
          (str "0x") = true
        \/ (false = true
            /\ endsWith (trim (concat [str " "; str "0xaaaa"; str "...0001"]))
                 (str ".eth") = true)).
Proof.
  apply (replaceAnchor_replaces_first_text
           [str " "; str "0xaaaa"; str "...0001"]
           [str " "; str "alice.wei"; str "...0001"]
           subjectA {[subjectA := str "alice.wei"]} false ∅).
  by vm_compute.
Defined.

End Replace.

(** * What the options page can save *)

Section SavedOptions.
Import JS Background Options.

Variable network : nat -> Response * Z.

Lemma decChar_cases (d : Z) :
  0 <= d < 10 ->
  decValue (Z.to_N (48 + d)) = Some d
  /\ isWhiteSpace (Z.to_N (48 + d)) = false
  /\ (Z.to_N (48 + d) =? 45)%N = false /\ (Z.to_N (48 + d) =? 43)%N = false.
Proof.
  intros Hd.
  assert (d = 0 \/ d = 1 \/ d = 2 \/ d = 3 \/ d = 4 \/ d = 5 \/ d = 6 \/ d = 7
          \/ d = 8 \/ d = 9) as H by lia.
  repeat (destruct H as [->|H]; [by vm_compute|]). subst d. by vm_compute.
Qed.

Lemma decPrefix_decimal (k : nat) (v : Z) (t : jsstring) (c a : Z) :
  0 <= v ->
  decPrefix (decimal k v ++ t) c a
  = decPrefix t (c + Z.of_nat k) (a * 10 ^ Z.of_nat k + v mod 10 ^ Z.of_nat k).
Proof.
  revert v t. induction k as [|k IH]; intros v t Hv.
  - cbn [decimal app]. f_equal; [lia|]. cbn. rewrite Z.mod_1_r. lia.
  - cbn [decimal]. rewrite <- app_assoc, IH by (apply Z.div_pos; lia).
    cbn [app decPrefix].
    destruct (decChar_cases (v mod 10)) as [-> _];
      [apply Z.mod_pos_bound; lia|].
    f_equal; [lia|].
    rewrite Nat2Z.inj_succ, Z.pow_succ_r by lia.
    rewrite (Z.rem_mul_r v 10 (10 ^ Z.of_nat k)) by lia. lia.
Qed.

Lemma decimal_head (k : nat) (v : Z) :
  0 <= v ->
  exists d rest, 0 <= d < 10 /\ decimal (S k) v = Z.to_N (48 + d) :: rest.
Proof.
  revert v. induction k as [|k IH]; intros v Hv.
  - exists (v mod 10), []. split; [apply Z.mod_pos_bound; lia|done].
  - destruct (IH (v / 10)) as (d & rest & Hd & Heq); [apply Z.div_pos; lia|].
    exists d, (rest ++ [Z.to_N (48 + v mod 10)]). split; [done|].
    change (decimal (S (S k)) v)
      with (decimal (S k) (v / 10) ++ [Z.to_N (48 + v mod 10)]).
    by rewrite Heq.
Qed.

Lemma parseInt10_decimal (k : nat) (v : Z) :
  0 <= v < 10 ^ Z.of_nat (S k) ->
  parseInt10 (decimal (S k) v) = Some (round53 v).
Proof.
  intros Hv.
  pose proof (decPrefix_decimal (S k) v [] 0 0 ltac:(lia)) as Hpre.
  rewrite app_nil_r in Hpre.
  rewrite Z.mod_small in Hpre by lia.
  destruct (decimal_head k v ltac:(lia)) as (d & rest & Hd & Heq).
  rewrite Heq in Hpre |- *.
  destruct (decChar_cases d Hd) as (_ & Hws & Hm & Hp).
  unfold parseInt10. cbn [skipWhiteSpace]. rewrite Hws, Hm, Hp.
  rewrite Hpre. cbn [decPrefix].
  rewrite (proj2 (Z.eqb_neq _ 0)) by lia.
  do 2 f_equal. lia.
Qed.

(** X24: A number typed as a decimal numeral is saved as it is when it is in
    range: a batch size from 1 to 500 and a cooldown from 0 to 30000. The
    two fields differ at zero, which is kept as a cooldown and replaced by
    the default of 50 as a batch size; larger numbers are cut to the upper
    bound. *)
Theorem saved_numbers_in_range_are_kept (k : nat) (n : Z) :
  0 <= n < 10 ^ Z.of_nat (S k) ->
  saveMaxBatchSize (decimal (S k) n)
  = (if n =? 0 then 50 else Z.min 500 n)
  /\ saveRpcCooldownMs (decimal (S k) n) = Z.min 30000 n.
Proof.
  intros Hn. unfold saveMaxBatchSize, saveRpcCooldownMs.
  rewrite parseInt10_decimal by done. cbn [falsyNum toInteger].
  assert (0 <= round53 n /\ (round53 n = 0 <-> n = 0)
          /\ Z.min 500 (round53 n) = Z.min 500 n
          /\ Z.min 30000 (round53 n) = Z.min 30000 n) as (H0 & Hz & H500 & H30).
  { unfold round53. rewrite Z.abs_eq by lia.
    destruct (Z.ltb_spec n (2 ^ 53)) as [Hlt|Hge]; [lia|].
    cbv zeta. rewrite Z.sgn_pos, Z.mul_1_l by lia.
    set (e := Z.log2 n - 52).
    assert (52 <= Z.log2 n - 0) by (pose proof (Z.log2_le_mono _ _ Hge);
      change (Z.log2 (2 ^ 53)) with 53 in *; lia).
    assert (0 < 2 ^ e) by (apply Z.pow_pos_nonneg; lia).
    assert (2 ^ 52 <= n / 2 ^ e).
    { apply Z.div_le_lower_bound; [lia|].
      rewrite <- Z.pow_add_r by lia. replace (e + 52) with (Z.log2 n) by lia.
      apply Z.log2_spec. lia. }
    set (q := n / 2 ^ e) in *.
    change (2 ^ 52) with 4503599627370496 in *.
    change (2 ^ 53) with 9007199254740992 in *.
    match goal with |- context [if ?b then _ else _] => destruct b end.
    - assert (4503599627370496 <= (q + 1) * 2 ^ e) by nia. lia.
    - assert (4503599627370496 <= q * 2 ^ e) by nia. lia. }
  destruct (Z.eqb_spec (round53 n) 0) as [E|E], (Z.eqb_spec n 0) as [E'|E'];
    rewrite ?H500, ?H30; cbn [maxBatchSize WNS_DEFAULTS]; lia.
Qed.

Lemma saved_numbers_in_range_are_kept_witness :
  saveMaxBatchSize (decimal 3 120) = (if 120 =? 0 then 50 else Z.min 500 120)
  /\ saveRpcCooldownMs (decimal 3 120) = Z.min 30000 120.
Proof. apply (saved_numbers_in_range_are_kept 2 120). cbn. lia. Defined.

(** X25: Whatever is typed into the batch size field, the worker that runs
    with the saved value cuts what it has to ask for into batches of 1 to
    500 addresses: the chunking loop ends, with chunks that are the
    uncached addresses in order; the transport calls of an invocation are
    the first chunks, one call each, all of them when the invocation
    returns; and the invocation does return when each of these calls is
    answered. *)
Theorem saved_batch_size_bounds_every_call (value : jsstring)
    (cacheOn : bool) (ttl cooldown : Z) (addresses : list jsstring)
    (w : World) :
  let stored := mkConfig cacheOn ttl (saveMaxBatchSize value) cooldown in
  let uncached := uncachedOf stored addresses w in
  exists chunks,
    chunkLoop (length uncached) uncached (saveMaxBatchSize value) 0 []
    = Normal chunks
    /\ concat chunks = uncached
    /\ Forall (fun c => (1 <= length c <= 500)%nat) chunks
    /\ (exists (j : nat) calls,
          fetched (fst (resolveAddresses stored network addresses w))
          = fetched w ++ calls
          /\ List.map call_addresses calls = take j chunks
          /\ forall res,
               snd (resolveAddresses stored network addresses w) = Normal res ->
               j = length chunks)
    /\ ((forall i : nat, (i < length chunks)%nat ->
           answers (fst (network (length (fetched w) + i))) = true) ->
        exists res,
          snd (resolveAddresses stored network addresses w) = Normal res).
Proof.
  intros stored uncached.
  assert (1 <= saveMaxBatchSize value <= 500) as Hm
    by (unfold saveMaxBatchSize; lia).
  destruct (chunkLoop_spec uncached (saveMaxBatchSize value) (length uncached)
              0 [] ltac:(lia) ltac:(lia) ltac:(lia))
    as (chunks & Hchunks & Hcat & Hall & _).
  cbn [app] in Hchunks. rewrite drop_0 in Hcat.
  exists chunks. split; [done|]. split; [done|]. split.
  { eapply Forall_impl; [exact Hall|]. intros c Hc. cbv beta in Hc. lia. }
  rewrite resolveAddresses_cases. fold uncached.
  change (maxBatchSize stored) with (saveMaxBatchSize value). rewrite Hchunks.
  destruct uncached as [|a0 u] eqn:Hu.
  { assert (chunks = []) as ->
      by (cbn in Hchunks; by injection Hchunks as <-).
    cbn [fst snd]. split; [|by eexists].
    exists O, []. by rewrite app_nil_r. }
  destruct (chunksLoop network (cacheEnabled stored) chunks
              (cachedNames stored addresses w) w) as [w' r] eqn:Hloop.
  cbn [fst snd]. split.
  - pose proof (chunksLoop_log _ _ _ _ _ _ _ Hloop) as (calls & Hf & _).
    pose proof (chunksLoop_calls _ _ _ _ _ _ _ Hloop)
      as (j & Hcalls & _ & Hnormal & _).
    exists j, calls. split; [done|]. split; [|done].
    rewrite Hf, List.map_app in Hcalls. by apply app_inv_head in Hcalls.
  - intros Hanswered.
    destruct (chunksLoop_answered network (cacheEnabled stored) chunks
                (cachedNames stored addresses w) w Hanswered)
      as (w1 & r1 & Hrun & _).
    rewrite Hrun in Hloop. injection Hloop as _ <-. by exists r1.
Qed.

(** X26: Whatever is typed into the cooldown field, an invocation waits for
    at most 30 seconds before it starts, and never goes back in time. *)
Theorem saved_cooldown_bounds_the_wait (value : jsstring) (cacheOn : bool)
    (ttl batch : Z) (w : World) :
  lastRpcTime w <= now w ->
  now w
  <= now (waitForCooldown (mkConfig cacheOn ttl batch (saveRpcCooldownMs value)) w)
  <= now w + 30000.
Proof.
  intros Hclock. unfold waitForCooldown, saveRpcCooldownMs.
  cbn [rpcCooldownMs].
  destruct (Z.ltb_spec (now w - lastRpcTime w)
              (Z.max 0 (Z.min 30000
                 match parseInt10 value with
                 | Some raw => raw
                 | None => rpcCooldownMs WNS_DEFAULTS
                 end))); cbn [now]; lia.
Qed.

Lemma saved_cooldown_bounds_the_wait_witness :
  now world0
  <= now (waitForCooldown
            (mkConfig true 60 50 (saveRpcCooldownMs (str "99999999"))) world0)
  <= now world0 + 30000.
Proof.
  apply (saved_cooldown_bounds_the_wait (str "99999999") true 60 50 world0).
  cbn. lia.
Defined.

End SavedOptions.
